(** * Mini compiler: semantic analyzer and RISC-V code generator

    A shallow embedding of [static_semantic_ast_visitor.py] and
    [code_gen_ast_visitor.py].  Python dictionaries are finite maps
    ([gmap]), the visitors' mutable attributes are fields of a record
    that every visiting function takes and returns, emitted assembly
    lines are strings, and diagnostics are (message, line) pairs in the
    order in which [Error] prints them. *)

From Stdlib Require Import ZArith Decimal DecimalString DecimalZ DecimalPos.
From stdpp Require Import gmap strings list.

Set Warnings "-register-all,-clear-no-such-hyp".

Open Scope Z_scope.
Open Scope string_scope.

(** ** Syntax trees

    The node classes of the [miniast] package are data only; their
    shapes are read off the attribute accesses made by the visitors.
    Every node carries its [linenum].  Names are [IdentifierExpression]
    nodes in the tree and both [Name] helpers return their [id], so a
    name is a string here. *)

Module Ast.

Inductive type_node :=
| IntType
| BoolType
| StructType (linenum : Z) (name : string).

Inductive return_type :=
| ReturnTypeVoid
| ReturnTypeReal (type_ : type_node).

Inductive expression :=
| IntegerExpression (linenum : Z) (value : Z)
| TrueExpression (linenum : Z)
| FalseExpression (linenum : Z)
| NullExpression (linenum : Z)
| ReadExpression (linenum : Z)
| IdentifierExpression (linenum : Z) (id : string)
| DotExpression (linenum : Z) (left : expression) (id : string)
| UnaryExpression (linenum : Z) (operator : string) (operand : expression)
| BinaryExpression (linenum : Z) (operator : string) (left right : expression)
| InvocationExpression (linenum : Z) (name : string) (arguments : list expression)
| NewExpression (linenum : Z) (id : string).

Inductive lvalue :=
| LValueID (linenum : Z) (id : string)
| LValueDot (linenum : Z) (left : lvalue) (id : string).

(** [else_block] may be absent ([None] in Python).  A [ReturnStatement]
    always has its expression: a return without one is a
    [ReturnEmptyStatement]. *)
Inductive statement :=
| BlockStatement (linenum : Z) (statements : list statement)
| AssignmentStatement (linenum : Z) (target : lvalue) (source : expression)
| ConditionalStatement (linenum : Z) (guard : expression)
    (then_block : statement) (else_block : option statement)
| WhileStatement (linenum : Z) (guard : expression) (body : statement)
| DeleteStatement (linenum : Z) (e : expression)
| InvocationStatement (linenum : Z) (e : expression)
| PrintStatement (linenum : Z) (e : expression)
| PrintLnStatement (linenum : Z) (e : expression)
| ReturnStatement (linenum : Z) (e : expression)
| ReturnEmptyStatement (linenum : Z).

Record Declaration := mkDeclaration {
  decl_linenum : Z;
  decl_type : type_node;
  decl_name : string
}.

Record TypeDeclaration := mkTypeDeclaration {
  tdecl_linenum : Z;
  tdecl_name : string;
  tdecl_fields : list Declaration
}.

Record Function := mkFunction {
  func_linenum : Z;
  func_name : string;
  func_params : list Declaration;
  func_ret_type : return_type;
  func_locals : list Declaration;
  func_body : list statement
}.

Record Program := mkProgram {
  prog_types : list TypeDeclaration;
  prog_declarations : list Declaration;
  prog_functions : list Function
}.

Definition expr_linenum (e : expression) : Z :=
  match e with
  | IntegerExpression l _ | TrueExpression l | FalseExpression l
  | NullExpression l | ReadExpression l | IdentifierExpression l _
  | DotExpression l _ _ | UnaryExpression l _ _ | BinaryExpression l _ _ _
  | InvocationExpression l _ _ | NewExpression l _ => l
  end.

(** [getattr(stmt, "statements", [])]: only a block has the attribute. *)
Definition statements_of (s : statement) : list statement :=
  match s with
  | BlockStatement _ l => l
  | _ => []
  end.

Definition is_return (s : statement) : bool :=
  match s with
  | ReturnStatement _ _ | ReturnEmptyStatement _ => true
  | _ => false
  end.

(** Induction principles that reach the expressions and statements
    nested in argument lists, blocks and else branches. *)
Section expression_induction.
Variable P : expression → Prop.
Hypothesis HInteger : ∀ l v, P (IntegerExpression l v).
Hypothesis HTrue : ∀ l, P (TrueExpression l).
Hypothesis HFalse : ∀ l, P (FalseExpression l).
Hypothesis HNull : ∀ l, P (NullExpression l).
Hypothesis HRead : ∀ l, P (ReadExpression l).
Hypothesis HIdentifier : ∀ l x, P (IdentifierExpression l x).
Hypothesis HDot : ∀ l e x, P e → P (DotExpression l e x).
Hypothesis HUnary : ∀ l op e, P e → P (UnaryExpression l op e).
Hypothesis HBinary : ∀ l op e1 e2, P e1 → P e2 → P (BinaryExpression l op e1 e2).
Hypothesis HInvocation : ∀ l f args, Forall P args → P (InvocationExpression l f args).
Hypothesis HNew : ∀ l x, P (NewExpression l x).

Fixpoint expression_nested_ind (e : expression) : P e :=
  match e with
  | IntegerExpression l v => HInteger l v
  | TrueExpression l => HTrue l
  | FalseExpression l => HFalse l
  | NullExpression l => HNull l
  | ReadExpression l => HRead l
  | IdentifierExpression l x => HIdentifier l x
  | DotExpression l e x => HDot l e x (expression_nested_ind e)
  | UnaryExpression l op e => HUnary l op e (expression_nested_ind e)
  | BinaryExpression l op e1 e2 =>
      HBinary l op e1 e2 (expression_nested_ind e1) (expression_nested_ind e2)
  | InvocationExpression l f args =>
      HInvocation l f args
        ((fix all (es : list expression) : Forall P es :=
            match es with
            | [] => List.Forall_nil P
            | e :: es' => List.Forall_cons P e es' (expression_nested_ind e) (all es')
            end) args)
  | NewExpression l x => HNew l x
  end.
End expression_induction.

Section statement_induction.
Variable P : statement → Prop.
Hypothesis HBlock : ∀ l ss, Forall P ss → P (BlockStatement l ss).
Hypothesis HAssignment : ∀ l t e, P (AssignmentStatement l t e).
Hypothesis HConditional : ∀ l e s1 s2,
  P s1 → from_option P True s2 → P (ConditionalStatement l e s1 s2).
Hypothesis HWhile : ∀ l e s, P s → P (WhileStatement l e s).
Hypothesis HDelete : ∀ l e, P (DeleteStatement l e).
Hypothesis HInvocationS : ∀ l e, P (InvocationStatement l e).
Hypothesis HPrint : ∀ l e, P (PrintStatement l e).
Hypothesis HPrintLn : ∀ l e, P (PrintLnStatement l e).
Hypothesis HReturn : ∀ l e, P (ReturnStatement l e).
Hypothesis HReturnEmpty : ∀ l, P (ReturnEmptyStatement l).

Fixpoint statement_nested_ind (s : statement) : P s :=
  match s with
  | BlockStatement l ss =>
      HBlock l ss
        ((fix all (ss : list statement) : Forall P ss :=
            match ss with
            | [] => List.Forall_nil P
            | s :: ss' => List.Forall_cons P s ss' (statement_nested_ind s) (all ss')
            end) ss)
  | AssignmentStatement l t e => HAssignment l t e
  | ConditionalStatement l e s1 s2 =>
      HConditional l e s1 s2 (statement_nested_ind s1)
        (match s2 as o return from_option P True o with
         | Some s => statement_nested_ind s
         | None => I
         end)
  | WhileStatement l e s => HWhile l e s (statement_nested_ind s)
  | DeleteStatement l e => HDelete l e
  | InvocationStatement l e => HInvocationS l e
  | PrintStatement l e => HPrint l e
  | PrintLnStatement l e => HPrintLn l e
  | ReturnStatement l e => HReturn l e
  | ReturnEmptyStatement l => HReturnEmpty l
  end.
End statement_induction.

End Ast.

Import Ast.

(** Python's [str] of an integer, as the f-strings format it. *)
Definition str (z : Z) : string := NilZero.string_of_int (Z.to_int z).

(** ** Code generator *)

Module CodeGen.

(** [self.structs[name] = {"fields": layout, "size": offset}] *)
Record StructLayout := mkStructLayout {
  fields : gmap string Z;
  size : Z
}.

Record CodeGenVisitor := mkCodeGenVisitor {
  output : list string;
  label_counter : Z;
  structs : gmap string StructLayout;
  globals : gmap string string;
  locals : gmap string Z;
  current_function : option string;
  stack_offset : Z;
  read : bool;
  type_environment : gmap string type_node;
  current_locals_size : Z
}.

Definition init : CodeGenVisitor :=
  mkCodeGenVisitor [] 0 ∅ ∅ ∅ None 0 false ∅ 0.

Definition emit (g : CodeGenVisitor) (instruction : string) : CodeGenVisitor :=
  mkCodeGenVisitor (output g ++ [instruction]) (label_counter g) (structs g)
    (globals g) (locals g) (current_function g) (stack_offset g) (read g)
    (type_environment g) (current_locals_size g).

Definition emits (g : CodeGenVisitor) (l : list string) : CodeGenVisitor :=
  fold_left emit l g.

(** [Label] returns the fresh label and bumps the counter. *)
Definition Label (g : CodeGenVisitor) (prefix : string) : string * CodeGenVisitor :=
  (prefix ++ str (label_counter g),
   mkCodeGenVisitor (output g) (label_counter g + 1) (structs g)
     (globals g) (locals g) (current_function g) (stack_offset g) (read g)
     (type_environment g) (current_locals_size g)).

Definition _type_size (type_node : Ast.type_node) : Z :=
  match type_node with
  | IntType => 4
  | BoolType => 4
  | StructType _ _ => 4
  end.

(** The loop of [_calculate_struct_layout]: the dictionary under
    construction and the running offset. *)
Definition layout_step (acc : gmap string Z * Z) (field : Declaration)
  : gmap string Z * Z :=
  let '(layout, offset) := acc in
  (<[decl_name field := offset]> layout, offset + _type_size (decl_type field)).

Definition struct_layout (fs : list Declaration) : StructLayout :=
  let '(layout, offset) := fold_left layout_step fs (∅, 0) in
  mkStructLayout layout offset.

Definition set_structs (g : CodeGenVisitor) (m : gmap string StructLayout)
  : CodeGenVisitor :=
  mkCodeGenVisitor (output g) (label_counter g) m
    (globals g) (locals g) (current_function g) (stack_offset g) (read g)
    (type_environment g) (current_locals_size g).

Definition _calculate_struct_layout (g : CodeGenVisitor) (tdecl : TypeDeclaration)
  : CodeGenVisitor :=
  set_structs g (<[tdecl_name tdecl := struct_layout (tdecl_fields tdecl)]> (structs g)).

(** *** Expressions *)

(** The if/elif chain on the operator text in [visit_binary_expression];
    an operator outside the chain emits nothing. *)
Definition binary_op_code (op : string) : list string :=
  if String.eqb op "+" then ["    add t0, t0, t1"]
  else if String.eqb op "-" then ["    sub t0, t0, t1"]
  else if String.eqb op "*" then ["    mul t0, t0, t1"]
  else if String.eqb op "/" then ["    div t0, t0, t1"]
  else if String.eqb op "<" then ["    slt t0, t0, t1"]
  else if String.eqb op ">" then ["    slt t0, t1, t0"]
  else if String.eqb op "<=" then ["    slt t0, t1, t0"; "    xori t0, t0, 1"]
  else if String.eqb op ">=" then ["    slt t0, t0, t1"; "    xori t0, t0, 1"]
  else if String.eqb op "==" then ["    sub t0, t0, t1"; "    seqz t0, t0"]
  else if String.eqb op "!=" then ["    sub t0, t0, t1"; "    snez t0, t0"]
  else if String.eqb op "&&" then ["    and t0, t0, t1"; "    snez t0, t0"]
  else if String.eqb op "||" then ["    or t0, t0, t1"; "    snez t0, t0"]
  else [].

Definition unary_op_code (op : string) : list string :=
  if String.eqb op "-" then ["    neg t0, t0"]
  else if String.eqb op "!" then ["    seqz t0, t0"]
  else [].

Definition _get_struct_type (g : CodeGenVisitor) (expr : expression) : option string :=
  match expr with
  | IdentifierExpression _ var_name =>
      match type_environment g !! var_name with
      | Some (StructType _ name) => Some name
      | _ => None
      end
  | _ => None
  end.

(** The three outcomes of the offset lookup in [visit_dot_expression].
    A struct name is used only when it is a non-empty string (Python
    truthiness of [struct_type_name]). *)
Definition dot_load (g : CodeGenVisitor) (struct_type_name : option string)
    (field_name : string) : list string :=
  let fallback :=
    ["    lw t0, 0(t2)  # Load field " ++ field_name ++ " (unknown struct type)"] in
  match struct_type_name with
  | Some sname =>
      if String.eqb sname "" then fallback else
      match structs g !! sname with
      | Some lay =>
          match fields lay !! field_name with
          | Some offset =>
              ["    lw t0, " ++ str offset ++ "(t2)  # Load field " ++ field_name]
          | None =>
              ["    # ERROR: Field " ++ field_name ++ " not found in struct " ++ sname;
               "    li t0, 0"]
          end
      | None => fallback
      end
  | None => fallback
  end.

(** [range(min(num_args, 8))] with the load it emits for each index. *)
Definition arg_register_loads (num_args : nat) : list string :=
  map (fun i : nat =>
         "    lw a" ++ str (Z.of_nat i) ++ ", " ++ str (Z.of_nat i * 4) ++ "(sp)")
      (seq 0 (Nat.min num_args 8)).

Fixpoint visit_expression (g : CodeGenVisitor) (expr : expression) {struct expr}
  : CodeGenVisitor :=
  match expr with
  | IntegerExpression _ value => emit g ("    li t0, " ++ str value)
  | TrueExpression _ => emit g "    li t0, 1"
  | FalseExpression _ => emit g "    li t0, 0"
  | NullExpression _ => emit g "    li t0, 0"
  | ReadExpression _ =>
      emits g ["    la t0, input_file_ptr"; "    lw a0, 0(t0)";
               "    jal read_int"; "    mv t0, a0"]
  | IdentifierExpression _ name =>
      match locals g !! name with
      | Some offset => emit g ("    lw t0, " ++ str offset ++ "(fp)")
      | None =>
          match globals g !! name with
          | Some label => emits g ["    la t1, " ++ label; "    lw t0, 0(t1)"]
          | None => emits g ["    # ERROR: Unknown variable " ++ name; "    li t0, 0"]
          end
      end
  | BinaryExpression _ op lhs rhs =>
      let g := visit_expression g lhs in
      let g := emits g ["    addi sp, sp, -4"; "    sw t0, 0(sp)  # Push left"] in
      let g := visit_expression g rhs in
      let g := emits g ["    mv t1, t0"; "    lw t0, 0(sp)  # Pop left";
                        "    addi sp, sp, 4"] in
      emits g (binary_op_code op)
  | UnaryExpression _ op operand =>
      let g := visit_expression g operand in
      emits g (unary_op_code op)
  | DotExpression _ lhs field_name =>
      let g := visit_expression g lhs in
      let g := emit g "    mv t2, t0  # Save struct pointer" in
      emits g (dot_load g (_get_struct_type g lhs) field_name)
  | InvocationExpression _ fname arguments =>
      let num_args := length arguments in
      let temp_stack_space := Z.of_nat num_args * 4 in
      let g := if (0 <? temp_stack_space)%Z
               then emit g ("    addi sp, sp, -" ++ str temp_stack_space) else g in
      let g := (fix args_loop (g : CodeGenVisitor) (i : Z) (args : list expression)
                  {struct args} : CodeGenVisitor :=
                  match args with
                  | [] => g
                  | arg :: rest =>
                      let g := visit_expression g arg in
                      let g := emit g ("    sw t0, " ++ str (i * 4) ++ "(sp)") in
                      args_loop g (i + 1) rest
                  end) g 0 arguments in
      let g := emits g (arg_register_loads num_args) in
      let g := if (0 <? temp_stack_space)%Z
               then emit g ("    addi sp, sp, " ++ str temp_stack_space) else g in
      let g := emit g ("    jal " ++ fname) in
      emit g "    mv t0, a0"
  | NewExpression _ sname =>
      let size := match structs g !! sname with
                  | Some lay => size lay
                  | None => 4
                  end in
      emits g ["    li a0, " ++ str size; "    jal sbrk"; "    mv t0, a0"]
  end.

(** The argument loop of [visit_invocation_expression] on its own. *)
Fixpoint visit_arguments (g : CodeGenVisitor) (i : Z) (args : list expression)
  : CodeGenVisitor :=
  match args with
  | [] => g
  | arg :: rest =>
      visit_arguments
        (emit (visit_expression g arg) ("    sw t0, " ++ str (i * 4) ++ "(sp)"))
        (i + 1) rest
  end.

(** *** L-values *)

Definition load_struct_pointer (g : CodeGenVisitor) (name : string) : CodeGenVisitor :=
  match locals g !! name with
  | Some offset => emit g ("    lw t0, " ++ str offset ++ "(fp)  # Load struct pointer")
  | None =>
      match globals g !! name with
      | Some label => emits g ["    la t1, " ++ label; "    lw t0, 0(t1)  # Load struct pointer"]
      | None => g
      end
  end.

Definition field_address (g : CodeGenVisitor) (lhs : lvalue) (field_name : string)
  : CodeGenVisitor :=
  let fallback := emit g ("    # Field " ++ field_name ++ " address (offset unknown)") in
  match lhs with
  | LValueID _ var_name =>
      match type_environment g !! var_name with
      | Some (StructType _ struct_type_name) =>
          match structs g !! struct_type_name with
          | Some lay =>
              match fields lay !! field_name with
              | Some offset =>
                  emit g ("    addi t0, t0, " ++ str offset
                          ++ "  # Add field offset for " ++ field_name)
              | None => fallback
              end
          | None => fallback
          end
      | _ => fallback
      end
  | _ => fallback
  end.

Fixpoint _generate_lvalue_address (g : CodeGenVisitor) (lval : lvalue) : CodeGenVisitor :=
  match lval with
  | LValueID _ name =>
      match locals g !! name with
      | Some offset => emit g ("    addi t0, fp, " ++ str offset)
      | None =>
          match globals g !! name with
          | Some label => emit g ("    la t0, " ++ label)
          | None => g
          end
      end
  | LValueDot _ lhs field_name =>
      let g := match lhs with
               | LValueID _ name => load_struct_pointer g name
               | LValueDot _ _ _ => _generate_lvalue_address g lhs
               end in
      field_address g lhs field_name
  end.

(** *** Statements *)

Definition epilogue (g : CodeGenVisitor) : list string :=
  (if (0 <? current_locals_size g)%Z
   then ["    addi sp, sp, " ++ str (current_locals_size g)] else [])
  ++ ["    lw fp, 0(sp)"; "    lw ra, 4(sp)"; "    addi sp, sp, 8"].

Definition in_main (g : CodeGenVisitor) : bool :=
  match current_function g with
  | Some f => String.eqb f "main"
  | None => false
  end.

Fixpoint visit_statement (g : CodeGenVisitor) (stmt : statement) {struct stmt}
  : CodeGenVisitor :=
  match stmt with
  | BlockStatement _ statements => fold_left visit_statement statements g
  | AssignmentStatement _ target source =>
      let g := visit_expression g source in
      let g := emit g "    mv t1, t0  # Save result" in
      let g := _generate_lvalue_address g target in
      emit g "    sw t1, 0(t0)"
  | PrintStatement _ e =>
      let g := visit_expression g e in
      emits g ["    mv a0, t0"; "    jal print_int"]
  | PrintLnStatement _ e =>
      let g := visit_expression g e in
      emits g ["    mv a0, t0"; "    jal print_int";
               "    li a0, '\n'"; "    jal print_char"]
  | ConditionalStatement _ guard then_block else_block =>
      let '(else_label, g) := Label g "else" in
      let '(end_label, g) := Label g "endif" in
      let g := visit_expression g guard in
      let g := emit g ("    beq t0, zero, " ++ else_label) in
      let g := visit_statement g then_block in
      let g := emit g ("    j " ++ end_label) in
      let g := emit g (else_label ++ ":") in
      let g := match else_block with
               | Some eb =>
                   match statements_of eb with
                   | [] => g
                   | _ :: _ => visit_statement g eb
                   end
               | None => g
               end in
      emit g (end_label ++ ":")
  | WhileStatement _ guard body =>
      let '(start_label, g) := Label g "while_start" in
      let '(end_label, g) := Label g "while_end" in
      let g := emit g (start_label ++ ":") in
      let g := visit_expression g guard in
      let g := emit g ("    beq t0, zero, " ++ end_label) in
      let g := visit_statement g body in
      let g := emit g ("    j " ++ start_label) in
      emit g (end_label ++ ":")
  | DeleteStatement _ e => visit_expression g e
  | ReturnStatement _ e =>
      let g := visit_expression g e in
      let g := emit g "    mv a0, t0" in
      let g := emits g (epilogue g) in
      if in_main g then emit g "    jal exit" else emit g "    jr ra"
  | ReturnEmptyStatement _ =>
      let g := emits g (epilogue g) in
      if in_main g then emits g ["    li a0, 0"; "    jal exit"]
      else emit g "    jr ra"
  | InvocationStatement _ e => visit_expression g e
  end.

(** *** Functions *)

Definition set_type_environment (g : CodeGenVisitor) (m : gmap string type_node)
  : CodeGenVisitor :=
  mkCodeGenVisitor (output g) (label_counter g) (structs g)
    (globals g) (locals g) (current_function g) (stack_offset g) (read g)
    m (current_locals_size g).

Definition set_globals (g : CodeGenVisitor) (m : gmap string string) : CodeGenVisitor :=
  mkCodeGenVisitor (output g) (label_counter g) (structs g)
    m (locals g) (current_function g) (stack_offset g) (read g)
    (type_environment g) (current_locals_size g).

Definition set_read (g : CodeGenVisitor) (b : bool) : CodeGenVisitor :=
  mkCodeGenVisitor (output g) (label_counter g) (structs g)
    (globals g) (locals g) (current_function g) (stack_offset g) b
    (type_environment g) (current_locals_size g).

(** The attributes [visit_function] resets or assigns as a group. *)
Definition set_frame (g : CodeGenVisitor) (fn : option string) (ls : gmap string Z)
    (total : Z) : CodeGenVisitor :=
  mkCodeGenVisitor (output g) (label_counter g) (structs g)
    (globals g) ls fn 0 (read g) (type_environment g) total.

Definition set_current_function (g : CodeGenVisitor) (fn : option string)
  : CodeGenVisitor :=
  mkCodeGenVisitor (output g) (label_counter g) (structs g)
    (globals g) (locals g) fn (stack_offset g) (read g)
    (type_environment g) (current_locals_size g).

Definition bind_type (env : gmap string type_node) (d : Declaration)
  : gmap string type_node :=
  <[decl_name d := decl_type d]> env.

(** [local_type_env]: parameters first, then locals. *)
Definition local_type_env (func : Function) : gmap string type_node :=
  fold_left bind_type (func_locals func) (fold_left bind_type (func_params func) ∅).

(** One iteration of either slot-assignment loop: the [locals]
    dictionary, [current_offset] and [total_locals_size]. *)
Definition alloc_slot (acc : gmap string Z * Z * Z) (d : Declaration)
  : gmap string Z * Z * Z :=
  let '(ls, current_offset, total_locals_size) := acc in
  let size := _type_size (decl_type d) in
  let current_offset := current_offset + size in
  (<[decl_name d := - current_offset]> ls, current_offset, total_locals_size + size).

Definition frame_layout (func : Function) : gmap string Z * Z * Z :=
  fold_left alloc_slot (func_locals func)
    (fold_left alloc_slot (func_params func) (∅, 0, 0)).

Definition save_param (g : CodeGenVisitor) (ip : nat * Declaration) : CodeGenVisitor :=
  let '(i, param) := ip in
  if (Z.of_nat i <? 8)%Z then
    match locals g !! decl_name param with
    | Some offset =>
        emit g ("    sw a" ++ str (Z.of_nat i) ++ ", " ++ str offset ++ "(fp)")
    | None => g
    end
  else g.

Definition enumerate {A} (l : list A) : list (nat * A) :=
  combine (seq 0 (length l)) l.

(** [visit_function] up to and including the spill of the parameter
    registers. *)
Definition function_entry (g : CodeGenVisitor) (func : Function) : CodeGenVisitor :=
  let fname := func_name func in
  let g := set_frame g (Some fname) ∅ (current_locals_size g) in
  let g := set_type_environment g (local_type_env func ∪ type_environment g) in
  let g := emit g (fname ++ ":") in
  let g := emits g ["    addi sp, sp, -8"; "    sw ra, 4(sp)"; "    sw fp, 0(sp)";
                    "    addi fp, sp, 0"] in
  let g := if String.eqb fname "main" && read g
           then emits g ["    # Save input filename"; "    lw t0, 4(a1)";
                         "    la t1, input_file_ptr"; "    sw t0, 0(t1)"]
           else g in
  let '(ls, _, total_locals_size) := frame_layout func in
  let g := set_frame g (Some fname) ls total_locals_size in
  let g := if (0 <? total_locals_size)%Z
           then emit g ("    addi sp, sp, -" ++ str total_locals_size) else g in
  fold_left save_param (enumerate (func_params func)) g.

Definition total_locals_size (func : Function) : Z := (frame_layout func).2.

Definition restore_frame (total : Z) : list string :=
  (if (0 <? total)%Z then ["    addi sp, sp, " ++ str total] else [])
  ++ ["    lw fp, 0(sp)"; "    lw ra, 4(sp)"; "    addi sp, sp, 8"].

(** The lines added after the body when it does not end in a return. *)
Definition implicit_return (fname : string) (total : Z) : list string :=
  if String.eqb fname "main"
  then ["    # Implicit return from main"] ++ restore_frame total
       ++ ["    li a0, 0"; "    jal exit"]
  else ["    # Implicit return"] ++ restore_frame total ++ ["    jr ra"].

(** [not func.body or not isinstance(func.body[-1], (ReturnStatement,
    ReturnEmptyStatement))] *)
Definition needs_implicit_return (body : list statement) : bool :=
  match last body with
  | None => true
  | Some s => negb (is_return s)
  end.

Definition visit_function (g : CodeGenVisitor) (func : Function) : CodeGenVisitor :=
  let fname := func_name func in
  let g := function_entry g func in
  let g := fold_left visit_statement (func_body func) g in
  let g := if needs_implicit_return (func_body func)
           then emits g (implicit_return fname (total_locals_size func)) else g in
  let g := emit g "" in
  let g := set_current_function g None in
  set_type_environment g (type_environment g ∖ local_type_env func).

(** *** Program *)

Fixpoint check_expr (expr : expression) : bool :=
  match expr with
  | ReadExpression _ => true
  | BinaryExpression _ _ lhs rhs => check_expr lhs || check_expr rhs
  | UnaryExpression _ _ operand => check_expr operand
  | DotExpression _ lhs _ => check_expr lhs
  | InvocationExpression _ _ arguments => existsb check_expr arguments
  | _ => false
  end.

Fixpoint check_stmt (stmt : statement) : bool :=
  match stmt with
  | AssignmentStatement _ _ source => check_expr source
  | BlockStatement _ statements => existsb check_stmt statements
  | ConditionalStatement _ guard then_block else_block =>
      check_expr guard || check_stmt then_block
      || match else_block with
         | Some eb => check_stmt eb
         | None => false
         end
  | WhileStatement _ guard body => check_expr guard || check_stmt body
  | PrintStatement _ e => check_expr e
  | PrintLnStatement _ e => check_expr e
  | ReturnStatement _ e => check_expr e
  | DeleteStatement _ e => check_expr e
  | InvocationStatement _ e => check_expr e
  | ReturnEmptyStatement _ => false
  end.

Definition _check_for_read (program : Program) : bool :=
  existsb (fun func => existsb check_stmt (func_body func)) (prog_functions program).

Definition declare_global_type (g : CodeGenVisitor) (decl : Declaration) : CodeGenVisitor :=
  set_type_environment g (bind_type (type_environment g) decl).

Definition emit_global (g : CodeGenVisitor) (decl : Declaration) : CodeGenVisitor :=
  let name := decl_name decl in
  let label := "global_" ++ name in
  let g := set_globals g (<[name := label]> (globals g)) in
  emit g (label ++ ": .space " ++ str (_type_size (decl_type decl))).

(** [visit_program] up to the first function. *)
Definition program_header (g : CodeGenVisitor) (program : Program) : CodeGenVisitor :=
  let g := fold_left _calculate_struct_layout (prog_types program) g in
  let g := fold_left declare_global_type (prog_declarations program) g in
  let g := emit g ".globl main" in
  let g := emit g ".import berkeley_utils.s" in
  let g := set_read g (_check_for_read program) in
  let g := if read g then emit g ".import read_int.s" else g in
  let g := emit g "" in
  let g := emit g ".data" in
  let g := if read g then emit g "input_file_ptr: .space 4" else g in
  let g := fold_left emit_global (prog_declarations program) g in
  emits g [""; ".text"; ""].

Definition visit_program (g : CodeGenVisitor) (program : Program) : CodeGenVisitor :=
  fold_left visit_function (prog_functions program) (program_header g program).

(** The lines a visit of [expr] adds to the output. *)
Definition expression_code (g : CodeGenVisitor) (expr : expression) : list string :=
  drop (length (output g)) (output (visit_expression g expr)).

(** What the driver does with a fresh visitor. *)
Definition generate (program : Program) : list string :=
  output (visit_program init program).

End CodeGen.

(** ** Semantic analyzer *)

Module Semantic.

(** The type tuples [("int",)], [("bool",)], [("void",)], [("null",)]
    and [("struct", name)]. *)
Inductive ty :=
| INT
| BOOL
| VOID
| NULL
| STRUCT (name : string).

#[global] Instance ty_eq_dec : EqDecision ty.
Proof. solve_decision. Defined.

Inductive SymbolTable :=
| mkSymbolTable (parent : option SymbolTable) (symbols : gmap string Declaration)
    (scope_name : string).

Definition parent (t : SymbolTable) : option SymbolTable :=
  let '(mkSymbolTable p _ _) := t in p.
Definition symbols (t : SymbolTable) : gmap string Declaration :=
  let '(mkSymbolTable _ s _) := t in s.
Definition scope_name (t : SymbolTable) : string :=
  let '(mkSymbolTable _ _ n) := t in n.

Fixpoint lookupTable (scope : SymbolTable) (name : string) : option Declaration :=
  match scope with
  | mkSymbolTable p syms _ =>
      match syms !! name with
      | Some d => Some d
      | None =>
          match p with
          | Some q => lookupTable q name
          | None => None
          end
      end
  end.

Definition lookup_local (t : SymbolTable) (name : string) : option Declaration :=
  symbols t !! name.

(** [current_scope] is either the analyzer's own global table (the same
    object as [self.globals]) or the table of the function being
    checked. *)
Inductive scope_ref :=
| GlobalScope
| FunctionScope (t : SymbolTable).

(** A diagnostic is what [Error] prints: the message and the line. *)
Definition diagnostic : Type := string * Z.

Record SemanticAnalyzer := mkSemanticAnalyzer {
  errors : Z;
  diagnostics : list diagnostic;
  globals : SymbolTable;
  functions : gmap string Function;
  structs : gmap string TypeDeclaration;
  function_scopes : gmap string SymbolTable;
  current_scope : scope_ref;
  current_function : option Function
}.

Definition init : SemanticAnalyzer :=
  mkSemanticAnalyzer 0 [] (mkSymbolTable None ∅ "Global") ∅ ∅ ∅ GlobalScope None.

Definition Error (a : SemanticAnalyzer) (message : string) (linenum : Z)
  : SemanticAnalyzer :=
  mkSemanticAnalyzer (errors a + 1) (diagnostics a ++ [(message, linenum)])
    (globals a) (functions a) (structs a) (function_scopes a)
    (current_scope a) (current_function a).

(** [SymbolTable.define] *)
Definition define (t : SymbolTable) (name : string) (value : Declaration)
    (linenum : Z) (a : SemanticAnalyzer) : SymbolTable * SemanticAnalyzer :=
  match symbols t !! name with
  | Some _ => (t, Error a ("Redeclaration of '" ++ name ++ "'") linenum)
  | None => (mkSymbolTable (parent t) (<[name := value]> (symbols t)) (scope_name t), a)
  end.

(** [Type] on a type node; a struct type resolves only when its name
    is registered. *)
Definition Type_ (a : SemanticAnalyzer) (node : type_node) : option ty :=
  match node with
  | IntType => Some INT
  | BoolType => Some BOOL
  | StructType _ sname =>
      match structs a !! sname with
      | Some _ => Some (STRUCT sname)
      | None => None
      end
  end.

(** [Type] on a return-type node. *)
Definition Type_ret (a : SemanticAnalyzer) (node : return_type) : option ty :=
  match node with
  | ReturnTypeVoid => Some VOID
  | ReturnTypeReal type_ => Type_ a type_
  end.

Definition _is_struct (t : ty) : bool :=
  match t with
  | STRUCT _ => true
  | _ => false
  end.

Definition _types_match (a b : option ty) : bool :=
  match a, b with
  | Some a, Some b =>
      if bool_decide (b = NULL) && _is_struct a then true else bool_decide (a = b)
  | _, _ => false
  end.

Definition lookup_current (a : SemanticAnalyzer) (name : string) : option Declaration :=
  match current_scope a with
  | GlobalScope => lookupTable (globals a) name
  | FunctionScope t => lookupTable t name
  end.

Definition mem (op : string) (ops : list string) : bool :=
  existsb (String.eqb op) ops.

(** The operator rules of [visit_binary_expression] once both operand
    types are known. *)
Definition binary_rule (a : SemanticAnalyzer) (op_val : string) (left_t right_t : ty)
    (linenum : Z) : option ty * SemanticAnalyzer :=
  if mem op_val ["*"; "/"; "+"; "-"] then
    (Some INT,
     if bool_decide (left_t ≠ INT) || bool_decide (right_t ≠ INT)
     then Error a "Arithmetic requires int operands" linenum else a)
  else if mem op_val ["<"; ">"; "<="; ">="] then
    (Some BOOL,
     if bool_decide (left_t ≠ INT) || bool_decide (right_t ≠ INT)
     then Error a "Comparison requires int operands" linenum else a)
  else if mem op_val ["=="; "!="] then
    (Some BOOL,
     if bool_decide (left_t = NULL) then
       if negb (_is_struct right_t)
       then Error a "Cannot compare null with non-struct" linenum else a
     else if bool_decide (right_t = NULL) then
       if negb (_is_struct left_t)
       then Error a "Cannot compare null with non-struct" linenum else a
     else if bool_decide (left_t ≠ right_t)
       then Error a "Equality requires matching types" linenum else a)
  else if mem op_val ["&&"; "||"] then
    (Some BOOL,
     if bool_decide (left_t ≠ BOOL) || bool_decide (right_t ≠ BOOL)
     then Error a "Boolean operators require boolean operands" linenum else a)
  else (None, a).

Definition unary_rule (a : SemanticAnalyzer) (op_val : string) (operand_t : ty)
    (linenum : Z) : option ty * SemanticAnalyzer :=
  if String.eqb op_val "!" then
    (Some BOOL, if bool_decide (operand_t ≠ BOOL)
                then Error a " requires boolean" linenum else a)
  else if String.eqb op_val "-" then
    (Some INT, if bool_decide (operand_t ≠ INT)
               then Error a "requires int" linenum else a)
  else (None, a).

(** The per-position check in [visit_invocation_expression], after the
    argument has been typed. *)
Definition check_argument (a : SemanticAnalyzer) (at_ pt : option ty) (linenum : Z)
  : SemanticAnalyzer :=
  match at_, pt with
  | Some at_, Some pt =>
      if bool_decide (at_ = NULL) && negb (_is_struct pt)
      then Error a "Cannot pass null to non-struct" linenum
      else if bool_decide (at_ ≠ pt) && bool_decide (at_ ≠ NULL)
      then Error a "Argument type mismatch" linenum
      else a
  | _, _ => a
  end.

(** The field search shared by both dot visitors. *)
Definition find_field (struct_decl : TypeDeclaration) (field_name : string)
  : option Declaration :=
  find (fun fld => String.eqb (decl_name fld) field_name) (tdecl_fields struct_decl).

(** [_expr_type]: the type the visitor returns, if any, and the
    analyzer afterwards. *)
Fixpoint _expr_type (a : SemanticAnalyzer) (expr : expression) {struct expr}
  : option ty * SemanticAnalyzer :=
  match expr with
  | IntegerExpression _ _ => (Some INT, a)
  | TrueExpression _ => (Some BOOL, a)
  | FalseExpression _ => (Some BOOL, a)
  | NullExpression _ => (Some NULL, a)
  | ReadExpression _ => (Some INT, a)
  | IdentifierExpression linenum name =>
      match lookup_current a name with
      | Some decl => (Type_ a (decl_type decl), a)
      | None => (None, Error a ("Undefined variable '" ++ name ++ "'") linenum)
      end
  | DotExpression linenum lhs field_name =>
      let '(left_t, a) := _expr_type a lhs in
      match left_t with
      | Some (STRUCT struct_name) =>
          match structs a !! struct_name with
          | None => (None, a)
          | Some struct_decl =>
              match find_field struct_decl field_name with
              | Some fld => (Type_ a (decl_type fld), a)
              | None =>
                  (None, Error a ("Struct " ++ struct_name ++ " has no field '"
                                  ++ field_name ++ "'") linenum)
              end
          end
      | Some _ => (None, Error a "Dot operator requires struct" linenum)
      | None => (None, a)
      end
  | NewExpression linenum sname =>
      match structs a !! sname with
      | None => (None, Error a ("Undefined struct '" ++ sname ++ "'") linenum)
      | Some _ => (Some (STRUCT sname), a)
      end
  | InvocationExpression linenum fname arguments =>
      match functions a !! fname with
      | None => (None, Error a ("Undefined function '" ++ fname ++ "'") linenum)
      | Some fn =>
          let expected := length (func_params fn) in
          let given := length arguments in
          let a := if bool_decide (expected ≠ given)
                   then Error a ("Wrong number of arguments to '" ++ fname ++ "'") linenum
                   else a in
          let a := (fix zip_loop (a : SemanticAnalyzer) (args : list expression)
                      (ps : list Declaration) {struct args} : SemanticAnalyzer :=
                      match args, ps with
                      | arg_expr :: args', param_decl :: ps' =>
                          let '(at_, a) := _expr_type a arg_expr in
                          let pt := Type_ a (decl_type param_decl) in
                          zip_loop (check_argument a at_ pt (expr_linenum arg_expr))
                                   args' ps'
                      | _, _ => a
                      end) a arguments (func_params fn) in
          (Type_ret a (func_ret_type fn), a)
      end
  | UnaryExpression linenum op operand =>
      let '(operand_t, a) := _expr_type a operand in
      match operand_t with
      | None => (None, a)
      | Some operand_t => unary_rule a op operand_t linenum
      end
  | BinaryExpression linenum op lhs rhs =>
      let '(left_t, a) := _expr_type a lhs in
      let '(right_t, a) := _expr_type a rhs in
      match left_t, right_t with
      | Some left_t, Some right_t => binary_rule a op left_t right_t linenum
      | _, _ => (None, a)
      end
  end.

(** The [zip] loop of [visit_invocation_expression] on its own. *)
Fixpoint check_arguments (a : SemanticAnalyzer) (args : list expression)
    (ps : list Declaration) : SemanticAnalyzer :=
  match args, ps with
  | arg_expr :: args', param_decl :: ps' =>
      let '(at_, a) := _expr_type a arg_expr in
      let pt := Type_ a (decl_type param_decl) in
      check_arguments (check_argument a at_ pt (expr_linenum arg_expr)) args' ps'
  | _, _ => a
  end.

(** [_lvalue_type].  [visit_lvalue_dot] reads its base with
    [getattr(lval, "lhs", None)]; the node keeps its base in [left] and
    has no [lhs], so the base is [None] and the visitor returns [None]
    without a diagnostic. *)
Definition _lvalue_type (a : SemanticAnalyzer) (lval : lvalue)
  : option ty * SemanticAnalyzer :=
  match lval with
  | LValueID linenum nm =>
      match lookup_current a nm with
      | Some decl => (Type_ a (decl_type decl), a)
      | None => (None, Error a ("Undefined variable '" ++ nm ++ "'") linenum)
      end
  | LValueDot _ _ _ => (None, a)
  end.

(** [if t and t != BOOL: Error(message)] and its relatives. *)
Definition require (a : SemanticAnalyzer) (t : option ty) (ok : ty → bool)
    (message : string) (linenum : Z) : SemanticAnalyzer :=
  match t with
  | Some t => if ok t then a else Error a message linenum
  | None => a
  end.

Definition declared_type (a : SemanticAnalyzer) : option (option ty) :=
  match current_function a with
  | Some f => Some (Type_ret a (func_ret_type f))
  | None => None
  end.

Fixpoint visit_statement (a : SemanticAnalyzer) (stmt : statement) {struct stmt}
  : SemanticAnalyzer :=
  match stmt with
  | BlockStatement _ statements => fold_left visit_statement statements a
  | AssignmentStatement linenum target source =>
      let '(lhs_t, a) := _lvalue_type a target in
      let '(rhs_t, a) := _expr_type a source in
      match lhs_t, rhs_t with
      | Some _, Some _ =>
          if _types_match lhs_t rhs_t then a
          else Error a "Type mismatch in assignment" linenum
      | _, _ => a
      end
  | ConditionalStatement linenum guard then_block else_block =>
      let '(cond_t, a) := _expr_type a guard in
      let a := require a cond_t (fun t => bool_decide (t = BOOL))
                 "Condition must be a boolean" linenum in
      let a := visit_statement a then_block in
      match else_block with
      | Some eb =>
          match statements_of eb with
          | [] => a
          | _ :: _ => visit_statement a eb
          end
      | None => a
      end
  | WhileStatement linenum guard body =>
      let '(cond_t, a) := _expr_type a guard in
      let a := require a cond_t (fun t => bool_decide (t = BOOL))
                 "Condition must be boolean" linenum in
      visit_statement a body
  | DeleteStatement linenum e =>
      let '(t, a) := _expr_type a e in
      require a t _is_struct "delete requires a struct" linenum
  | InvocationStatement _ e => (_expr_type a e).2
  | PrintLnStatement linenum e =>
      let '(t, a) := _expr_type a e in
      if bool_decide (t ≠ Some INT) then Error a "print requires int" linenum else a
  | PrintStatement linenum e =>
      let '(t, a) := _expr_type a e in
      if bool_decide (t ≠ Some INT) then Error a "print requires int" linenum else a
  | ReturnEmptyStatement linenum =>
      match declared_type a with
      | Some declared =>
          if bool_decide (declared ≠ Some VOID)
          then Error a "Non-void function must return value" linenum else a
      | None => a
      end
  | ReturnStatement linenum e =>
      match declared_type a with
      | None => a
      | Some declared =>
          let '(et, a) := _expr_type a e in
          if bool_decide (declared = Some VOID)
          then Error a " a Void function cannot return value" linenum
          else match et with
               | Some _ =>
                   if _types_match declared et then a
                   else Error a "Return type mismatch" linenum
               | None => a
               end
      end
  end.

(** *** Declarations *)

Definition set_structs (a : SemanticAnalyzer) (m : gmap string TypeDeclaration)
  : SemanticAnalyzer :=
  mkSemanticAnalyzer (errors a) (diagnostics a) (globals a) (functions a) m
    (function_scopes a) (current_scope a) (current_function a).

Definition set_globals (a : SemanticAnalyzer) (t : SymbolTable) : SemanticAnalyzer :=
  mkSemanticAnalyzer (errors a) (diagnostics a) t (functions a) (structs a)
    (function_scopes a) (current_scope a) (current_function a).

Definition set_functions (a : SemanticAnalyzer) (m : gmap string Function)
  : SemanticAnalyzer :=
  mkSemanticAnalyzer (errors a) (diagnostics a) (globals a) m (structs a)
    (function_scopes a) (current_scope a) (current_function a).

Definition set_scope (a : SemanticAnalyzer) (scopes : gmap string SymbolTable)
    (scope : scope_ref) (fn : option Function) : SemanticAnalyzer :=
  mkSemanticAnalyzer (errors a) (diagnostics a) (globals a) (functions a) (structs a)
    scopes scope fn.

(** [if t is None and isinstance(node, StructType): if <guard>:
    Error(message)], the check repeated for fields, parameters and
    locals; [guard] receives the struct name. *)
Definition undefined_struct_check (a : SemanticAnalyzer) (node : type_node)
    (guard : string → bool) (message : string → string) (linenum : Z)
  : SemanticAnalyzer :=
  match Type_ a node, node with
  | None, StructType _ sname =>
      if guard sname then Error a (message sname) linenum else a
  | _, _ => a
  end.

Definition not_registered (a : SemanticAnalyzer) (sname : string) : bool :=
  bool_decide (structs a !! sname = None).

(** The body of the loop over [tdecl.fields]. *)
Definition visit_field (struct_name : string) (acc : gset string * SemanticAnalyzer)
    (f : Declaration) : gset string * SemanticAnalyzer :=
  let '(seen, a) := acc in
  let fname := decl_name f in
  let '(seen, a) :=
    if bool_decide (fname ∈ seen)
    then (seen, Error a ("Duplicate field of name: '" ++ fname ++ "'") (decl_linenum f))
    else ({[fname]} ∪ seen, a) in
  let a := undefined_struct_check a (decl_type f)
             (fun sname => negb (String.eqb sname struct_name) && not_registered a sname)
             (fun sname => "Undefined struct of name: '" ++ sname ++ "'")
             (decl_linenum f) in
  (seen, a).

Definition visit_type_declaration (a : SemanticAnalyzer) (tdecl : TypeDeclaration)
  : SemanticAnalyzer :=
  (fold_left (visit_field (tdecl_name tdecl)) (tdecl_fields tdecl) (∅, a)).2.

(** The registration step that precedes [t.accept(self)]. *)
Definition register_struct (a : SemanticAnalyzer) (t : TypeDeclaration)
  : SemanticAnalyzer :=
  let name := tdecl_name t in
  match structs a !! name with
  | Some _ => Error a ("Duplicate struct '" ++ name ++ "'") (tdecl_linenum t)
  | None => set_structs a (<[name := t]> (structs a))
  end.

Definition visit_struct (a : SemanticAnalyzer) (t : TypeDeclaration) : SemanticAnalyzer :=
  visit_type_declaration (register_struct a t) t.

(** [visit_int_type], [visit_bool_type] and [visit_struct_type], reached
    through [decl.type.accept(self)]; only the diagnostic matters. *)
Definition visit_type (a : SemanticAnalyzer) (t : type_node) : SemanticAnalyzer :=
  match t with
  | StructType linenum sname =>
      if not_registered a sname
      then Error a ("Undefined struct of name'" ++ sname ++ "'") linenum else a
  | _ => a
  end.

Definition visit_global (a : SemanticAnalyzer) (decl : Declaration) : SemanticAnalyzer :=
  let dname := decl_name decl in
  let a := match lookup_local (globals a) dname with
           | Some _ => Error a ("Duplicate global '" ++ dname ++ "'") (decl_linenum decl)
           | None =>
               let '(t, a) := define (globals a) dname decl (decl_linenum decl) a in
               set_globals a t
           end in
  let a := undefined_struct_check a (decl_type decl) (fun _ => true)
             (fun sname => "Undefined struct '" ++ sname ++ "'") (decl_linenum decl) in
  visit_type a (decl_type decl).

Definition register_function (a : SemanticAnalyzer) (func : Function) : SemanticAnalyzer :=
  let fname := func_name func in
  match functions a !! fname with
  | Some _ => Error a ("Duplicate function '" ++ fname ++ "'") (func_linenum func)
  | None => set_functions a (<[fname := func]> (functions a))
  end.

(** *** Functions *)

Definition declare_param (acc : SymbolTable * SemanticAnalyzer) (p : Declaration)
  : SymbolTable * SemanticAnalyzer :=
  let '(func_scope, a) := acc in
  let pname := decl_name p in
  let '(func_scope, a) :=
    match lookup_local func_scope pname with
    | Some _ =>
        (func_scope,
         Error a ("Duplicate parameter of name: '" ++ pname ++ "'") (decl_linenum p))
    | None => define func_scope pname p (decl_linenum p) a
    end in
  (func_scope,
   undefined_struct_check a (decl_type p) (not_registered a)
     (fun sname => "Undefined struct of name'" ++ sname ++ "'") (decl_linenum p)).

Definition declare_local (acc : SymbolTable * SemanticAnalyzer) (l : Declaration)
  : SymbolTable * SemanticAnalyzer :=
  let '(func_scope, a) := acc in
  let lname := decl_name l in
  let '(func_scope, a) :=
    match lookup_local func_scope lname with
    | Some _ =>
        (func_scope,
         Error a ("Duplicate local of the name: '" ++ lname ++ "'") (decl_linenum l))
    | None => define func_scope lname l (decl_linenum l) a
    end in
  (func_scope,
   undefined_struct_check a (decl_type l) (not_registered a)
     (fun sname => "Undefined struct of name: '" ++ sname ++ "'") (decl_linenum l)).

(** The check on the last statement of the body that closes
    [visit_function]. *)
Definition return_check (a : SemanticAnalyzer) (func : Function) : SemanticAnalyzer :=
  let declared := Type_ret a (func_ret_type func) in
  match last (func_body func) with
  | Some (ReturnEmptyStatement linenum) =>
      if bool_decide (declared ≠ Some VOID)
      then Error a "Non-void function must return value" linenum else a
  | Some (ReturnStatement linenum e) =>
      let '(et, a) := _expr_type a e in
      match et with
      | Some _ =>
          if bool_decide (declared = Some VOID)
          then Error a "Void function cannot return value" linenum
          else if _types_match declared et then a
          else Error a "Return type mismatch" linenum
      | None => a
      end
  | Some _ =>
      if bool_decide (declared ≠ Some VOID)
      then Error a "Missing return statement" (func_linenum func) else a
  | None =>
      if bool_decide (declared ≠ Some VOID)
      then Error a "Missing return statement" (func_linenum func) else a
  end.

(** The function scope is one object shared by [current_scope] and
    [function_scopes]; nothing reads either while the two declaration
    loops fill it, so both are set once the loops are done. *)
Definition visit_function (a : SemanticAnalyzer) (func : Function) : SemanticAnalyzer :=
  let fname := func_name func in
  let prev_scope := current_scope a in
  let prev_function := current_function a in
  let func_scope := mkSymbolTable (Some (globals a)) ∅ (fname ++ "()") in
  let a := set_scope a (function_scopes a) (current_scope a) (Some func) in
  let '(func_scope, a) := fold_left declare_param (func_params func) (func_scope, a) in
  let '(func_scope, a) := fold_left declare_local (func_locals func) (func_scope, a) in
  let a := set_scope a (<[fname := func_scope]> (function_scopes a))
             (FunctionScope func_scope) (Some func) in
  let a := fold_left visit_statement (func_body func) a in
  let a := return_check a func in
  set_scope a (function_scopes a) prev_scope prev_function.

(** *** Program *)

Definition check_main (a : SemanticAnalyzer) : SemanticAnalyzer :=
  match functions a !! "main" with
  | None => Error a "Main() function id missing" 0
  | Some main_fn =>
      let a := if bool_decide (length (func_params main_fn) ≠ 0%nat)
               then Error a "main() function takes no arguments" (func_linenum main_fn)
               else a in
      if bool_decide (Type_ret a (func_ret_type main_fn) ≠ Some INT)
      then Error a "main() must return an int" (func_linenum main_fn) else a
  end.

Definition visit_program (a : SemanticAnalyzer) (program : Program) : SemanticAnalyzer :=
  let a := fold_left visit_struct (prog_types program) a in
  let a := fold_left visit_global (prog_declarations program) a in
  let a := fold_left register_function (prog_functions program) a in
  let a := fold_left visit_function (prog_functions program) a in
  check_main a.

Definition analyze (program : Program) : Z :=
  errors (visit_program init program).

(** The diagnostics a step adds to those already printed. *)
Definition new_diagnostics (before after : SemanticAnalyzer) : list diagnostic :=
  drop (length (diagnostics before)) (diagnostics after).

(** Two analyzers that differ at most in what has been reported. *)
Definition same_context (a a' : SemanticAnalyzer) : Prop :=
  globals a' = globals a ∧ functions a' = functions a ∧ structs a' = structs a
  ∧ function_scopes a' = function_scopes a ∧ current_scope a' = current_scope a
  ∧ current_function a' = current_function a.

(** One turn of the loop over [zip(arguments, params)], run from [a]:
    what typing the argument and checking it against its parameter
    report. *)
Definition position_diagnostics (a : SemanticAnalyzer) (arg : expression)
    (param : Declaration) : list diagnostic :=
  let '(at_, a1) := _expr_type a arg in
  new_diagnostics a
    (check_argument a1 at_ (Type_ a1 (decl_type param)) (expr_linenum arg)).

Definition is_missing_return (d : diagnostic) : Prop :=
  d.1 = "Missing return statement".

#[global] Instance is_missing_return_dec d : Decision (is_missing_return d).
Proof. unfold is_missing_return. apply _. Defined.

(** [reports a a']: [a'] is [a] after some more diagnostics, none of
    them a missing-return diagnostic. *)
Definition reports (a a' : SemanticAnalyzer) : Prop :=
  ∃ new, diagnostics a' = (diagnostics a ++ new)%list
         ∧ Forall (λ d, ¬ is_missing_return d) new.

End Semantic.

(** ** Stack-pointer accounting on emitted text

    The only instruction the generator emits that writes [sp] is
    [addi sp, sp, imm]; its effect is the immediate.  Calls are taken to
    preserve [sp], as the calling convention requires of the callee. *)

Fixpoint strip_prefix (p s : string) : option string :=
  match p, s with
  | EmptyString, _ => Some s
  | String a p', String b s' => if Ascii.eqb a b then strip_prefix p' s' else None
  | String _ _, EmptyString => None
  end.

Definition sp_delta (line : string) : Z :=
  match strip_prefix "    addi sp, sp, " line with
  | Some imm =>
      match NilZero.int_of_string imm with
      | Some d => Z.of_int d
      | None => 0
      end
  | None => 0
  end.

Definition sp_effect (lines : list string) : Z :=
  foldr (fun line acc => sp_delta line + acc) 0 lines.

(** ** Vocabulary for the import lines *)

Definition not_read_import (line : string) : Prop := line ≠ ".import read_int.s".

(** A read expression occurs in an expression: it is one, or one occurs
    in an operand, in the base of a field access or in an argument of a
    call.  This is the occurrence relation on the syntax, written
    without reference to the generator's scan. *)
Inductive occurs_read_expr : expression → Prop :=
| occurs_read l : occurs_read_expr (ReadExpression l)
| occurs_read_left l op lhs rhs :
    occurs_read_expr lhs → occurs_read_expr (BinaryExpression l op lhs rhs)
| occurs_read_right l op lhs rhs :
    occurs_read_expr rhs → occurs_read_expr (BinaryExpression l op lhs rhs)
| occurs_read_operand l op operand :
    occurs_read_expr operand → occurs_read_expr (UnaryExpression l op operand)
| occurs_read_base l lhs field_name :
    occurs_read_expr lhs → occurs_read_expr (DotExpression l lhs field_name)
| occurs_read_argument l fname arguments arg :
    In arg arguments → occurs_read_expr arg →
    occurs_read_expr (InvocationExpression l fname arguments).

(** A read expression occurs in a statement: in one of its expressions
    or in one of the statements it holds. *)
Inductive occurs_read_stmt : statement → Prop :=
| occurs_read_source l target source :
    occurs_read_expr source → occurs_read_stmt (AssignmentStatement l target source)
| occurs_read_member l statements s :
    In s statements → occurs_read_stmt s → occurs_read_stmt (BlockStatement l statements)
| occurs_read_if_guard l guard then_block else_block :
    occurs_read_expr guard →
    occurs_read_stmt (ConditionalStatement l guard then_block else_block)
| occurs_read_then l guard then_block else_block :
    occurs_read_stmt then_block →
    occurs_read_stmt (ConditionalStatement l guard then_block else_block)
| occurs_read_else l guard then_block eb :
    occurs_read_stmt eb →
    occurs_read_stmt (ConditionalStatement l guard then_block (Some eb))
| occurs_read_while_guard l guard body :
    occurs_read_expr guard → occurs_read_stmt (WhileStatement l guard body)
| occurs_read_body l guard body :
    occurs_read_stmt body → occurs_read_stmt (WhileStatement l guard body)
| occurs_read_print l e : occurs_read_expr e → occurs_read_stmt (PrintStatement l e)
| occurs_read_println l e : occurs_read_expr e → occurs_read_stmt (PrintLnStatement l e)
| occurs_read_return l e : occurs_read_expr e → occurs_read_stmt (ReturnStatement l e)
| occurs_read_delete l e : occurs_read_expr e → occurs_read_stmt (DeleteStatement l e)
| occurs_read_call l e : occurs_read_expr e → occurs_read_stmt (InvocationStatement l e).

(** The program uses the read construct: a read expression occurs in
    the body of one of its functions. *)
Definition program_uses_read (program : Program) : Prop :=
  ∃ func s, In func (prog_functions program) ∧ In s (func_body func)
            ∧ occurs_read_stmt s.

Fixpoint last_ascii (s : string) : option Ascii.ascii :=
  match s with
  | EmptyString => None
  | String a EmptyString => Some a
  | String _ s' => last_ascii s'
  end.

(** [grows g g']: [g'] is [g] with more lines, none of them the
    input-support import, and the same type environment. *)
Definition grows (g g' : CodeGen.CodeGenVisitor) : Prop :=
  CodeGen.type_environment g' = CodeGen.type_environment g
  ∧ ∃ l, CodeGen.output g' = (CodeGen.output g ++ l)%list
         ∧ Forall not_read_import l.

(** A visit of an expression only appends lines, and which lines does
    not depend on what has been emitted before. *)
Definition appends_only (e : expression) : Prop :=
  ∀ g, ∃ l, ∀ pre,
    CodeGen.visit_expression (CodeGen.emits g pre) e = CodeGen.emits g (pre ++ l)%list.

(** ** Sample programs *)

Definition node_decl : TypeDeclaration :=
  mkTypeDeclaration 1 "Node"
    [mkDeclaration 2 (StructType 2 "Node") "next";
     mkDeclaration 3 IntType "value";
     mkDeclaration 4 BoolType "seen"].

(** [struct A { struct B b; struct A self; }; struct B { int n; };] *)
Definition forward_field : Declaration := mkDeclaration 2 (StructType 2 "B") "b".
Definition self_field : Declaration := mkDeclaration 3 (StructType 3 "A") "self".
Definition struct_A : TypeDeclaration :=
  mkTypeDeclaration 1 "A" [forward_field; self_field].
Definition struct_B : TypeDeclaration :=
  mkTypeDeclaration 5 "B" [mkDeclaration 6 IntType "n"].

(** [fun pick(int a, int b) int { if (true) { return 1; } else { return 2; } }] *)
Definition pick : Function :=
  mkFunction 5 "pick" [mkDeclaration 5 IntType "a"; mkDeclaration 5 IntType "b"]
    (ReturnTypeReal IntType) []
    [ConditionalStatement 6 (TrueExpression 6)
       (BlockStatement 6 [ReturnStatement 6 (IntegerExpression 6 1)])
       (Some (BlockStatement 7 [ReturnStatement 7 (IntegerExpression 7 2)]))].

(** The analyzer once [pick] is registered. *)
Definition pick_registered : Semantic.SemanticAnalyzer :=
  Semantic.register_function Semantic.init pick.

(** [fun main() int { print x; return 0; }] with no [x] declared. *)
Definition print_undeclared : Program :=
  mkProgram [] []
    [mkFunction 1 "main" [] (ReturnTypeReal IntType) []
       [PrintStatement 2 (IdentifierExpression 2 "x");
        ReturnStatement 3 (IntegerExpression 3 0)]].

(** A struct-typed global [g], a function that takes a parameter named
    [g], and a [main] that reads [g.value]. *)
Definition helper : Function :=
  mkFunction 6 "helper" [mkDeclaration 6 (StructType 6 "Node") "g"] ReturnTypeVoid [] [].
Definition reader : Function :=
  mkFunction 8 "main" [] (ReturnTypeReal IntType) []
    [ReturnStatement 9 (DotExpression 9 (IdentifierExpression 9 "g") "value")].
Definition shadowing_program : Program :=
  mkProgram [node_decl] [mkDeclaration 5 (StructType 5 "Node") "g"] [helper; reader].

(** [int main() { return 0; }] *)
Definition minimal_program : Program :=
  mkProgram [] []
    [mkFunction 1 "main" [] (ReturnTypeReal IntType) []
       [ReturnStatement 2 (IntegerExpression 2 0)]].

(** ** Vocabulary for the analyzer's reports *)

(** The analyzer after [Error] has been called on each of [ds] in turn. *)
Definition Errors (a : Semantic.SemanticAnalyzer) (ds : list Semantic.diagnostic)
  : Semantic.SemanticAnalyzer :=
  fold_left (fun a d => Semantic.Error a d.1 d.2) ds a.

(** The analyzer [visit_function] has built when it reaches the body:
    parameters and locals declared, the function scope current. *)
Definition body_entry (a : Semantic.SemanticAnalyzer) (func : Function)
  : Semantic.SemanticAnalyzer :=
  let fname := func_name func in
  let func_scope := Semantic.mkSymbolTable (Some (Semantic.globals a)) ∅ (fname ++ "()") in
  let a := Semantic.set_scope a (Semantic.function_scopes a) (Semantic.current_scope a)
             (Some func) in
  let '(func_scope, a) :=
    fold_left Semantic.declare_param (func_params func) (func_scope, a) in
  let '(func_scope, a) :=
    fold_left Semantic.declare_local (func_locals func) (func_scope, a) in
  Semantic.set_scope a (<[fname := func_scope]> (Semantic.function_scopes a))
    (Semantic.FunctionScope func_scope) (Some func).

(** The first declaration in [ds] named [name]. *)
Definition first_named (name : string) (ds : list Declaration) : option Declaration :=
  find (fun d => String.eqb (decl_name d) name) ds.

(** The counter agrees with what has been printed. *)
Definition counted (a : Semantic.SemanticAnalyzer) : Prop :=
  Semantic.errors a = Z.of_nat (length (Semantic.diagnostics a)).

(** The first function in [fs] named [name], and the first struct
    declaration in [ts] named [name]. *)
Definition first_function (name : string) (fs : list Function) : option Function :=
  find (fun f => String.eqb (func_name f) name) fs.

Definition first_struct (name : string) (ts : list TypeDeclaration)
  : option TypeDeclaration :=
  find (fun t => String.eqb (tdecl_name t) name) ts.

(** ** Vocabulary for the generator's state, labels and frames *)

(** [g] with another output and label counter, every table as it is. *)
Definition with_output (g : CodeGen.CodeGenVisitor) (out : list string) (c : Z)
  : CodeGen.CodeGenVisitor :=
  CodeGen.mkCodeGenVisitor out c (CodeGen.structs g) (CodeGen.globals g)
    (CodeGen.locals g) (CodeGen.current_function g) (CodeGen.stack_offset g)
    (CodeGen.read g) (CodeGen.type_environment g) (CodeGen.current_locals_size g).

(** The lines a visit of [stmt] adds to the output. *)
Definition statement_code (g : CodeGen.CodeGenVisitor) (stmt : statement) : list string :=
  drop (length (CodeGen.output g)) (CodeGen.output (CodeGen.visit_statement g stmt)).

(** The lines [visit_function] emits before the body, and all of them. *)
Definition entry_code (g : CodeGen.CodeGenVisitor) (func : Function) : list string :=
  drop (length (CodeGen.output g)) (CodeGen.output (CodeGen.function_entry g func)).

Definition function_code (g : CodeGen.CodeGenVisitor) (func : Function) : list string :=
  drop (length (CodeGen.output g)) (CodeGen.output (CodeGen.visit_function g func)).

(** A line that refers to the slot holding the input file name. *)
Definition uses_input_slot (line : string) : Prop :=
  line = "    la t0, input_file_ptr" ∨ line = "    la t1, input_file_ptr".

(** A line that does not start with a space: in the code of a
    statement, the definition of a label. *)
Definition is_label_line (line : string) : bool :=
  match line with
  | EmptyString => false
  | String c _ => negb (Ascii.eqb c (Ascii.ascii_of_nat 32))
  end.

(** The tables in force while a body is generated: [g]'s, with the
    function current, its parameters and locals laid over the type
    environment, and its frame. *)
Definition body_tables (g : CodeGen.CodeGenVisitor) (func : Function)
  : CodeGen.CodeGenVisitor :=
  CodeGen.set_frame
    (CodeGen.set_type_environment g
       (CodeGen.local_type_env func ∪ CodeGen.type_environment g))
    (Some (func_name func)) (CodeGen.frame_layout func).1.1
    (CodeGen.total_locals_size func).

(** The spill of argument register [i] into the i-th frame slot. *)
Definition spill_line (i : nat) : string :=
  "    sw a" ++ str (Z.of_nat i) ++ ", " ++ str (- (4 * (Z.of_nat i + 1))) ++ "(fp)".

(** A line that starts with the marker the generator puts on its error
    comments. *)
Definition is_error_line (line : string) : bool :=
  match strip_prefix "    # ERROR: " line with
  | Some _ => true
  | None => false
  end.

Definition error_free (lines : list string) : Prop :=
  Forall (fun x => is_error_line x = false) lines.

(** A line that leaves [sp] alone, defines no label, does not refer to
    the input slot and is no error comment. *)
Definition plain_line (line : string) : Prop :=
  sp_delta line = 0 ∧ is_label_line line = false ∧ ¬ uses_input_slot line
  ∧ is_error_line line = false.

(** The conditionals and loops the generator visits in [stmt]: those
    for which it draws labels.  An else branch is visited only when it
    is a block with statements. *)
Fixpoint label_sites (stmt : statement) : nat :=
  match stmt with
  | BlockStatement _ statements => foldr (fun s n => label_sites s + n)%nat 0%nat statements
  | ConditionalStatement _ _ then_block else_block =>
      (1 + label_sites then_block
       + match else_block with
         | Some eb =>
             match statements_of eb with
             | [] => 0
             | _ :: _ => label_sites eb
             end
         | None => 0
         end)%nat
  | WhileStatement _ _ body => (1 + label_sites body)%nat
  | _ => 0%nat
  end.

Definition label_lines (lines : list string) : list string :=
  List.filter is_label_line lines.

(** Lines none of which defines a label. *)
Definition quiet (lines : list string) : Prop :=
  Forall (fun x => is_label_line x = false) lines.

(** The text of a label definition, from the prefix and counter value
    [Label] was given. *)
Definition label_definition (lab : string * Z) : string :=
  lab.1 ++ str lab.2 ++ ":".

(** [labels_in lo hi lines]: the label definitions among [lines] are,
    in some order, those of pairwise different counter values between
    [lo] and [hi]. *)
Definition labels_in (lo hi : Z) (lines : list string) : Prop :=
  ∃ labs : list (string * Z),
    label_lines lines ≡ₚ map label_definition labs
    ∧ Forall (fun lab => lab.1 ∈ ["else"; "endif"; "while_start"; "while_end"]
                         ∧ lo ≤ lab.2 < hi) labs
    ∧ NoDup (map snd labs).

(** Every global's label is [global_] followed by its name, as
    [visit_program] assigns them. *)
Definition labelled_globals (g : CodeGen.CodeGenVisitor) : Prop :=
  ∀ n l, CodeGen.globals g !! n = Some l → l = "global_" ++ n.

(** Lines none of which refers to the input slot. *)
Definition slot_free (lines : list string) : Prop :=
  Forall (fun x => ¬ uses_input_slot x) lines.

(** ** Vocabulary for the generator's error comments *)

(** [known_expr g e]: the generator, with the tables of [g], finds
    every variable read in [e] among its locals or globals and, for a
    field read through a variable, does not miss the field in a layout
    it finds. *)
Fixpoint known_expr (g : CodeGen.CodeGenVisitor) (e : expression) {struct e} : Prop :=
  match e with
  | IdentifierExpression _ x =>
      is_Some (CodeGen.locals g !! x) ∨ is_Some (CodeGen.globals g !! x)
  | DotExpression _ lhs field_name =>
      known_expr g lhs
      ∧ error_free (CodeGen.dot_load g (CodeGen._get_struct_type g lhs) field_name)
  | UnaryExpression _ _ operand => known_expr g operand
  | BinaryExpression _ _ lhs rhs => known_expr g lhs ∧ known_expr g rhs
  | InvocationExpression _ _ arguments =>
      (fix all (args : list expression) : Prop :=
         match args with
         | [] => True
         | arg :: rest => known_expr g arg ∧ all rest
         end) arguments
  | _ => True
  end.

(** The same for the expressions the generator visits in a statement. *)
Fixpoint known_stmt (g : CodeGen.CodeGenVisitor) (stmt : statement) {struct stmt} : Prop :=
  match stmt with
  | BlockStatement _ statements =>
      (fix all (ss : list statement) : Prop :=
         match ss with
         | [] => True
         | s :: rest => known_stmt g s ∧ all rest
         end) statements
  | AssignmentStatement _ _ source => known_expr g source
  | ConditionalStatement _ guard then_block else_block =>
      known_expr g guard ∧ known_stmt g then_block
      ∧ match else_block with
        | Some eb =>
            match statements_of eb with
            | [] => True
            | _ :: _ => known_stmt g eb
            end
        | None => True
        end
  | WhileStatement _ guard body => known_expr g guard ∧ known_stmt g body
  | DeleteStatement _ e => known_expr g e
  | InvocationStatement _ e => known_expr g e
  | PrintLnStatement _ e => known_expr g e
  | PrintStatement _ e => known_expr g e
  | ReturnStatement _ e => known_expr g e
  | ReturnEmptyStatement _ => True
  end.

(** [agree a g]: the generator's tables in [g] cover what the analyzer
    in [a] resolves.  A name the analyzer resolves is a local or a
    global of the generator; and where the generator has a struct type
    for a variable and a layout for that struct, the analyzer has the
    same struct name for the variable and a declaration of the struct
    all of whose fields are in the layout. *)
Definition agree (a : Semantic.SemanticAnalyzer) (g : CodeGen.CodeGenVisitor) : Prop :=
  (∀ x d, Semantic.lookup_current a x = Some d →
     is_Some (CodeGen.locals g !! x) ∨ is_Some (CodeGen.globals g !! x))
  ∧ (∀ x l sname lay d,
       CodeGen.type_environment g !! x = Some (StructType l sname) →
       CodeGen.structs g !! sname = Some lay →
       Semantic.lookup_current a x = Some d →
       ∃ l' td, decl_type d = StructType l' sname
                ∧ Semantic.structs a !! sname = Some td
                ∧ ∀ f fld, Semantic.find_field td f = Some fld →
                    is_Some (CodeGen.fields lay !! f)).

(** * Properties *)

Open Scope list_scope.

(** ** Layout calculator *)

Module LayoutFacts.
Import CodeGen.

Lemma _type_size_word (t : type_node) : _type_size t = 4.
Proof. by destruct t. Qed.

(** The loop started from any dictionary and offset: the offset
    advances by one word per field, each field of a duplicate-free list
    keeps the offset it was given, other keys are untouched. *)
Lemma layout_fold (fs : list Declaration) :
  ∀ (m : gmap string Z) (o : Z),
    NoDup (map decl_name fs) →
    ∃ m', fold_left layout_step fs (m, o) = (m', o + 4 * Z.of_nat (length fs))
      ∧ (∀ (i : nat) f, fs !! i = Some f → m' !! decl_name f = Some (o + 4 * Z.of_nat i))
      ∧ (∀ k, k ∉ map decl_name fs → m' !! k = m !! k).
Proof.
  induction fs as [|f fs IH]; intros m o Hnd.
  - exists m. cbn. split_and!.
    + f_equal. lia.
    + intros i f Hi. by rewrite lookup_nil in Hi.
    + done.
  - cbn [map] in Hnd. apply NoDup_cons in Hnd as [Hf Hnd].
    destruct (IH (<[decl_name f := o]> m) (o + _type_size (decl_type f)) Hnd)
      as (m' & Hfold & Hoff & Hother).
    exists m'. rewrite _type_size_word in *. split_and!.
    + cbn [fold_left layout_step]. rewrite _type_size_word, Hfold.
      f_equal. cbn [length]. lia.
    + intros [|i] g Hi; cbn in Hi.
      * injection Hi as <-. rewrite (Hother _ Hf), lookup_insert_eq.
        f_equal. lia.
      * rewrite (Hoff _ _ Hi). f_equal. lia.
    + intros k Hk. cbn [map] in Hk. apply not_elem_of_cons in Hk as [Hne Hk].
      rewrite (Hother _ Hk). by rewrite lookup_insert_ne.
Qed.

(** C1. For a struct declaration whose field names are distinct (the
    data-model invariant the analyzer enforces before generation), the
    layout table entry recorded by [_calculate_struct_layout] gives the
    i-th field, counted from 0 in declaration order, the offset 4*i:
    the first field is at 0 and each next field one 4-byte word further,
    whatever the field types are; the recorded size is 4*n for n
    fields. *)
Theorem struct_layout_sequential (g : CodeGenVisitor) (tdecl : TypeDeclaration) :
  NoDup (map decl_name (tdecl_fields tdecl)) →
  ∃ lay,
    structs (_calculate_struct_layout g tdecl) !! tdecl_name tdecl = Some lay
    ∧ (∀ (i : nat) f, tdecl_fields tdecl !! i = Some f →
         fields lay !! decl_name f = Some (4 * Z.of_nat i))
    ∧ (∀ (i : nat) f f', tdecl_fields tdecl !! i = Some f →
         tdecl_fields tdecl !! S i = Some f' →
         ∃ o, fields lay !! decl_name f = Some o
              ∧ fields lay !! decl_name f' = Some (o + 4))
    ∧ size lay = 4 * Z.of_nat (length (tdecl_fields tdecl)).
Proof.
  intros Hnd.
  destruct (layout_fold (tdecl_fields tdecl) ∅ 0 Hnd) as (m' & Hfold & Hoff & _).
  exists (struct_layout (tdecl_fields tdecl)).
  unfold _calculate_struct_layout, struct_layout. rewrite Hfold. cbn.
  split_and!.
  - by rewrite lookup_insert_eq.
  - intros i f Hi. by rewrite (Hoff _ _ Hi).
  - intros i f f' Hi Hi'. exists (4 * Z.of_nat i). split.
    + by rewrite (Hoff _ _ Hi).
    + rewrite (Hoff _ _ Hi'). f_equal. lia.
  - done.
Qed.

Lemma struct_layout_sequential_witness :
  ∃ lay,
    structs (_calculate_struct_layout init node_decl) !! "Node" = Some lay
    ∧ (∀ (i : nat) f, tdecl_fields node_decl !! i = Some f →
         fields lay !! decl_name f = Some (4 * Z.of_nat i))
    ∧ (∀ (i : nat) f f', tdecl_fields node_decl !! i = Some f →
         tdecl_fields node_decl !! S i = Some f' →
         ∃ o, fields lay !! decl_name f = Some o
              ∧ fields lay !! decl_name f' = Some (o + 4))
    ∧ size lay = 4 * Z.of_nat (length (tdecl_fields node_decl)).
Proof.
  apply (struct_layout_sequential init node_decl).
  apply (bool_decide_unpack _). reflexivity.
Defined.

End LayoutFacts.

(** ** Code generator: what a visit can change *)

Module CodeGenFacts.
Import CodeGen.

Lemma emits_app g l1 l2 : emits g (l1 ++ l2) = emits (emits g l1) l2.
Proof. apply fold_left_app. Qed.

Lemma emit_emits g x : emit g x = emits g [x].
Proof. reflexivity. Qed.

Lemma emits_nil g : emits g [] = g.
Proof. reflexivity. Qed.

Lemma output_emits g l : output (emits g l) = output g ++ l.
Proof.
  revert g. induction l as [|x l IH]; intros g; cbn.
  - by rewrite app_nil_r.
  - change (fold_left emit l (emit g x)) with (emits (emit g x) l).
    rewrite IH. cbn. by rewrite <- app_assoc.
Qed.

(** Emitting touches no attribute other than [output]. *)
Lemma emits_tables g l :
  label_counter (emits g l) = label_counter g
  ∧ structs (emits g l) = structs g
  ∧ globals (emits g l) = globals g
  ∧ locals (emits g l) = locals g
  ∧ current_function (emits g l) = current_function g
  ∧ read (emits g l) = read g
  ∧ type_environment (emits g l) = type_environment g
  ∧ current_locals_size (emits g l) = current_locals_size g.
Proof.
  revert g. induction l as [|x l IH]; intros g; [done|].
  change (emits g (x :: l)) with (emits (emit g x) l).
  destruct (IH (emit g x)) as (-> & -> & -> & -> & -> & -> & -> & ->). done.
Qed.

Lemma structs_emits g l : structs (emits g l) = structs g.
Proof. apply emits_tables. Qed.
Lemma globals_emits g l : globals (emits g l) = globals g.
Proof. apply emits_tables. Qed.
Lemma locals_emits g l : locals (emits g l) = locals g.
Proof. apply emits_tables. Qed.
Lemma type_environment_emits g l : type_environment (emits g l) = type_environment g.
Proof. apply emits_tables. Qed.

Lemma _get_struct_type_emits g l e :
  _get_struct_type (emits g l) e = _get_struct_type g e.
Proof. destruct e; cbn; try done. by rewrite type_environment_emits. Qed.

Lemma dot_load_emits g l o f : dot_load (emits g l) o f = dot_load g o f.
Proof. unfold dot_load. by rewrite structs_emits. Qed.

Ltac emits_norm :=
  repeat first
    [ rewrite emit_emits
    | rewrite <- emits_app
    | rewrite locals_emits
    | rewrite globals_emits
    | rewrite structs_emits
    | rewrite type_environment_emits
    | rewrite _get_struct_type_emits
    | rewrite dot_load_emits ].

(** The invocation visitor in terms of the argument loop. *)
Lemma visit_invocation_unfold g ln fname arguments :
  visit_expression g (InvocationExpression ln fname arguments) =
  let temp_stack_space := Z.of_nat (length arguments) * 4 in
  let g := if (0 <? temp_stack_space)%Z
           then emit g ("    addi sp, sp, -" +:+ str temp_stack_space) else g in
  let g := visit_arguments g 0 arguments in
  let g := emits g (arg_register_loads (length arguments)) in
  let g := if (0 <? temp_stack_space)%Z
           then emit g ("    addi sp, sp, " +:+ str temp_stack_space) else g in
  emits g ["    jal " +:+ fname; "    mv t0, a0"].
Proof. reflexivity. Qed.

Lemma visit_arguments_appends args :
  Forall appends_only args →
  ∀ g i, ∃ l, ∀ pre, visit_arguments (emits g pre) i args = emits g (pre ++ l).
Proof.
  induction 1 as [|e args He _ IH]; intros g i.
  - exists []. intros pre. cbn. by rewrite app_nil_r.
  - destruct (He g) as [l1 H1]. destruct (IH g (i + 1)) as [l2 H2].
    exists (l1 ++ ["    sw t0, " +:+ str (i * 4) +:+ "(sp)"] ++ l2). intros pre.
    cbn [visit_arguments]. rewrite H1. emits_norm. rewrite H2.
    f_equal. by rewrite <- !app_assoc.
Qed.

Lemma visit_expression_appends e : appends_only e.
Proof.
  induction e as [l v|l|l|l|l|l x|l e x IH|l op e IH|l op e1 e2 IH1 IH2|l f args IH|l x]
    using expression_nested_ind; intros g.
  - eexists. intros pre. cbn. by emits_norm.
  - eexists. intros pre. cbn. by emits_norm.
  - eexists. intros pre. cbn. by emits_norm.
  - eexists. intros pre. cbn. by emits_norm.
  - eexists. intros pre. cbn. by emits_norm.
  - destruct (locals g !! x) eqn:E1; [|destruct (globals g !! x) eqn:E2];
      eexists; intros pre; cbn; emits_norm; rewrite ?E1, ?E2; by emits_norm.
  - destruct (IH g) as [l1 H1].
    exists (l1 ++ ["    mv t2, t0  # Save struct pointer"]
            ++ dot_load g (_get_struct_type g e) x).
    intros pre. cbn [visit_expression]. rewrite H1. emits_norm.
    f_equal. by rewrite <- !app_assoc.
  - destruct (IH g) as [l1 H1]. exists (l1 ++ unary_op_code op). intros pre.
    cbn [visit_expression]. rewrite H1. emits_norm. by rewrite <- !app_assoc.
  - destruct (IH1 g) as [l1 H1]. destruct (IH2 g) as [l2 H2].
    exists (l1 ++ ["    addi sp, sp, -4"; "    sw t0, 0(sp)  # Push left"] ++ l2
            ++ ["    mv t1, t0"; "    lw t0, 0(sp)  # Pop left"; "    addi sp, sp, 4"]
            ++ binary_op_code op).
    intros pre. cbn [visit_expression]. rewrite H1. emits_norm. rewrite H2.
    emits_norm. f_equal. by rewrite <- !app_assoc.
  - destruct (visit_arguments_appends args IH g 0) as [l1 H1].
    set (t := Z.of_nat (length args) * 4).
    exists ((if (0 <? t)%Z then ["    addi sp, sp, -" +:+ str t] else []) ++ l1
            ++ arg_register_loads (length args)
            ++ (if (0 <? t)%Z then ["    addi sp, sp, " +:+ str t] else [])
            ++ ["    jal " +:+ f; "    mv t0, a0"]).
    intros pre. rewrite visit_invocation_unfold. cbv zeta. fold t.
    destruct (0 <? t)%Z; emits_norm; rewrite H1; emits_norm; f_equal;
      by rewrite <- ?app_assoc.
  - eexists. intros pre. cbn [visit_expression]. emits_norm. reflexivity.
Qed.

Lemma expression_code_intro g e l :
  visit_expression g e = emits g l → expression_code g e = l.
Proof.
  intros H. unfold expression_code. rewrite H, output_emits.
  by rewrite drop_app_length.
Qed.

(** Visiting an expression emits its code after whatever is there. *)
Lemma visit_expression_code g e pre :
  visit_expression (emits g pre) e = emits g (pre ++ expression_code g e).
Proof.
  destruct (visit_expression_appends e g) as [l H].
  rewrite (expression_code_intro g e l); [apply H|].
  specialize (H []). by rewrite emits_nil in H.
Qed.

Lemma visit_expression_code0 g e :
  visit_expression g e = emits g (expression_code g e).
Proof. apply (visit_expression_code g e []). Qed.

(** *** Code of each compound expression *)

Lemma code_unary g ln op e :
  expression_code g (UnaryExpression ln op e) = expression_code g e ++ unary_op_code op.
Proof.
  apply expression_code_intro. cbn [visit_expression].
  rewrite (visit_expression_code0 g e). by emits_norm.
Qed.

Lemma code_binary g ln op e1 e2 :
  expression_code g (BinaryExpression ln op e1 e2) =
  expression_code g e1
  ++ ["    addi sp, sp, -4"; "    sw t0, 0(sp)  # Push left"]
  ++ expression_code g e2
  ++ ["    mv t1, t0"; "    lw t0, 0(sp)  # Pop left"; "    addi sp, sp, 4"]
  ++ binary_op_code op.
Proof.
  apply expression_code_intro. cbn [visit_expression].
  rewrite (visit_expression_code0 g e1). emits_norm.
  rewrite visit_expression_code. emits_norm. by rewrite <- ?app_assoc.
Qed.

Lemma code_dot g ln e x :
  expression_code g (DotExpression ln e x) =
  expression_code g e ++ ["    mv t2, t0  # Save struct pointer"]
  ++ dot_load g (_get_struct_type g e) x.
Proof.
  apply expression_code_intro. cbn [visit_expression].
  rewrite (visit_expression_code0 g e). emits_norm. by rewrite <- ?app_assoc.
Qed.

(** The argument loop started at index [i]: the code of each argument
    in list order, each followed by the store into its buffer slot. *)
Lemma visit_arguments_code args :
  ∀ g i pre,
    visit_arguments (emits g pre) i args =
    emits g (pre ++ concat (imap (λ (k : nat) arg,
               expression_code g arg
               ++ ["    sw t0, " +:+ str ((i + Z.of_nat k) * 4) +:+ "(sp)"]) args)).
Proof.
  induction args as [|e args IH]; intros g i pre.
  - cbn. by rewrite app_nil_r.
  - cbn [visit_arguments]. rewrite visit_expression_code. emits_norm.
    rewrite IH. f_equal. rewrite imap_cons. cbn [concat].
    rewrite <- !app_assoc. cbn [Z.of_nat]. rewrite Z.add_0_r.
    erewrite (imap_ext _ (_ ∘ S) args); [reflexivity|].
    intros k arg _. cbn.
    by replace (i + Z.of_nat (S k)) with (i + 1 + Z.of_nat k) by lia.
Qed.

Lemma code_invocation g ln fname args :
  expression_code g (InvocationExpression ln fname args) =
  match args with
  | [] => []
  | _ :: _ => ["    addi sp, sp, -" +:+ str (Z.of_nat (length args) * 4)]
  end
  ++ concat (imap (λ (i : nat) arg,
       expression_code g arg
       ++ ["    sw t0, " +:+ str (Z.of_nat i * 4) +:+ "(sp)"]) args)
  ++ map (λ i : nat,
       "    lw a" +:+ str (Z.of_nat i) +:+ ", " +:+ str (Z.of_nat i * 4) +:+ "(sp)")
       (seq 0 (length args `min` 8))
  ++ match args with
     | [] => []
     | _ :: _ => ["    addi sp, sp, " +:+ str (Z.of_nat (length args) * 4)]
     end
  ++ ["    jal " +:+ fname; "    mv t0, a0"].
Proof.
  apply expression_code_intro. rewrite visit_invocation_unfold. cbv zeta.
  assert (Hpos : (0 <? Z.of_nat (length args) * 4)%Z
                 = match args with [] => false | _ => true end).
  { destruct args; [done|]. apply Z.ltb_lt. cbn [length]. lia. }
  rewrite Hpos. fold (arg_register_loads (length args)).
  destruct args as [|a args'].
  - cbn. reflexivity.
  - set (args := a :: args'). rewrite !(emit_emits g).
    rewrite (visit_arguments_code args g 0). emits_norm.
    by rewrite <- ?app_assoc.
Qed.

(** C7. The code of an invocation with n arguments is, in this order:
    the allocation of an n-word buffer (one [addi sp, sp, -4n], absent
    when n = 0), then for each argument from the first to the last its
    own code followed by the store of the accumulator into buffer slot
    i, then the loads of slots 0, 1, ... into [a0], [a1], ... (the
    registers [a0]-[a7]; min(n, 8) loads), then the release of the
    buffer, then [jal] to the callee, then the copy of [a0] into the
    accumulator [t0]. *)
Theorem invocation_sequence (g : CodeGenVisitor) (ln : Z) (fname : string)
    (args : list expression) :
  expression_code g (InvocationExpression ln fname args) =
  match args with
  | [] => []
  | _ :: _ => ["    addi sp, sp, -" +:+ str (Z.of_nat (length args) * 4)]
  end
  ++ concat (imap (λ (i : nat) arg,
       expression_code g arg
       ++ ["    sw t0, " +:+ str (Z.of_nat i * 4) +:+ "(sp)"]) args)
  ++ map (λ i : nat,
       "    lw a" +:+ str (Z.of_nat i) +:+ ", " +:+ str (Z.of_nat i * 4) +:+ "(sp)")
       (seq 0 (length args `min` 8))
  ++ match args with
     | [] => []
     | _ :: _ => ["    addi sp, sp, " +:+ str (Z.of_nat (length args) * 4)]
     end
  ++ ["    jal " +:+ fname; "    mv t0, a0"].
Proof. apply code_invocation. Qed.

(** *** Stack-pointer accounting *)

Lemma strip_prefix_app p s : strip_prefix p (p +:+ s) = Some s.
Proof.
  induction p as [|a p IH]; [done|].
  change (String a p +:+ s) with (String a (p +:+ s)). cbn.
  by rewrite Ascii.eqb_refl.
Qed.

Lemma str_parse z : NilZero.int_of_string (str z) = Some (Z.to_int z).
Proof.
  unfold str. apply NilZero.isi; destruct z; cbn; try discriminate.
  all: intros [= H]; by apply Unsigned.to_uint_nonnil in H.
Qed.

Lemma sp_delta_addi z : sp_delta ("    addi sp, sp, " +:+ str z) = z.
Proof.
  unfold sp_delta. rewrite strip_prefix_app, str_parse. apply DecimalZ.of_to.
Qed.

Lemma str_neg z : 0 < z → "-" +:+ str z = str (- z).
Proof. destruct z; try lia. intros _. reflexivity. Qed.

Lemma sp_delta_addi_neg z : 0 < z → sp_delta ("    addi sp, sp, -" +:+ str z) = - z.
Proof.
  intros Hz. rewrite <- (sp_delta_addi (- z)), <- (str_neg z Hz). reflexivity.
Qed.

Lemma sp_effect_app l1 l2 : sp_effect (l1 ++ l2) = sp_effect l1 + sp_effect l2.
Proof.
  unfold sp_effect. induction l1 as [|x l1 IH]; cbn; [done|]. rewrite IH. lia.
Qed.

Lemma sp_effect_neutral_lines l :
  Forall (λ line, sp_delta line = 0) l → sp_effect l = 0.
Proof.
  unfold sp_effect. induction 1 as [|x l Hx _ IH]; cbn; [done|]. rewrite Hx, IH. done.
Qed.

Lemma sp_effect_binary_op op : sp_effect (binary_op_code op) = 0.
Proof. unfold binary_op_code. repeat case_match; reflexivity. Qed.

Lemma sp_effect_unary_op op : sp_effect (unary_op_code op) = 0.
Proof. unfold unary_op_code. repeat case_match; reflexivity. Qed.

Lemma sp_effect_dot_load g o x : sp_effect (dot_load g o x) = 0.
Proof. unfold dot_load. repeat case_match; reflexivity. Qed.

Lemma sp_effect_register_loads n : sp_effect (arg_register_loads n) = 0.
Proof.
  apply sp_effect_neutral_lines. unfold arg_register_loads.
  apply Forall_map, Forall_forall. intros i _. reflexivity.
Qed.

Lemma sp_effect_arguments g args :
  Forall (λ e, sp_effect (expression_code g e) = 0) args →
  ∀ h : nat → Z,
    sp_effect (concat (imap (λ (i : nat) arg,
       expression_code g arg ++ ["    sw t0, " +:+ str (h i * 4) +:+ "(sp)"]) args)) = 0.
Proof.
  induction 1 as [|e args He _ IH]; intros h; [done|].
  rewrite imap_cons. cbn [concat]. rewrite !sp_effect_app, He.
  change (sp_effect ["    sw t0, " +:+ str (h 0%nat * 4) +:+ "(sp)"]) with 0.
  apply (IH (h ∘ S)).
Qed.

Ltac leaf_code :=
  unfold expression_code; cbn [visit_expression];
  rewrite ?emit_emits, output_emits, drop_app_length; reflexivity.

(** C9. The lines emitted for any expression add up to a stack-pointer
    change of zero.  In a binary expression the one-word push of the
    left operand ([addi sp, sp, -4]) is followed, after the code of the
    right operand and before the operator's instructions, by the
    one-word pop ([addi sp, sp, 4]): the lines before the operator's
    instructions already add up to zero.  In an invocation the code is
    the allocation of the argument buffer, the lines that fill it and
    load the argument registers, the release of the buffer, and only
    then [jal] and the copy of the result: the allocation lowers the
    stack pointer by the size of the buffer, the lines that fill it
    leave it alone, the release raises it by the same size, so the
    lines before [jal] add up to zero. *)
Theorem expression_sp_neutral (g : CodeGenVisitor) :
  (∀ e, sp_effect (expression_code g e) = 0)
  ∧ (∀ ln op e1 e2,
       let operands :=
         expression_code g e1
         ++ ["    addi sp, sp, -4"; "    sw t0, 0(sp)  # Push left"]
         ++ expression_code g e2
         ++ ["    mv t1, t0"; "    lw t0, 0(sp)  # Pop left"; "    addi sp, sp, 4"] in
       expression_code g (BinaryExpression ln op e1 e2) = operands ++ binary_op_code op
       ∧ sp_effect operands = 0)
  ∧ (∀ ln fname args,
       let buffer := Z.of_nat (length args) * 4 in
       let allocate :=
         match args with
         | [] => []
         | _ :: _ => ["    addi sp, sp, -" +:+ str buffer]
         end in
       let fill :=
         concat (imap (λ (i : nat) arg,
                   expression_code g arg
                   ++ ["    sw t0, " +:+ str (Z.of_nat i * 4) +:+ "(sp)"]) args)
         ++ map (λ i : nat,
              "    lw a" +:+ str (Z.of_nat i) +:+ ", " +:+ str (Z.of_nat i * 4) +:+ "(sp)")
              (seq 0 (length args `min` 8)) in
       let release :=
         match args with
         | [] => []
         | _ :: _ => ["    addi sp, sp, " +:+ str buffer]
         end in
       expression_code g (InvocationExpression ln fname args)
       = allocate ++ fill ++ release ++ ["    jal " +:+ fname; "    mv t0, a0"]
       ∧ sp_effect allocate = - buffer
       ∧ sp_effect fill = 0
       ∧ sp_effect release = buffer
       ∧ sp_effect (allocate ++ fill ++ release) = 0).
Proof.
  assert (∀ e, sp_effect (expression_code g e) = 0) as Hall; [|split_and!].
  2: exact Hall.
  2: { intros ln op e1 e2. cbv zeta. split.
       - rewrite code_binary. by rewrite <- !app_assoc.
       - rewrite !sp_effect_app, !Hall. reflexivity. }
  2: { intros ln fname args. cbv zeta.
       assert (sp_effect
                 (concat (imap (λ (i : nat) arg,
                            expression_code g arg
                            ++ ["    sw t0, " +:+ str (Z.of_nat i * 4) +:+ "(sp)"]) args)
                  ++ map (λ i : nat,
                       "    lw a" +:+ str (Z.of_nat i) +:+ ", "
                       +:+ str (Z.of_nat i * 4) +:+ "(sp)")
                       (seq 0 (length args `min` 8))) = 0) as Hfill.
       { rewrite sp_effect_app.
         rewrite (sp_effect_arguments g args
                    (proj2 (Forall_forall _ _) (λ e _, Hall e)) (λ i, Z.of_nat i)).
         fold (arg_register_loads (length args)).
         by rewrite sp_effect_register_loads. }
       split_and!.
       - rewrite code_invocation. by rewrite <- !app_assoc.
       - destruct args as [|a args']; [reflexivity|].
         unfold sp_effect. cbn [foldr]. rewrite sp_delta_addi_neg; [lia|].
         cbn [length]. lia.
       - exact Hfill.
       - destruct args as [|a args']; [reflexivity|].
         unfold sp_effect. cbn [foldr]. rewrite sp_delta_addi. lia.
       - rewrite !sp_effect_app. rewrite sp_effect_app in Hfill.
         destruct args as [|a args']; [reflexivity|].
         set (A := sp_effect (concat _)) in *. set (B := sp_effect (map _ _)) in *.
         unfold sp_effect. cbn [foldr].
         rewrite sp_delta_addi, sp_delta_addi_neg; [lia|]. cbn [length]. lia. }

  induction e as [l v|l|l|l|l|l x|l e x IH|l op e IH|l op e1 e2 IH1 IH2|l f args IH|l x]
    using expression_nested_ind.
  - leaf_code.
  - leaf_code.
  - leaf_code.
  - leaf_code.
  - leaf_code.
  - unfold expression_code. cbn [visit_expression].
    repeat case_match; rewrite ?emit_emits, output_emits, drop_app_length; reflexivity.
  - rewrite code_dot, !sp_effect_app, IH, sp_effect_dot_load. reflexivity.
  - rewrite code_unary, !sp_effect_app, IH, sp_effect_unary_op. reflexivity.
  - rewrite code_binary, !sp_effect_app, IH1, IH2, sp_effect_binary_op. reflexivity.
  - rewrite code_invocation, !sp_effect_app.
    rewrite (sp_effect_arguments g args IH (λ i, Z.of_nat i)).
    fold (arg_register_loads (length args)). rewrite sp_effect_register_loads.
    destruct args as [|a args']; [reflexivity|].
    set (t := Z.of_nat (length (a :: args')) * 4).
    assert (0 < t) by (unfold t; cbn [length]; lia).
    unfold sp_effect at 1 2. cbn [foldr].
    rewrite sp_delta_addi, sp_delta_addi_neg by done.
    change (sp_effect _) with 0. lia.
  - leaf_code.
Qed.

(** *** Functions *)

(** What [visit_function] appends after the body, with the amount it
    releases still written as the frame size it recorded. *)
Lemma implicit_return_lines (g : CodeGenVisitor) (func : Function) :
  let after_body := fold_left visit_statement (func_body func) (function_entry g func) in
  let total := total_locals_size func in
  let restore :=
    (if (0 <? total)%Z then ["    addi sp, sp, " +:+ str total] else [])
    ++ ["    lw fp, 0(sp)"; "    lw ra, 4(sp)"; "    addi sp, sp, 8"] in
  output (visit_function g func) =
  output after_body
  ++ match last (func_body func) with
     | Some (ReturnStatement _ _) | Some (ReturnEmptyStatement _) => []
     | _ =>
         if String.eqb (func_name func) "main"
         then ["    # Implicit return from main"] ++ restore
              ++ ["    li a0, 0"; "    jal exit"]
         else ["    # Implicit return"] ++ restore ++ ["    jr ra"]
     end
  ++ [""].
Proof.
  cbv zeta. unfold visit_function. cbn [output set_type_environment set_current_function].
  rewrite emit_emits.
  unfold needs_implicit_return, implicit_return, restore_frame.
  destruct (last (func_body func)) as [[]|]; cbn [is_return negb];
    rewrite ?output_emits; rewrite <- ?app_assoc; try reflexivity.
  all: destruct (String.eqb (func_name func) "main"); by rewrite <- ?app_assoc.
Qed.

(** *** Lines that are not the input-support import *)

Lemma last_ascii_colon s : last_ascii (s +:+ ":") = Some (Ascii.ascii_of_nat 58).
Proof.
  induction s as [|a s IH]; [done|].
  change (String a s +:+ ":") with (String a (s +:+ ":")).
  cbn [last_ascii]. rewrite IH. by destruct s.
Qed.

Lemma label_not_import s : not_read_import (s +:+ ":").
Proof.
  intros H. apply (f_equal last_ascii) in H. rewrite last_ascii_colon in H.
  discriminate H.
Qed.

Ltac line_ok :=
  first [ apply label_not_import | (let H := fresh in intros H; discriminate H) ].

Ltac lines_ok :=
  repeat case_match; repeat (apply Forall_cons; split; [line_ok|]); apply Forall_nil_2.

Lemma grows_refl g : grows g g.
Proof. split; [done|]. exists []. by rewrite app_nil_r. Qed.

Lemma grows_trans g1 g2 g3 : grows g1 g2 → grows g2 g3 → grows g1 g3.
Proof.
  intros [E1 (l1 & O1 & F1)] [E2 (l2 & O2 & F2)]. split; [congruence|].
  exists (l1 ++ l2). rewrite O2, O1, <- app_assoc. split; [done|].
  by apply Forall_app.
Qed.

Lemma grows_emits g0 g l : grows g0 g → Forall not_read_import l → grows g0 (emits g l).
Proof.
  intros H Hl. apply (grows_trans _ g); [done|]. split.
  - apply type_environment_emits.
  - exists l. by rewrite output_emits.
Qed.

Lemma grows_emit g0 g x : grows g0 g → not_read_import x → grows g0 (emit g x).
Proof. intros H Hx. rewrite emit_emits. apply grows_emits; [done|]. by apply Forall_singleton. Qed.

Lemma argument_lines g args :
  Forall (λ e, Forall not_read_import (expression_code g e)) args →
  ∀ h : nat → Z,
    Forall (Forall not_read_import)
      (imap (λ (i : nat) arg,
         expression_code g arg ++ ["    sw t0, " +:+ str (h i * 4) +:+ "(sp)"]) args).
Proof.
  induction 1 as [|e args He _ IH]; intros h; [done|].
  rewrite imap_cons. apply Forall_cons; split.
  - apply Forall_app; split; [done|lines_ok].
  - apply (IH (h ∘ S)).
Qed.

Lemma expression_lines g e : Forall not_read_import (expression_code g e).
Proof.
  induction e as [l v|l|l|l|l|l x|l e x IH|l op e IH|l op e1 e2 IH1 IH2|l f args IH|l x]
    using expression_nested_ind.
  1-5, 11: unfold expression_code; cbn [visit_expression];
    rewrite ?emit_emits, output_emits, drop_app_length; lines_ok.
  - unfold expression_code. cbn [visit_expression].
    repeat case_match; rewrite ?emit_emits, output_emits, drop_app_length; lines_ok.
  - rewrite code_dot. repeat (apply Forall_app; split); [done|lines_ok|].
    unfold dot_load. lines_ok.
  - rewrite code_unary. apply Forall_app; split; [done|]. unfold unary_op_code. lines_ok.
  - rewrite code_binary. repeat (apply Forall_app; split); [done|lines_ok|done|lines_ok|].
    unfold binary_op_code. lines_ok.
  - rewrite code_invocation. repeat (apply Forall_app; split).
    + lines_ok.
    + apply Forall_concat. apply (argument_lines g args IH (λ i, Z.of_nat i)).
    + apply Forall_map, Forall_forall. intros i _. line_ok.
    + lines_ok.
    + lines_ok.
Qed.

Lemma grows_expression g0 g e : grows g0 g → grows g0 (visit_expression g e).
Proof.
  intros H. rewrite visit_expression_code0. apply grows_emits; [done|].
  apply expression_lines.
Qed.

Lemma grows_lvalue g0 g lv : grows g0 g → grows g0 (_generate_lvalue_address g lv).
Proof.
  revert g. induction lv as [l x|l lv IH x]; intros g H; cbn [_generate_lvalue_address].
  - repeat case_match; try done; apply grows_emit; try done; line_ok.
  - unfold field_address.
    assert (grows g0 match lv with
                     | LValueID _ name => load_struct_pointer g name
                     | LValueDot _ _ _ => _generate_lvalue_address g lv
                     end) as H'.
    { destruct lv; [|by apply IH]. unfold load_struct_pointer.
      repeat case_match; try done.
      - apply grows_emit; [done|line_ok].
      - apply grows_emits; [done|lines_ok]. }
    repeat case_match; apply grows_emit; try done; line_ok.
Qed.

Lemma grows_Label g0 g p : grows g0 g → grows g0 (Label g p).2.
Proof. intros H. apply (grows_trans _ g); [done|]. split; [done|]. exists []. by rewrite app_nil_r. Qed.

Lemma grows_fold (ss : list statement) :
  Forall (λ s, ∀ g0 g, grows g0 g → grows g0 (visit_statement g s)) ss →
  ∀ g0 g, grows g0 g → grows g0 (fold_left visit_statement ss g).
Proof.
  induction 1 as [|s ss Hs _ IH]; intros g0 g H; cbn [fold_left]; [done|].
  apply IH. by apply Hs.
Qed.

Lemma grows_statement s : ∀ g0 g, grows g0 g → grows g0 (visit_statement g s).
Proof.
  induction s as [l ss IH|l t e|l e s1 s2 IH1 IH2|l e s IH|l e|l e|l e|l e|l e|l]
    using statement_nested_ind; intros g0 g H; cbn [visit_statement].
  - by apply grows_fold.
  - apply grows_emit; [|line_ok]. apply grows_lvalue.
    apply grows_emit; [|line_ok]. by apply grows_expression.
  - apply grows_emit; [|line_ok].
    assert (∀ g, grows g0 g →
              grows g0 match s2 with
                       | Some eb => match statements_of eb with
                                    | [] => g
                                    | _ :: _ => visit_statement g eb
                                    end
                       | None => g
                       end) as Helse.
    { intros g' H'. destruct s2 as [eb|]; [|done]. cbn in IH2.
      destruct (statements_of eb); [done|]. by apply IH2. }
    apply Helse. apply grows_emit; [|line_ok]. apply grows_emit; [|line_ok].
    apply IH1. apply grows_emit; [|line_ok]. apply grows_expression.
    apply (grows_Label _ _ "endif"). by apply (grows_Label _ _ "else").
  - apply grows_emit; [|line_ok]. apply grows_emit; [|line_ok]. apply IH.
    apply grows_emit; [|line_ok]. apply grows_expression.
    apply grows_emit; [|line_ok].
    apply (grows_Label _ _ "while_end"). by apply (grows_Label _ _ "while_start").
  - by apply grows_expression.
  - by apply grows_expression.
  - apply grows_emits; [|lines_ok]. by apply grows_expression.
  - apply grows_emits; [|lines_ok]. by apply grows_expression.
  - assert (grows g0 (emit (visit_expression g e) "    mv a0, t0")) as H1.
    { apply grows_emit; [|line_ok]. by apply grows_expression. }
    case_match; apply grows_emit; try line_ok;
      (apply grows_emits; [done|unfold epilogue; lines_ok]).
  - case_match; [apply grows_emits|apply grows_emit]; try line_ok; try lines_ok;
      (apply grows_emits; [done|unfold epilogue; lines_ok]).
Qed.

Lemma grows_set_frame g0 g fn ls total : grows g0 g → grows g0 (set_frame g fn ls total).
Proof. done. Qed.

Lemma grows_save_params (ps : list (nat * Declaration)) :
  ∀ g0 g, grows g0 g → grows g0 (fold_left save_param ps g).
Proof.
  induction ps as [|[i p] ps IH]; intros g0 g H; cbn [fold_left]; [done|].
  apply IH. unfold save_param. repeat case_match; try done.
  apply grows_emit; [done|line_ok].
Qed.

(** On entry to a body the type environment is the one before the
    function overlaid with the function's parameters and locals. *)
Lemma function_entry_spec g func :
  type_environment (function_entry g func) = local_type_env func ∪ type_environment g
  ∧ ∃ l, output (function_entry g func) = output g ++ l ∧ Forall not_read_import l.
Proof.
  set (g1 := set_type_environment
               (set_frame g (Some (func_name func)) ∅ (current_locals_size g))
               (local_type_env func ∪ type_environment g)).
  assert (grows g1 (function_entry g func)) as [E O]; [|by split].
  unfold function_entry. fold g1. destruct (frame_layout func) as [[ls co] total].
  apply grows_save_params.
  assert (∀ b x g', grows g1 g' → not_read_import x →
            grows g1 (if b : bool then emit g' x else g')) as Hif.
  { intros [] x g' H' Hx; [by apply grows_emit|done]. }
  apply Hif; [|line_ok]. apply grows_set_frame.
  assert (∀ b l g', grows g1 g' → Forall not_read_import l →
            grows g1 (if b : bool then emits g' l else g')) as Hifs.
  { intros [] l g' H' Hl; [by apply grows_emits|done]. }
  apply Hifs; [|lines_ok]. apply grows_emits; [|lines_ok].
  apply grows_emit; [apply grows_refl|line_ok].
Qed.

Lemma visit_function_spec g func :
  type_environment (visit_function g func)
  = (local_type_env func ∪ type_environment g) ∖ local_type_env func
  ∧ ∃ l, output (visit_function g func) = output g ++ l ∧ Forall not_read_import l.
Proof.
  destruct (function_entry_spec g func) as [E (l0 & O & F)].
  assert (grows (function_entry g func)
            (emit (if needs_implicit_return (func_body func)
                   then emits (fold_left visit_statement (func_body func)
                                 (function_entry g func))
                          (implicit_return (func_name func) (total_locals_size func))
                   else fold_left visit_statement (func_body func)
                          (function_entry g func)) "")) as [E' (l1 & O' & F')].
  { apply grows_emit; [|line_ok].
    assert (grows (function_entry g func)
              (fold_left visit_statement (func_body func) (function_entry g func))) as Hb.
    { apply grows_fold; [|apply grows_refl].
      apply Forall_forall. intros s _. apply grows_statement. }
    case_match; [|done]. apply grows_emits; [done|].
    unfold implicit_return, restore_frame. lines_ok. }
  unfold visit_function.
  cbn [type_environment output set_type_environment set_current_function].
  rewrite E', E, O', O. split; [done|].
  exists (l0 ++ l1). rewrite <- app_assoc. split; [done|]. by apply Forall_app.
Qed.

Lemma local_type_env_dom func name :
  local_type_env func !! name = None
  ↔ name ∉ map decl_name (func_params func ++ func_locals func).
Proof.
  unfold local_type_env. rewrite <- fold_left_app.
  generalize (func_params func ++ func_locals func) as ds.
  assert (∀ ds (m : gmap string type_node),
            fold_left bind_type ds m !! name = None
            ↔ m !! name = None ∧ name ∉ map decl_name ds) as Hgen.
  { induction ds as [|d ds IH]; intros m; cbn [fold_left map].
    - set_solver.
    - rewrite IH. unfold bind_type. rewrite not_elem_of_cons, lookup_insert_None.
      naive_solver. }
  intros ds. rewrite Hgen, lookup_empty. naive_solver.
Qed.

(** A name absent from the type environment stays absent across any
    function, and a name the function declares is absent afterwards. *)
Lemma visit_function_forgets g func name :
  type_environment g !! name = None
  ∨ name ∈ map decl_name (func_params func ++ func_locals func) →
  type_environment (visit_function g func) !! name = None.
Proof.
  intros H. destruct (visit_function_spec g func) as [-> _].
  apply lookup_difference_None.
  destruct (local_type_env func !! name) as [t|] eqn:E; [right; eauto|left].
  apply lookup_union_None. split; [done|].
  destruct H as [H|H]; [done|]. by apply local_type_env_dom in E.
Qed.

Lemma visit_functions_forget fs :
  ∀ g name, type_environment g !! name = None →
    type_environment (fold_left visit_function fs g) !! name = None.
Proof.
  induction fs as [|f fs IH]; intros g name H; cbn [fold_left]; [done|].
  apply IH. apply visit_function_forgets. by left.
Qed.

(** C10. Once the generator has finished a function that declares
    [name] as a parameter or local, [name] is absent from its type
    environment, whatever was recorded for it before (a global's entry
    is not restored).  It is still absent throughout the body of any
    later function that does not itself declare [name], so there a
    field access with base [name] loads at offset 0 through the
    unknown-struct-type fallback, whatever the layout table holds. *)
Theorem shadowed_global_forgotten (g0 : CodeGenVisitor) (f1 f2 : Function)
    (between : list Function) (name : string) :
  name ∈ map decl_name (func_params f1 ++ func_locals f1) →
  name ∉ map decl_name (func_params f2 ++ func_locals f2) →
  let g1 := visit_function g0 f1 in
  let g2 := function_entry (fold_left visit_function between g1) f2 in
  type_environment g1 !! name = None
  ∧ (∀ stmts, type_environment (fold_left visit_statement stmts g2) !! name = None)
  ∧ (∀ g ln ln' field_name,
       type_environment g = type_environment g2 →
       expression_code g (DotExpression ln (IdentifierExpression ln' name) field_name) =
       expression_code g (IdentifierExpression ln' name)
       ++ ["    mv t2, t0  # Save struct pointer";
           "    lw t0, 0(t2)  # Load field " +:+ field_name +:+ " (unknown struct type)"]).
Proof.
  intros Hin Hnot g1 g2.
  assert (type_environment g1 !! name = None) as H1.
  { apply visit_function_forgets. by right. }
  assert (type_environment g2 !! name = None) as H2.
  { unfold g2. destruct (function_entry_spec (fold_left visit_function between g1) f2)
      as [-> _].
    apply lookup_union_None. split; [by apply local_type_env_dom|].
    by apply visit_functions_forget. }
  split_and!; [done| |].
  - intros stmts.
    assert (grows g2 (fold_left visit_statement stmts g2)) as [-> _]; [|done].
    apply grows_fold; [|apply grows_refl].
    apply Forall_forall. intros s _. apply grows_statement.
  - intros g ln ln' field_name Hg. rewrite code_dot.
    unfold _get_struct_type, dot_load. by rewrite Hg, H2.
Qed.

Lemma shadowed_global_forgotten_witness :
  let g0 := program_header init shadowing_program in
  let g1 := visit_function g0 helper in
  let g2 := function_entry g1 reader in
  type_environment g0 !! "g" = Some (StructType 5 "Node")
  ∧ type_environment g1 !! "g" = None
  ∧ expression_code g2 (DotExpression 9 (IdentifierExpression 9 "g") "value")
    = expression_code g2 (IdentifierExpression 9 "g")
      ++ ["    mv t2, t0  # Save struct pointer";
          "    lw t0, 0(t2)  # Load field value (unknown struct type)"].
Proof.
  intros g0 g1 g2.
  destruct (shadowed_global_forgotten g0 helper reader [] "g") as (H1 & _ & H3).
  - apply (bool_decide_unpack _). reflexivity.
  - apply (bool_decide_unpack _). reflexivity.
  - split_and!; [reflexivity|exact H1|]. by apply (H3 g2 9 9 "value").
Defined.

(** *** Program header *)

Lemma output_layouts ts : ∀ g, output (fold_left _calculate_struct_layout ts g) = output g.
Proof. induction ts as [|t ts IH]; intros g; cbn [fold_left]; [done|]. by rewrite IH. Qed.

Lemma output_global_types ds : ∀ g, output (fold_left declare_global_type ds g) = output g.
Proof. induction ds as [|d ds IH]; intros g; cbn [fold_left]; [done|]. by rewrite IH. Qed.

Lemma output_globals ds :
  ∀ g, ∃ l, output (fold_left emit_global ds g) = output g ++ l
            ∧ Forall not_read_import l.
Proof.
  induction ds as [|d ds IH]; intros g; cbn [fold_left].
  - exists []. by rewrite app_nil_r.
  - destruct (IH (emit_global g d)) as (l & -> & F).
    eexists (_ :: l). cbn [emit_global output emit set_globals].
    rewrite <- app_assoc. split; [reflexivity|].
    apply Forall_cons; split; [line_ok|done].
Qed.

(** The header: the two fixed lines, the input-support import exactly
    when the scan found a read expression, and then lines none of which
    is that import. *)
Lemma program_header_lines g program :
  ∃ l, output (program_header g program) =
         output g ++ [".globl main"; ".import berkeley_utils.s"]
         ++ (if _check_for_read program then [".import read_int.s"] else [])
         ++ l
       ∧ Forall not_read_import l.
Proof.
  unfold program_header.
  set (ga := fold_left declare_global_type (prog_declarations program)
               (fold_left _calculate_struct_layout (prog_types program) g)).
  assert (output ga = output g) as Hga.
  { unfold ga. by rewrite output_global_types, output_layouts. }
  destruct (_check_for_read program); cbn [read set_read emit].
  - match goal with |- context [fold_left emit_global ?ds ?gx] =>
      destruct (output_globals ds gx) as (l & O & F) end.
    exists (["" ; ".data"; "input_file_ptr: .space 4"] ++ l ++ [""; ".text"; ""]).
    rewrite output_emits, O. cbn [output emit set_read]. rewrite Hga.
    split; [by rewrite <- ?app_assoc|].
    repeat (apply Forall_app; split); [lines_ok|done|lines_ok].
  - match goal with |- context [fold_left emit_global ?ds ?gx] =>
      destruct (output_globals ds gx) as (l & O & F) end.
    exists (["" ; ".data"] ++ l ++ [""; ".text"; ""]).
    rewrite output_emits, O. cbn [output emit set_read]. rewrite Hga.
    split; [by rewrite <- ?app_assoc|].
    repeat (apply Forall_app; split); [lines_ok|done|lines_ok].
Qed.

Lemma visit_functions_lines fs :
  ∀ g, ∃ l, output (fold_left visit_function fs g) = output g ++ l
            ∧ Forall not_read_import l.
Proof.
  induction fs as [|f fs IH]; intros g; cbn [fold_left].
  - exists []. by rewrite app_nil_r.
  - destruct (IH (visit_function g f)) as (l2 & -> & F2).
    destruct (visit_function_spec g f) as [_ (l1 & -> & F1)].
    exists (l1 ++ l2). rewrite <- app_assoc. split; [done|]. by apply Forall_app.
Qed.

(** The import lines in terms of the generator's scan. *)
Lemma imports_follow_scan (program : Program) :
  In ".import berkeley_utils.s" (generate program)
  ∧ (In ".import read_int.s" (generate program) ↔ _check_for_read program = true).
Proof.
  unfold generate, visit_program.
  destruct (visit_functions_lines (prog_functions program) (program_header init program))
    as (l2 & -> & F2).
  destruct (program_header_lines init program) as (l1 & -> & F1).
  cbn [output init app]. split.
  - right. by left.
  - rewrite <- !list_elem_of_In. split.
    + intros H. destruct (_check_for_read program); [done|]. exfalso.
      cbn [app] in H. rewrite !elem_of_cons, elem_of_app in H.
      destruct H as [H|[H|[H|H]]]; try discriminate H.
      * by apply (proj1 (Forall_forall _ _) F1 _ H).
      * by apply (proj1 (Forall_forall _ _) F2 _ H).
    + intros ->. cbn [app]. rewrite !elem_of_cons. auto.
Qed.

(** The scan of an expression finds a read expression exactly when one
    occurs in it. *)
Lemma check_expr_occurs e : check_expr e = true ↔ occurs_read_expr e.
Proof.
  induction e as [l v|l|l|l|l|l x|l e x IH|l op e IH|l op e1 e2 IH1 IH2|l f args IH|l x]
    using expression_nested_ind; cbn [check_expr].
  1-4, 6, 11: split; [discriminate|inversion 1].
  - split; [intros _; constructor|done].
  - rewrite IH. split; [by constructor|by inversion 1].
  - rewrite IH. split; [by constructor|by inversion 1].
  - rewrite orb_true_iff, IH1, IH2. split.
    + intros [H|H]; [by apply occurs_read_left|by apply occurs_read_right].
    + inversion 1; auto.
  - rewrite existsb_exists. split.
    + intros (arg & Hin & Harg). apply (occurs_read_argument l f args arg Hin).
      apply list_elem_of_In in Hin.
      by apply (proj1 (Forall_forall _ _) IH arg Hin).
    + inversion 1 as [| | | | |l' f' args' arg Hin Harg]; subst.
      exists arg. split; [done|]. apply list_elem_of_In in Hin.
      by apply (proj1 (Forall_forall _ _) IH arg Hin).
Qed.

(** The same for a statement. *)
Lemma check_stmt_occurs s : check_stmt s = true ↔ occurs_read_stmt s.
Proof.
  induction s as [l ss IH|l t e|l e s1 s2 IH1 IH2|l e s IH|l e|l e|l e|l e|l e|l]
    using statement_nested_ind; cbn [check_stmt].
  - rewrite existsb_exists. split.
    + intros (s & Hin & Hs). apply (occurs_read_member l ss s Hin).
      apply list_elem_of_In in Hin.
      by apply (proj1 (Forall_forall _ _) IH s Hin).
    + inversion 1 as [|l' ss' s Hin Hs| | | | | | | | | |]; subst.
      exists s. split; [done|]. apply list_elem_of_In in Hin.
      by apply (proj1 (Forall_forall _ _) IH s Hin).
  - rewrite check_expr_occurs. split; [by constructor|by inversion 1].
  - rewrite !orb_true_iff, check_expr_occurs, IH1. split.
    + intros [[H|H]|H].
      * by apply occurs_read_if_guard.
      * by apply occurs_read_then.
      * destruct s2 as [eb|]; [|discriminate H]. cbn in IH2.
        apply occurs_read_else. by apply IH2.
    + inversion 1; subst; auto. right. cbn in IH2. by apply IH2.
  - rewrite orb_true_iff, check_expr_occurs, IH. split.
    + intros [H|H]; [by apply occurs_read_while_guard|by apply occurs_read_body].
    + inversion 1; auto.
  - rewrite check_expr_occurs. split; [by constructor|by inversion 1].
  - rewrite check_expr_occurs. split; [by constructor|by inversion 1].
  - rewrite check_expr_occurs. split; [by constructor|by inversion 1].
  - rewrite check_expr_occurs. split; [by constructor|by inversion 1].
  - rewrite check_expr_occurs. split; [by constructor|by inversion 1].
  - split; [discriminate|inversion 1].
Qed.

Lemma _check_for_read_occurs program :
  _check_for_read program = true ↔ program_uses_read program.
Proof.
  unfold _check_for_read, program_uses_read. rewrite existsb_exists. split.
  - intros (func & Hf & Hb). apply existsb_exists in Hb as (s & Hs & Hc).
    exists func, s. split_and!; [done|done|by apply check_stmt_occurs].
  - intros (func & s & Hf & Hs & Hc). exists func. split; [done|].
    apply existsb_exists. exists s. split; [done|by apply check_stmt_occurs].
Qed.

(** C6, as the code has it. The output of every program imports the
    general runtime-support file [berkeley_utils.s], whether or not the
    program allocates or prints; it imports the integer-input support
    file [read_int.s] if and only if the program uses the read
    construct, that is, a read expression occurs in the body of one of
    its functions. *)
Theorem runtime_imports (program : Program) :
  In ".import berkeley_utils.s" (generate program)
  ∧ (In ".import read_int.s" (generate program) ↔ program_uses_read program).
Proof.
  destruct (imports_follow_scan program) as [Hb Hr]. split; [done|].
  by rewrite Hr, _check_for_read_occurs.
Qed.

(** C6 as stated fails: a program with no new-expression, no print or
    println and no read-expression still gets a runtime-support import
    line. *)
Lemma import_without_use :
  generate minimal_program =
  [".globl main"; ".import berkeley_utils.s"; ""; ".data"; ""; ".text"; "";
   "main:"; "    addi sp, sp, -8"; "    sw ra, 4(sp)"; "    sw fp, 0(sp)";
   "    addi fp, sp, 0"; "    li t0, 0"; "    mv a0, t0"; "    lw fp, 0(sp)";
   "    lw ra, 4(sp)"; "    addi sp, sp, 8"; "    jal exit"; ""]
  ∧ In ".import berkeley_utils.s" (generate minimal_program).
Proof. split; [reflexivity|]. right. by left. Qed.

End CodeGenFacts.

(** ** Semantic analyzer *)

Module SemanticFacts.
Import Semantic.

Lemma new_diagnostics_app a a' new :
  diagnostics a' = diagnostics a ++ new → new_diagnostics a a' = new.
Proof. intros H. unfold new_diagnostics. by rewrite H, drop_app_length. Qed.

Lemma same_context_Error a m l : same_context a (Error a m l).
Proof. by repeat split. Qed.

(** *** Struct registration *)

Lemma structs_undefined_struct_check a node guard message l :
  structs (undefined_struct_check a node guard message l) = structs a.
Proof. unfold undefined_struct_check. by repeat case_match. Qed.

Lemma structs_visit_field name acc f :
  structs (visit_field name acc f).2 = structs acc.2.
Proof.
  destruct acc as [seen a]. unfold visit_field.
  case_bool_decide; cbn [snd]; by rewrite structs_undefined_struct_check.
Qed.

Lemma structs_visit_fields name fs :
  ∀ acc, structs (fold_left (visit_field name) fs acc).2 = structs acc.2.
Proof.
  induction fs as [|f fs IH]; intros acc; cbn [fold_left]; [done|].
  by rewrite IH, structs_visit_field.
Qed.

Lemma dom_register_struct a t :
  dom (structs (register_struct a t)) = {[tdecl_name t]} ∪ dom (structs a).
Proof.
  unfold register_struct. destruct (structs a !! tdecl_name t) eqn:E; cbn.
  - apply elem_of_dom_2 in E. set_solver.
  - by rewrite dom_insert_L.
Qed.

Lemma dom_visit_structs ts :
  ∀ a, dom (structs (fold_left visit_struct ts a))
       = list_to_set (map tdecl_name ts) ∪ dom (structs a).
Proof.
  induction ts as [|t ts IH]; intros a; cbn [fold_left map list_to_set].
  - set_solver.
  - rewrite IH. unfold visit_struct, visit_type_declaration.
    rewrite structs_visit_fields. cbn [snd]. rewrite dom_register_struct. set_solver.
Qed.

(** C2. Structs are registered one at a time in declaration order: when
    declaration [t] is checked, exactly the names of the declarations up
    to and including [t] are registered.  A field of [t] whose type
    names a struct that is not among them (so one declared only later
    in the program) adds the undefined-struct diagnostic at the field's
    line; a field whose type names [t] itself adds none.  In both cases
    the only other diagnostic the field can add is the one for a
    repeated field name. *)
Theorem forward_struct_reference (pre post : list TypeDeclaration) (t : TypeDeclaration)
    (fpre fpost : list Declaration) (f : Declaration) (ln : Z) (s : string) :
  tdecl_fields t = fpre ++ f :: fpost →
  decl_type f = StructType ln s →
  let registered := register_struct (fold_left visit_struct pre init) t in
  let before := fold_left (visit_field (tdecl_name t)) fpre (∅, registered) in
  let after := visit_field (tdecl_name t) before f in
  let duplicate :=
    if bool_decide (decl_name f ∈ before.1)
    then [("Duplicate field of name: '" +:+ decl_name f +:+ "'", decl_linenum f)]
    else [] in
  fold_left visit_struct (pre ++ t :: post) init
  = fold_left visit_struct post (fold_left (visit_field (tdecl_name t)) fpost after).2
  ∧ dom (structs before.2) = list_to_set (map tdecl_name (pre ++ [t]))
  ∧ (s ∉ map tdecl_name (pre ++ [t]) →
       new_diagnostics before.2 after.2
       = duplicate ++ [("Undefined struct of name: '" +:+ s +:+ "'", decl_linenum f)])
  ∧ (s = tdecl_name t → new_diagnostics before.2 after.2 = duplicate).
Proof.
  intros Hfields Htype registered before after duplicate.
  assert (dom (structs before.2) = list_to_set (map tdecl_name (pre ++ [t]))) as Hdom.
  { unfold before. rewrite structs_visit_fields. cbn [snd]. unfold registered.
    rewrite dom_register_struct, dom_visit_structs, map_app, list_to_set_app_L.
    cbn. set_solver. }
  split_and!.
  - rewrite fold_left_app. cbn [fold_left]. f_equal.
    transitivity (fold_left (visit_field (tdecl_name t)) (tdecl_fields t)
                    (∅, registered)).2; [reflexivity|].
    rewrite Hfields, fold_left_app. reflexivity.
  - done.
  - intros Hs.
    assert (structs before.2 !! s = None) as Hnone.
    { apply not_elem_of_dom. rewrite Hdom. set_solver. }
    assert (s ≠ tdecl_name t) as Hne by set_solver.
    unfold after, duplicate. destruct before as [seen a]. cbn [fst snd] in *.
    unfold visit_field, undefined_struct_check, not_registered. rewrite Htype.
    apply String.eqb_neq in Hne.
    case_bool_decide; cbn [Type_ structs Error snd]; rewrite Hnone, Hne;
      rewrite bool_decide_eq_true_2 by done; cbn [negb andb];
      apply new_diagnostics_app; cbn [diagnostics Error];
      by rewrite <- ?app_assoc, ?app_nil_r.
  - intros ->.
    assert (is_Some (structs before.2 !! tdecl_name t)) as [d Hd].
    { apply elem_of_dom. rewrite Hdom. set_solver. }
    unfold after, duplicate. destruct before as [seen a]. cbn [fst snd] in *.
    unfold visit_field, undefined_struct_check. rewrite Htype.
    case_bool_decide; cbn [Type_ structs Error snd]; rewrite Hd;
      apply new_diagnostics_app; cbn [diagnostics Error]; by rewrite ?app_nil_r.
Qed.

Lemma forward_struct_reference_witness :
  let registered := register_struct init struct_A in
  new_diagnostics registered (visit_field "A" (∅, registered) forward_field).2
  = [("Undefined struct of name: 'B'", 2)]
  ∧ new_diagnostics
      (visit_field "A" (∅, registered) forward_field).2
      (visit_field "A" (visit_field "A" (∅, registered) forward_field) self_field).2
    = [].
Proof.
  split.
  - apply (forward_struct_reference [] [struct_B] struct_A [] [self_field]
             forward_field 2 "B" eq_refl eq_refl).
    apply (bool_decide_unpack _). reflexivity.
  - apply (forward_struct_reference [] [struct_B] struct_A [forward_field] []
             self_field 3 "A" eq_refl eq_refl).
    reflexivity.
Defined.

(** *** Diagnostics of expressions and statements *)

Lemma reports_refl a : reports a a.
Proof. exists []. by rewrite app_nil_r. Qed.

Lemma reports_trans a1 a2 a3 : reports a1 a2 → reports a2 a3 → reports a1 a3.
Proof.
  intros (n1 & D1 & F1) (n2 & D2 & F2). exists (n1 ++ n2).
  rewrite D2, D1, <- app_assoc. split; [done|]. by apply Forall_app.
Qed.

Lemma reports_Error a0 a m l :
  reports a0 a → m ≠ "Missing return statement" → reports a0 (Error a m l).
Proof.
  intros H Hm. apply (reports_trans _ a); [done|]. exists [(m, l)].
  split; [done|]. by apply Forall_singleton.
Qed.

Ltac message_ok := let H := fresh in intros H; discriminate H.

Ltac report :=
  repeat case_match; cbn [snd];
  try done; try (apply reports_Error; [done|message_ok]).

Lemma reports_unary_rule a0 a op t l :
  reports a0 a → reports a0 (unary_rule a op t l).2.
Proof. intros H. unfold unary_rule. report. Qed.

Lemma reports_binary_rule a0 a op t1 t2 l :
  reports a0 a → reports a0 (binary_rule a op t1 t2 l).2.
Proof. intros H. unfold binary_rule. report. Qed.

Lemma reports_check_argument a0 a t pt l :
  reports a0 a → reports a0 (check_argument a t pt l).
Proof. intros H. unfold check_argument. report. Qed.

Lemma reports_require a0 a t ok m l :
  reports a0 a → m ≠ "Missing return statement" → reports a0 (require a t ok m l).
Proof. intros H Hm. unfold require. repeat case_match; try done. by apply reports_Error. Qed.

(** The invocation visitor in terms of the loop over the zipped
    arguments and parameters. *)
Lemma _expr_type_invocation a ln fname arguments :
  _expr_type a (InvocationExpression ln fname arguments) =
  match functions a !! fname with
  | None => (None, Error a ("Undefined function '" +:+ fname +:+ "'") ln)
  | Some fn =>
      let a := if bool_decide (length (func_params fn) ≠ length arguments)
               then Error a ("Wrong number of arguments to '" +:+ fname +:+ "'") ln
               else a in
      let a := check_arguments a arguments (func_params fn) in
      (Type_ret a (func_ret_type fn), a)
  end.
Proof. reflexivity. Qed.

Lemma reports_check_arguments args :
  Forall (λ e, ∀ a0 a, reports a0 a → reports a0 (_expr_type a e).2) args →
  ∀ ps a0 a, reports a0 a → reports a0 (check_arguments a args ps).
Proof.
  induction 1 as [|e args He _ IH]; intros ps a0 a H; [done|].
  destruct ps as [|p ps]; [done|]. cbn [check_arguments].
  specialize (He a0 a H). destruct (_expr_type a e) as [t a1].
  apply IH. by apply reports_check_argument.
Qed.

Lemma reports_expr e : ∀ a0 a, reports a0 a → reports a0 (_expr_type a e).2.
Proof.
  induction e as [l v|l|l|l|l|l x|l e x IH|l op e IH|l op e1 e2 IH1 IH2|l f args IH|l x]
    using expression_nested_ind; intros a0 a H.
  1-5: done.
  - cbn [_expr_type]. report.
  - cbn [_expr_type]. specialize (IH a0 a H).
    destruct (_expr_type a e) as [t a1]. report.
  - cbn [_expr_type]. specialize (IH a0 a H).
    destruct (_expr_type a e) as [[t|] a1]; [|done]. by apply reports_unary_rule.
  - cbn [_expr_type]. specialize (IH1 a0 a H).
    destruct (_expr_type a e1) as [t1 a1]. specialize (IH2 a0 a1 IH1).
    destruct (_expr_type a1 e2) as [t2 a2].
    destruct t1, t2; try done. by apply reports_binary_rule.
  - rewrite _expr_type_invocation. destruct (functions a !! f) as [fn|]; [|report].
    cbv zeta. cbn [snd]. apply reports_check_arguments; [done|]. report.
  - cbn [_expr_type]. report.
Qed.

Lemma reports_expr' a0 a e t a' :
  reports a0 a → _expr_type a e = (t, a') → reports a0 a'.
Proof. intros H E. pose proof (reports_expr e a0 a H) as H'. by rewrite E in H'. Qed.

Lemma reports_fold (ss : list statement) :
  Forall (λ s, ∀ a0 a, reports a0 a → reports a0 (visit_statement a s)) ss →
  ∀ a0 a, reports a0 a → reports a0 (fold_left visit_statement ss a).
Proof.
  induction 1 as [|s ss Hs _ IH]; intros a0 a H; cbn [fold_left]; [done|].
  apply IH. by apply Hs.
Qed.

Lemma reports_statement s : ∀ a0 a, reports a0 a → reports a0 (visit_statement a s).
Proof.
  induction s as [l ss IH|l t e|l e s1 s2 IH1 IH2|l e s IH|l e|l e|l e|l e|l e|l]
    using statement_nested_ind; intros a0 a H; cbn [visit_statement].
  - by apply reports_fold.
  - assert (reports a0 (_lvalue_type a t).2) as H1.
    { unfold _lvalue_type. report. }
    destruct (_lvalue_type a t) as [lhs_t a1]. cbn [snd] in H1.
    destruct (_expr_type a1 e) as [rhs_t a2] eqn:E.
    pose proof (reports_expr' _ _ _ _ _ H1 E). report.
  - destruct (_expr_type a e) as [cond_t a1] eqn:E.
    pose proof (reports_expr' _ _ _ _ _ H E) as H1.
    assert (reports a0 (visit_statement
              (require a1 cond_t (λ t, bool_decide (t = BOOL))
                 "Condition must be a boolean" l) s1)) as H2.
    { apply IH1. apply reports_require; [done|message_ok]. }
    destruct s2 as [eb|]; [|done]. cbn in IH2. destruct (statements_of eb); [done|].
    by apply IH2.
  - destruct (_expr_type a e) as [cond_t a1] eqn:E.
    pose proof (reports_expr' _ _ _ _ _ H E) as H1.
    apply IH. apply reports_require; [done|message_ok].
  - destruct (_expr_type a e) as [t a1] eqn:E.
    pose proof (reports_expr' _ _ _ _ _ H E) as H1.
    apply reports_require; [done|message_ok].
  - by apply reports_expr.
  - destruct (_expr_type a e) as [t a1] eqn:E.
    pose proof (reports_expr' _ _ _ _ _ H E) as H1. report.
  - destruct (_expr_type a e) as [t a1] eqn:E.
    pose proof (reports_expr' _ _ _ _ _ H E) as H1. report.
  - destruct (declared_type a) as [declared|]; [|done].
    destruct (_expr_type a e) as [t a1] eqn:E.
    pose proof (reports_expr' _ _ _ _ _ H E) as H1. report.
  - report.
Qed.

(** *** Functions *)

Lemma reports_define a0 t name value l a :
  reports a0 a → reports a0 (define t name value l a).2.
Proof. intros H. unfold define. report. Qed.

Lemma reports_undefined_struct_check a0 a node guard message l :
  (∀ sname, message sname ≠ "Missing return statement") →
  reports a0 a → reports a0 (undefined_struct_check a node guard message l).
Proof.
  intros Hm H. unfold undefined_struct_check. repeat case_match; try done.
  by apply reports_Error.
Qed.

Lemma reports_declare_param a0 acc p :
  reports a0 acc.2 → reports a0 (declare_param acc p).2.
Proof.
  destruct acc as [scope a]. cbn [snd]. intros H. unfold declare_param.
  destruct (lookup_local scope (decl_name p)).
  - cbn [snd]. apply reports_undefined_struct_check; [intros ?; message_ok|].
    apply reports_Error; [done|message_ok].
  - pose proof (reports_define a0 scope (decl_name p) p (decl_linenum p) a H) as H'.
    destruct (define scope (decl_name p) p (decl_linenum p) a) as [scope' a'].
    cbn [snd] in *. apply reports_undefined_struct_check; [intros ?; message_ok|done].
Qed.

Lemma reports_declare_local a0 acc p :
  reports a0 acc.2 → reports a0 (declare_local acc p).2.
Proof.
  destruct acc as [scope a]. cbn [snd]. intros H. unfold declare_local.
  destruct (lookup_local scope (decl_name p)).
  - cbn [snd]. apply reports_undefined_struct_check; [intros ?; message_ok|].
    apply reports_Error; [done|message_ok].
  - pose proof (reports_define a0 scope (decl_name p) p (decl_linenum p) a H) as H'.
    destruct (define scope (decl_name p) p (decl_linenum p) a) as [scope' a'].
    cbn [snd] in *. apply reports_undefined_struct_check; [intros ?; message_ok|done].
Qed.

Lemma reports_declare_params ps :
  ∀ a0 acc, reports a0 acc.2 → reports a0 (fold_left declare_param ps acc).2.
Proof.
  induction ps as [|p ps IH]; intros a0 acc H; cbn [fold_left]; [done|].
  apply IH. by apply reports_declare_param.
Qed.

Lemma reports_declare_locals ps :
  ∀ a0 acc, reports a0 acc.2 → reports a0 (fold_left declare_local ps acc).2.
Proof.
  induction ps as [|p ps IH]; intros a0 acc H; cbn [fold_left]; [done|].
  apply IH. by apply reports_declare_local.
Qed.

Lemma reports_set_scope a0 a scopes scope fn :
  reports a0 a → reports a0 (set_scope a scopes scope fn).
Proof. done. Qed.

Lemma filter_missing_return_nil (l : list diagnostic) :
  Forall (λ d, ¬ is_missing_return d) l → filter is_missing_return l = [].
Proof.
  induction 1 as [|d l Hd _ IH]; [done|].
  by rewrite filter_cons_False, IH.
Qed.

Lemma Type_ret_real_not_void a t : Type_ret a (ReturnTypeReal t) ≠ Some VOID.
Proof. destruct t; cbn; [done|done|]. by case_match. Qed.

(** C3. For a function declared with a non-void return type whose body
    ends in a conditional statement, the diagnostics added by checking
    the function contain exactly one missing-return diagnostic, at the
    function's line, whatever the branches of the conditional contain:
    the check looks at the last statement of the body only. *)
Theorem missing_return_after_conditional (a : SemanticAnalyzer) (func : Function)
    (t : type_node) (ln : Z) (guard : expression) (then_block : statement)
    (else_block : option statement) :
  func_ret_type func = ReturnTypeReal t →
  last (func_body func) = Some (ConditionalStatement ln guard then_block else_block) →
  filter is_missing_return (new_diagnostics a (visit_function a func))
  = [("Missing return statement", func_linenum func)].
Proof.
  intros Hret Hlast. unfold visit_function.
  set (scope0 := mkSymbolTable (Some (globals a)) ∅ (func_name func +:+ "()")).
  set (a1 := set_scope a (function_scopes a) (current_scope a) (Some func)).
  assert (reports a (fold_left declare_param (func_params func) (scope0, a1)).2) as Hp.
  { apply reports_declare_params. apply reports_set_scope, reports_refl. }
  destruct (fold_left declare_param (func_params func) (scope0, a1)) as [scope1 a2].
  assert (reports a (fold_left declare_local (func_locals func) (scope1, a2)).2) as Hl.
  { by apply reports_declare_locals. }
  destruct (fold_left declare_local (func_locals func) (scope1, a2)) as [scope2 a3].
  cbn [snd] in Hl.
  set (a4 := set_scope a3 (<[func_name func:=scope2]> (function_scopes a3))
               (FunctionScope scope2) (Some func)).
  assert (reports a (fold_left visit_statement (func_body func) a4)) as Hb.
  { apply reports_fold; [|by apply reports_set_scope].
    apply Forall_forall. intros s _. apply reports_statement. }
  set (a5 := fold_left visit_statement (func_body func) a4) in *.
  assert (return_check a5 func = Error a5 "Missing return statement" (func_linenum func))
    as ->.
  { unfold return_check. rewrite Hlast, Hret.
    by rewrite bool_decide_eq_true_2 by apply Type_ret_real_not_void. }
  destruct Hb as (new & D & F).
  rewrite (new_diagnostics_app a _ (new ++ [("Missing return statement", func_linenum func)])).
  - rewrite filter_app, filter_missing_return_nil by done. reflexivity.
  - cbn [diagnostics set_scope Error]. by rewrite D, <- app_assoc.
Qed.

Lemma missing_return_after_conditional_witness :
  filter is_missing_return (new_diagnostics pick_registered
                              (visit_function pick_registered pick))
  = [("Missing return statement", 5)].
Proof.
  apply (missing_return_after_conditional pick_registered pick IntType 6
           (TrueExpression 6)
           (BlockStatement 6 [ReturnStatement 6 (IntegerExpression 6 1)])
           (Some (BlockStatement 7 [ReturnStatement 7 (IntegerExpression 7 2)])));
    reflexivity.
Defined.

(** C4 at a failing input: [print x;] with [x] undeclared.  The operand
    fails to resolve and reports the undefined variable; the print
    statement then adds its own diagnostic on top. *)
Lemma print_reports_after_unresolved_operand :
  diagnostics (visit_program init print_undeclared)
  = [("Undefined variable 'x'", 2); ("print requires int", 2)].
Proof. reflexivity. Qed.

(** *** Calls *)

(** C5 as stated fails: [pick(true)] against [pick(int a, int b)] has
    the wrong number of arguments and is still type-checked in the
    position that lines up, so the call adds two diagnostics. *)
Lemma argument_checked_despite_count :
  new_diagnostics pick_registered
    (_expr_type pick_registered
       (InvocationExpression 11 "pick" [TrueExpression 11])).2
  = [("Wrong number of arguments to 'pick'", 11); ("Argument type mismatch", 11)].
Proof. reflexivity. Qed.

End SemanticFacts.

(** ** Semantic analyzer: what checking can change *)

Module AnalyzerFrame.
Import Semantic SemanticFacts.

Lemma Errors_app a l1 l2 : Errors a (l1 ++ l2) = Errors (Errors a l1) l2.
Proof. apply fold_left_app. Qed.

Lemma Error_Errors a m l : Error a m l = Errors a [(m, l)].
Proof. reflexivity. Qed.

Lemma Errors_nil a : Errors a [] = a.
Proof. reflexivity. Qed.

(** Reporting touches the counter and the printed lines only, and
    counts each line once. *)
Lemma Errors_fields a ds :
  globals (Errors a ds) = globals a
  ∧ functions (Errors a ds) = functions a
  ∧ structs (Errors a ds) = structs a
  ∧ function_scopes (Errors a ds) = function_scopes a
  ∧ current_scope (Errors a ds) = current_scope a
  ∧ current_function (Errors a ds) = current_function a
  ∧ diagnostics (Errors a ds) = diagnostics a ++ ds
  ∧ errors (Errors a ds) = errors a + Z.of_nat (length ds).
Proof.
  revert a. induction ds as [|d ds IH]; intros a.
  - cbn. rewrite app_nil_r. split_and!; try done. lia.
  - change (Errors a (d :: ds)) with (Errors (Error a d.1 d.2) ds).
    destruct (IH (Error a d.1 d.2)) as (-> & -> & -> & -> & -> & -> & -> & ->).
    destruct d. cbn. rewrite <- app_assoc. split_and!; try done. lia.
Qed.

Lemma same_context_Errors a ds : same_context a (Errors a ds).
Proof. destruct (Errors_fields a ds) as (? & ? & ? & ? & ? & ? & _). by repeat split. Qed.

Lemma structs_Errors a ds : structs (Errors a ds) = structs a.
Proof. apply Errors_fields. Qed.
Lemma functions_Errors a ds : functions (Errors a ds) = functions a.
Proof. apply Errors_fields. Qed.
Lemma globals_Errors a ds : globals (Errors a ds) = globals a.
Proof. apply Errors_fields. Qed.
Lemma current_scope_Errors a ds : current_scope (Errors a ds) = current_scope a.
Proof. apply Errors_fields. Qed.
Lemma current_function_Errors a ds : current_function (Errors a ds) = current_function a.
Proof. apply Errors_fields. Qed.
Lemma diagnostics_Errors a ds : diagnostics (Errors a ds) = diagnostics a ++ ds.
Proof. apply Errors_fields. Qed.

Lemma Type__Errors a ds n : Type_ (Errors a ds) n = Type_ a n.
Proof. destruct n; cbn; try done. by rewrite structs_Errors. Qed.

Lemma Type_ret_Errors a ds r : Type_ret (Errors a ds) r = Type_ret a r.
Proof. destruct r; cbn; [done|]. apply Type__Errors. Qed.

Lemma lookup_current_Errors a ds x : lookup_current (Errors a ds) x = lookup_current a x.
Proof. unfold lookup_current. by rewrite current_scope_Errors, globals_Errors. Qed.

Lemma declared_type_Errors a ds : declared_type (Errors a ds) = declared_type a.
Proof.
  unfold declared_type. rewrite current_function_Errors.
  destruct (current_function a); [|done]. by rewrite Type_ret_Errors.
Qed.

Ltac errs :=
  repeat first
    [ rewrite Error_Errors
    | rewrite <- Errors_app
    | rewrite Type__Errors
    | rewrite Type_ret_Errors
    | rewrite lookup_current_Errors
    | rewrite declared_type_Errors
    | rewrite structs_Errors
    | rewrite functions_Errors ].

Lemma Errors_nil_r a pre : Errors a pre = Errors a (pre ++ []).
Proof. by rewrite app_nil_r. Qed.

Lemma report_nil_r {A} (r : A) a pre : (r, Errors a pre) = (r, Errors a (pre ++ [])).
Proof. by rewrite app_nil_r. Qed.

(** Closes a goal whose two sides differ by at most one report, the
    right-hand list still to be chosen. *)
Ltac close_report :=
  errs; first [ reflexivity | apply report_nil_r | apply Errors_nil_r ].

Lemma unary_rule_reports op t l :
  ∃ r new, ∀ a pre, unary_rule (Errors a pre) op t l = (r, Errors a (pre ++ new)).
Proof.
  unfold unary_rule. repeat case_match; eexists _, _; intros a pre; close_report.
Qed.

Lemma binary_rule_reports op t1 t2 l :
  ∃ r new, ∀ a pre, binary_rule (Errors a pre) op t1 t2 l = (r, Errors a (pre ++ new)).
Proof.
  unfold binary_rule. repeat case_match; eexists _, _; intros a pre; close_report.
Qed.

Lemma check_argument_reports t pt l :
  ∃ new, ∀ a pre, check_argument (Errors a pre) t pt l = Errors a (pre ++ new).
Proof.
  unfold check_argument. repeat case_match; eexists; intros a pre; close_report.
Qed.

Lemma require_reports t ok m l :
  ∃ new, ∀ a pre, require (Errors a pre) t ok m l = Errors a (pre ++ new).
Proof.
  unfold require. repeat case_match; eexists; intros a pre; close_report.
Qed.

Lemma check_arguments_reports args :
  Forall (λ e, ∀ a, ∃ t new, ∀ pre,
            _expr_type (Errors a pre) e = (t, Errors a (pre ++ new))) args →
  ∀ ps a, ∃ new, ∀ pre, check_arguments (Errors a pre) args ps = Errors a (pre ++ new).
Proof.
  induction 1 as [|e args He _ IH]; intros ps a.
  - exists []. intros pre. cbn. apply Errors_nil_r.
  - destruct ps as [|p ps].
    { exists []. intros pre. cbn. apply Errors_nil_r. }
    destruct (He a) as (t & n1 & H1).
    destruct (check_argument_reports t (Type_ a (decl_type p)) (expr_linenum e))
      as (n2 & H2).
    destruct (IH ps a) as (n3 & H3).
    exists (n1 ++ n2 ++ n3). intros pre. cbn [check_arguments].
    rewrite H1, Type__Errors, H2, H3. by rewrite <- !app_assoc.
Qed.

Lemma expr_reports_only e :
  ∀ a, ∃ t new, ∀ pre, _expr_type (Errors a pre) e = (t, Errors a (pre ++ new)).
Proof.
  induction e as [l v|l|l|l|l|l x|l e x IH|l op e IH|l op e1 e2 IH1 IH2|l f args IH|l x]
    using expression_nested_ind; intros a.
  1-5: eexists _, []; intros pre; cbn; apply report_nil_r.
  - destruct (lookup_current a x) eqn:E; eexists _, _; intros pre;
      cbn [_expr_type]; rewrite lookup_current_Errors, E; close_report.
  - destruct (IH a) as (t & n1 & H1).
    destruct t as [[| | | |sname]|].
    5: destruct (structs a !! sname) as [decl|] eqn:Es;
         [destruct (find_field decl x) eqn:Ef|].
    all: eexists _, (n1 ++ _); intros pre; cbn [_expr_type]; rewrite H1;
      rewrite ?structs_Errors, ?Es, ?Ef; errs; rewrite <- ?app_assoc;
      first [reflexivity | by rewrite app_nil_r].
  - destruct (IH a) as ([t|] & n1 & H1).
    + destruct (unary_rule_reports op t l) as (r & n2 & H2).
      exists r, (n1 ++ n2). intros pre. cbn [_expr_type]. rewrite H1, H2.
      by rewrite <- app_assoc.
    + exists None, n1. intros pre. cbn [_expr_type]. by rewrite H1.
  - destruct (IH1 a) as (t1 & n1 & H1). destruct (IH2 a) as (t2 & n2 & H2).
    destruct t1 as [t1|], t2 as [t2|].
    1: destruct (binary_rule_reports op t1 t2 l) as (r & n3 & H3);
       exists r, (n1 ++ n2 ++ n3); intros pre; cbn [_expr_type];
       rewrite H1, H2, H3; by rewrite <- !app_assoc.
    all: exists None, (n1 ++ n2); intros pre; cbn [_expr_type];
      rewrite H1, H2; by rewrite <- !app_assoc.
  - destruct (functions a !! f) as [fn|] eqn:Ef.
    + set (w := if bool_decide (length (func_params fn) ≠ length args)
                then [("Wrong number of arguments to '" +:+ f +:+ "'", l)] else []).
      destruct (check_arguments_reports args IH (func_params fn) a) as (n2 & H2).
      exists (Type_ret a (func_ret_type fn)), (w ++ n2). intros pre.
      rewrite _expr_type_invocation, functions_Errors, Ef. cbv zeta. unfold w.
      case_bool_decide; errs; rewrite H2; errs; rewrite <- ?app_assoc;
        first [reflexivity | by rewrite app_nil_r].
    + eexists _, _. intros pre.
      rewrite _expr_type_invocation, functions_Errors, Ef. close_report.
  - destruct (structs a !! x) eqn:E; eexists _, _; intros pre;
      cbn [_expr_type]; rewrite structs_Errors, E; close_report.
Qed.

Lemma expr_reports_only_at a e :
  ∃ t new, _expr_type a e = (t, Errors a new).
Proof.
  destruct (expr_reports_only e a) as (t & new & H). exists t, new.
  apply (H []).
Qed.

Lemma statements_report_only ss :
  Forall (λ s, ∀ a, ∃ new, ∀ pre,
            visit_statement (Errors a pre) s = Errors a (pre ++ new)) ss →
  ∀ a, ∃ new, ∀ pre,
    fold_left visit_statement ss (Errors a pre) = Errors a (pre ++ new).
Proof.
  induction 1 as [|s ss Hs _ IH]; intros a.
  - exists []. intros pre. cbn. apply Errors_nil_r.
  - destruct (Hs a) as (n1 & H1). destruct (IH a) as (n2 & H2).
    exists (n1 ++ n2). intros pre. cbn [fold_left]. rewrite H1, H2.
    by rewrite <- app_assoc.
Qed.

Lemma statement_reports_only s :
  ∀ a, ∃ new, ∀ pre, visit_statement (Errors a pre) s = Errors a (pre ++ new).
Proof.
  induction s as [l ss IH|l t e|l e s1 s2 IH1 IH2|l e s IH|l e|l e|l e|l e|l e|l]
    using statement_nested_ind; intros a.
  - destruct (statements_report_only ss IH a) as (new & H). exists new.
    intros pre. cbn [visit_statement]. apply H.
  - destruct (expr_reports_only e a) as (rt & n2 & H2).
    destruct t as [lt x|lt lv x].
    + destruct (lookup_current a x) as [d|] eqn:E.
      * destruct (Type_ a (decl_type d)) as [lhs|] eqn:Et;
          [destruct rt as [rhs|];
             [destruct (_types_match (Some lhs) (Some rhs)) eqn:Em|]|].
        all: eexists (n2 ++ _); intros pre; cbn [visit_statement _lvalue_type];
          rewrite lookup_current_Errors, E, Type__Errors, Et, H2, ?Em; errs;
          rewrite <- ?app_assoc; first [reflexivity | by rewrite app_nil_r].
      * eexists (_ :: n2). intros pre. cbn [visit_statement _lvalue_type].
        rewrite lookup_current_Errors, E. errs. rewrite H2.
        rewrite <- app_assoc. reflexivity.
    + exists n2. intros pre. cbn [visit_statement _lvalue_type]. by rewrite H2.
  - destruct (expr_reports_only e a) as (ct & n1 & H1).
    destruct (require_reports ct (λ t, bool_decide (t = BOOL))
                "Condition must be a boolean" l) as (n2 & H2).
    destruct (IH1 a) as (n3 & H3).
    assert (∃ n4, ∀ pre,
              match s2 with
              | Some eb => match statements_of eb with
                           | [] => Errors a pre
                           | _ :: _ => visit_statement (Errors a pre) eb
                           end
              | None => Errors a pre
              end = Errors a (pre ++ n4)) as (n4 & H4).
    { destruct s2 as [eb|]; [|exists []; intros; apply Errors_nil_r].
      cbn in IH2. destruct (statements_of eb);
        [exists []; intros; apply Errors_nil_r|]. by apply IH2. }
    exists (n1 ++ n2 ++ n3 ++ n4). intros pre. cbn [visit_statement].
    rewrite H1, H2, H3, H4. by rewrite <- !app_assoc.
  - destruct (expr_reports_only e a) as (ct & n1 & H1).
    destruct (require_reports ct (λ t, bool_decide (t = BOOL))
                "Condition must be boolean" l) as (n2 & H2).
    destruct (IH a) as (n3 & H3).
    exists (n1 ++ n2 ++ n3). intros pre. cbn [visit_statement].
    rewrite H1, H2, H3. by rewrite <- !app_assoc.
  - destruct (expr_reports_only e a) as (t & n1 & H1).
    destruct (require_reports t _is_struct "delete requires a struct" l) as (n2 & H2).
    exists (n1 ++ n2). intros pre. cbn [visit_statement].
    rewrite H1, H2. by rewrite <- !app_assoc.
  - destruct (expr_reports_only e a) as (t & n1 & H1).
    exists n1. intros pre. cbn [visit_statement]. by rewrite H1.
  - destruct (expr_reports_only e a) as (t & n1 & H1).
    destruct (bool_decide (t ≠ Some INT)) eqn:Eb; eexists (n1 ++ _); intros pre;
      cbn [visit_statement]; rewrite H1, Eb; errs; rewrite <- ?app_assoc;
      first [reflexivity | by rewrite app_nil_r].
  - destruct (expr_reports_only e a) as (t & n1 & H1).
    destruct (bool_decide (t ≠ Some INT)) eqn:Eb; eexists (n1 ++ _); intros pre;
      cbn [visit_statement]; rewrite H1, Eb; errs; rewrite <- ?app_assoc;
      first [reflexivity | by rewrite app_nil_r].
  - destruct (declared_type a) as [declared|] eqn:Ed.
    + destruct (expr_reports_only e a) as (t & n1 & H1).
      destruct (bool_decide (declared = Some VOID)) eqn:Ev;
        [|destruct t as [t|]; [destruct (_types_match declared (Some t)) eqn:Em|]].
      all: eexists (n1 ++ _); intros pre; cbn [visit_statement];
        rewrite declared_type_Errors, Ed, H1, Ev, ?Em; errs; rewrite <- ?app_assoc;
        first [reflexivity | by rewrite app_nil_r].
    + exists []. intros pre. cbn [visit_statement].
      rewrite declared_type_Errors, Ed. apply Errors_nil_r.
  - destruct (declared_type a) as [declared|] eqn:Ed;
      [destruct (bool_decide (declared ≠ Some VOID)) eqn:Ev|].
    all: eexists; intros pre; cbn [visit_statement];
      rewrite declared_type_Errors, Ed, ?Ev; close_report.
Qed.

(** X1. Checking an expression or a statement changes the analyzer
    only by reporting: registries, scopes and the current function are
    as before.  The type returned and the diagnostics added are the
    same whatever has been reported earlier. *)
Theorem checking_only_reports :
  (∀ e a, ∃ t new, ∀ pre, _expr_type (Errors a pre) e = (t, Errors a (pre ++ new)))
  ∧ (∀ s a, ∃ new, ∀ pre, visit_statement (Errors a pre) s = Errors a (pre ++ new))
  ∧ (∀ a ds, same_context a (Errors a ds)
             ∧ diagnostics (Errors a ds) = diagnostics a ++ ds).
Proof.
  split_and!.
  - intros e a. apply expr_reports_only.
  - intros s a. apply statement_reports_only.
  - intros a ds. split; [apply same_context_Errors|apply diagnostics_Errors].
Qed.

(** *** The error count *)

Lemma counted_Errors a ds : counted a → counted (Errors a ds).
Proof.
  unfold counted. intros H.
  destruct (Errors_fields a ds) as (_ & _ & _ & _ & _ & _ & -> & ->).
  rewrite H, length_app. lia.
Qed.

Lemma counted_Error a m l : counted a → counted (Error a m l).
Proof. rewrite Error_Errors. apply counted_Errors. Qed.

Lemma counted_expr a e : counted a → counted (_expr_type a e).2.
Proof.
  intros H. destruct (expr_reports_only_at a e) as (t & new & ->).
  by apply counted_Errors.
Qed.

Lemma counted_statements ss a : counted a → counted (fold_left visit_statement ss a).
Proof.
  intros H.
  destruct (statements_report_only ss) with (a := a) as (new & Hn).
  { apply Forall_forall. intros s _. apply statement_reports_only. }
  specialize (Hn []). rewrite Errors_nil in Hn. rewrite Hn. by apply counted_Errors.
Qed.

Lemma counted_undefined_struct_check a node guard message l :
  counted a → counted (undefined_struct_check a node guard message l).
Proof.
  intros H. unfold undefined_struct_check. repeat case_match; try done.
  by apply counted_Error.
Qed.

Lemma counted_define t name value l a : counted a → counted (define t name value l a).2.
Proof. intros H. unfold define. case_match; [by apply counted_Error|done]. Qed.

Lemma counted_visit_fields name fs :
  ∀ acc, counted acc.2 → counted (fold_left (visit_field name) fs acc).2.
Proof.
  induction fs as [|f fs IH]; intros [seen a] H; cbn [fold_left]; [done|].
  apply IH. unfold visit_field. cbn [snd] in H.
  case_bool_decide; cbn [snd]; apply counted_undefined_struct_check; try done.
  by apply counted_Error.
Qed.

Lemma counted_visit_struct a t : counted a → counted (visit_struct a t).
Proof.
  intros H. unfold visit_struct, visit_type_declaration.
  apply counted_visit_fields. cbn [snd]. unfold register_struct.
  case_match; [by apply counted_Error|done].
Qed.

Lemma counted_visit_type a t : counted a → counted (visit_type a t).
Proof. intros H. unfold visit_type. repeat case_match; try done. by apply counted_Error. Qed.

Lemma counted_visit_global a d : counted a → counted (visit_global a d).
Proof.
  intros H. unfold visit_global.
  assert (counted match lookup_local (globals a) (decl_name d) with
                  | Some _ => Error a ("Duplicate global '" +:+ decl_name d +:+ "'")
                                (decl_linenum d)
                  | None =>
                      let '(t, a0) := define (globals a) (decl_name d) d
                                        (decl_linenum d) a in
                      set_globals a0 t
                  end) as H1.
  { case_match; [by apply counted_Error|].
    pose proof (counted_define (globals a) (decl_name d) d (decl_linenum d) a H) as H'.
    by destruct (define (globals a) (decl_name d) d (decl_linenum d) a). }
  apply counted_visit_type, counted_undefined_struct_check. exact H1.
Qed.

Lemma counted_register_function a f : counted a → counted (register_function a f).
Proof.
  intros H. unfold register_function. case_match; [by apply counted_Error|done].
Qed.

Lemma counted_declare_params ps :
  ∀ acc, counted acc.2 → counted (fold_left declare_param ps acc).2.
Proof.
  induction ps as [|p ps IH]; intros [scope a] H; cbn [fold_left]; [done|].
  apply IH. unfold declare_param. cbn [snd] in H.
  destruct (lookup_local scope (decl_name p)).
  - cbn [snd]. apply counted_undefined_struct_check. by apply counted_Error.
  - pose proof (counted_define scope (decl_name p) p (decl_linenum p) a H) as H'.
    destruct (define scope (decl_name p) p (decl_linenum p) a). cbn [snd] in *.
    by apply counted_undefined_struct_check.
Qed.

Lemma counted_declare_locals ps :
  ∀ acc, counted acc.2 → counted (fold_left declare_local ps acc).2.
Proof.
  induction ps as [|p ps IH]; intros [scope a] H; cbn [fold_left]; [done|].
  apply IH. unfold declare_local. cbn [snd] in H.
  destruct (lookup_local scope (decl_name p)).
  - cbn [snd]. apply counted_undefined_struct_check. by apply counted_Error.
  - pose proof (counted_define scope (decl_name p) p (decl_linenum p) a H) as H'.
    destruct (define scope (decl_name p) p (decl_linenum p) a). cbn [snd] in *.
    by apply counted_undefined_struct_check.
Qed.

(** [visit_function] as entry, body, return check and scope restore. *)
Lemma visit_function_stages a func :
  visit_function a func =
  let a5 := return_check (fold_left visit_statement (func_body func) (body_entry a func))
              func in
  set_scope a5 (function_scopes a5) (current_scope a) (current_function a).
Proof.
  unfold visit_function, body_entry.
  destruct (fold_left declare_param _ _) as [s1 a1].
  by destruct (fold_left declare_local _ _) as [s2 a2].
Qed.

Lemma counted_body_entry a func : counted a → counted (body_entry a func).
Proof.
  intros H. unfold body_entry.
  set (scope0 := mkSymbolTable _ _ _).
  set (a1 := set_scope a _ _ _).
  pose proof (counted_declare_params (func_params func) (scope0, a1) H) as H1.
  destruct (fold_left declare_param _ _) as [s1 a2].
  pose proof (counted_declare_locals (func_locals func) (s1, a2) H1) as H2.
  by destruct (fold_left declare_local _ _) as [s2 a3].
Qed.

Lemma counted_return_check a func : counted a → counted (return_check a func).
Proof.
  intros H. unfold return_check.
  destruct (last (func_body func)) as [[]|]; repeat case_match;
    try done; try (by apply counted_Error).
  all: match goal with
       | E : _expr_type ?a0 ?e = (_, ?a') |- _ =>
           pose proof (counted_expr a0 e H) as H'; rewrite E in H'; cbn [snd] in H'
       end; try done; by apply counted_Error.
Qed.

Lemma counted_visit_function a func : counted a → counted (visit_function a func).
Proof.
  intros H. rewrite visit_function_stages. cbv zeta.
  assert (counted (return_check
            (fold_left visit_statement (func_body func) (body_entry a func)) func)) as H1.
  { apply counted_return_check, counted_statements. by apply counted_body_entry. }
  exact H1.
Qed.

Lemma counted_check_main a : counted a → counted (check_main a).
Proof.
  intros H. unfold check_main. repeat case_match; try done;
    repeat apply counted_Error; done.
Qed.

Lemma counted_fold {A} (step : SemanticAnalyzer → A → SemanticAnalyzer) xs :
  (∀ a x, counted a → counted (step a x)) →
  ∀ a, counted a → counted (fold_left step xs a).
Proof.
  intros Hstep. induction xs as [|x xs IH]; intros a H; cbn [fold_left]; [done|].
  by apply IH, Hstep.
Qed.

Lemma counted_visit_program program : counted (visit_program init program).
Proof.
  unfold visit_program. apply counted_check_main.
  apply counted_fold; [apply counted_visit_function|].
  apply counted_fold; [apply counted_register_function|].
  apply counted_fold; [apply counted_visit_global|].
  apply counted_fold; [apply counted_visit_struct|]. reflexivity.
Qed.

(** X2. The count [analyze] returns is the number of diagnostics
    printed during the pass: every report is counted once and nothing
    else touches the counter. *)
Theorem analyze_counts_diagnostics (program : Program) :
  analyze program = Z.of_nat (length (diagnostics (visit_program init program))).
Proof. apply counted_visit_program. Qed.

(** *** Calls with the wrong number of arguments *)

Lemma new_diagnostics_Errors a ds : new_diagnostics a (Errors a ds) = ds.
Proof. apply new_diagnostics_app, diagnostics_Errors. Qed.

(** One turn of the argument loop: what it reports does not depend on
    what was reported before, and is what typing the argument reports
    followed by the verdict of the per-position check. *)
Lemma position_diagnostics_turn a arg p :
  (∀ pre,
     (let '(at_, a1) := _expr_type (Errors a pre) arg in
      check_argument a1 at_ (Type_ a1 (decl_type p)) (expr_linenum arg))
     = Errors a (pre ++ position_diagnostics a arg p))
  ∧ position_diagnostics a arg p
    = new_diagnostics a (_expr_type a arg).2
      ++ match (_expr_type a arg).1, Type_ a (decl_type p) with
         | Some at_, Some pt =>
             if bool_decide (at_ = NULL) && negb (_is_struct pt)
             then [("Cannot pass null to non-struct", expr_linenum arg)]
             else if bool_decide (at_ ≠ pt) && bool_decide (at_ ≠ NULL)
             then [("Argument type mismatch", expr_linenum arg)]
             else []
         | _, _ => []
         end.
Proof.
  destruct (expr_reports_only arg a) as (t & n1 & H1).
  destruct (check_argument_reports t (Type_ a (decl_type p)) (expr_linenum arg))
    as (n2 & H2).
  pose proof (H1 []) as H10. rewrite Errors_nil in H10. cbn [app] in H10.
  assert (position_diagnostics a arg p = n1 ++ n2) as Hpos.
  { unfold position_diagnostics. rewrite H10, Type__Errors, H2.
    apply new_diagnostics_Errors. }
  split.
  - intros pre. rewrite H1, Type__Errors, H2, Hpos. by rewrite <- app_assoc.
  - rewrite Hpos, H10. cbn [fst snd]. rewrite new_diagnostics_Errors. f_equal.
    pose proof (H2 a []) as H20. rewrite Errors_nil in H20. cbn [app] in H20.
    unfold check_argument in H20.
    destruct t as [at_|], (Type_ a (decl_type p)) as [pt|];
      repeat case_match; rewrite ?Error_Errors in H20;
      apply (f_equal (new_diagnostics a)) in H20;
      rewrite ?new_diagnostics_Errors in H20;
      rewrite <- H20; try reflexivity;
      apply (new_diagnostics_Errors a []).
Qed.

Lemma check_arguments_positions args :
  ∀ ps a pre,
    check_arguments (Errors a pre) args ps
    = Errors a (pre ++ concat (zip_with (position_diagnostics a) args ps)).
Proof.
  induction args as [|arg args IH]; intros ps a pre.
  - cbn. by rewrite app_nil_r.
  - destruct ps as [|p ps]; [cbn; by rewrite app_nil_r|].
    cbn [check_arguments zip_with concat].
    destruct (position_diagnostics_turn a arg p) as [Hturn _].
    specialize (Hturn pre).
    destruct (_expr_type (Errors a pre) arg) as [at_ a1]. rewrite Hturn, IH.
    by rewrite <- app_assoc.
Qed.

Lemma concat_zip_nil {A B C} (f : A → B → list C) (l : list A) (k : list B) :
  concat (zip_with f l k) = [] ↔ Forall (λ p, f p.1 p.2 = []) (zip l k).
Proof.
  revert k. induction l as [|x l IH]; intros k; [by split|].
  destruct k as [|y k]; [by split|]. cbn [zip_with concat].
  change (zip (x :: l) (y :: k)) with ((x, y) :: zip l k).
  rewrite Forall_cons, <- IH. cbn [fst snd]. split.
  - intros H. by apply app_eq_nil in H.
  - intros [-> ->]. done.
Qed.

(** C5, as the code has it. A call whose argument count differs from
    the callee's parameter count reports the wrong number of arguments
    once, first, and then goes on to check the arguments: for each
    position that lines up with a parameter, in order, it reports what
    typing the argument reports and then the verdict of the
    per-position type check (a null passed for a non-struct parameter,
    or a type that differs from the parameter's).  So the call reports
    nothing else if and only if no position that lines up reports
    anything. *)
Theorem wrong_argument_count (a : SemanticAnalyzer) (ln : Z) (fname : string)
    (args : list expression) (fn : Function) :
  functions a !! fname = Some fn →
  length args ≠ length (func_params fn) →
  let wrong := ("Wrong number of arguments to '" +:+ fname +:+ "'", ln) in
  let of_call :=
    new_diagnostics a (_expr_type a (InvocationExpression ln fname args)).2 in
  of_call = wrong :: concat (zip_with (position_diagnostics a) args (func_params fn))
  ∧ (∀ arg p,
       position_diagnostics a arg p
       = new_diagnostics a (_expr_type a arg).2
         ++ match (_expr_type a arg).1, Type_ a (decl_type p) with
            | Some at_, Some pt =>
                if bool_decide (at_ = NULL) && negb (_is_struct pt)
                then [("Cannot pass null to non-struct", expr_linenum arg)]
                else if bool_decide (at_ ≠ pt) && bool_decide (at_ ≠ NULL)
                then [("Argument type mismatch", expr_linenum arg)]
                else []
            | _, _ => []
            end)
  ∧ (of_call = [wrong]
     ↔ Forall (λ p, position_diagnostics a p.1 p.2 = [])
         (zip args (func_params fn))).
Proof.
  intros Hfn Hlen. cbv zeta.
  assert (new_diagnostics a (_expr_type a (InvocationExpression ln fname args)).2
          = ("Wrong number of arguments to '" +:+ fname +:+ "'", ln)
            :: concat (zip_with (position_diagnostics a) args (func_params fn))) as Hcall.
  { rewrite _expr_type_invocation, Hfn. cbv zeta.
    rewrite bool_decide_eq_true_2 by done. cbn [snd].
    rewrite Error_Errors, check_arguments_positions. apply new_diagnostics_Errors. }
  split_and!; [exact Hcall|intros arg p; apply position_diagnostics_turn|].
  rewrite Hcall, <- concat_zip_nil. split.
  - by intros [= ->].
  - by intros ->.
Qed.

(** [pick(null)] against [pick(int a, int b)]. *)
Lemma wrong_argument_count_witness :
  new_diagnostics pick_registered
    (_expr_type pick_registered
       (InvocationExpression 11 "pick" [NullExpression 11])).2
  = [("Wrong number of arguments to 'pick'", 11);
     ("Cannot pass null to non-struct", 11)].
Proof.
  destruct (wrong_argument_count pick_registered 11 "pick" [NullExpression 11] pick)
    as [H _]; [reflexivity|cbn; lia|exact H].
Defined.

(** *** Struct types handed out by the analyzer *)

Lemma Type__struct_registered a n s :
  Type_ a n = Some (STRUCT s) → is_Some (structs a !! s).
Proof. destruct n; cbn; try done. case_match; [|done]. intros [= <-]. eauto. Qed.

Lemma Type_ret_struct_registered a r s :
  Type_ret a r = Some (STRUCT s) → is_Some (structs a !! s).
Proof. destruct r; cbn; [done|]. apply Type__struct_registered. Qed.

Lemma unary_rule_not_struct a op t l s : (unary_rule a op t l).1 ≠ Some (STRUCT s).
Proof. unfold unary_rule. by repeat case_match. Qed.

Lemma binary_rule_not_struct a op t1 t2 l s :
  (binary_rule a op t1 t2 l).1 ≠ Some (STRUCT s).
Proof. unfold binary_rule. by repeat case_match. Qed.

(** X3. A struct type the analyzer assigns to an expression always
    names a registered struct; in particular the lookup of that
    struct's declaration in [visit_dot_expression] cannot miss. *)
Theorem resolved_struct_is_registered (a : SemanticAnalyzer) (e : expression)
    (s : string) :
  (_expr_type a e).1 = Some (STRUCT s) → is_Some (structs a !! s).
Proof.
  destruct e as [l v|l|l|l|l|l x|l e x|l op e|l op e1 e2|l f args|l x].
  1-5: done.
  - cbn [_expr_type]. case_match; [|done]. apply Type__struct_registered.
  - cbn [_expr_type].
    destruct (expr_reports_only_at a e) as (t & new & ->).
    repeat case_match; try done. cbn [fst]. intros Hty.
    apply Type__struct_registered in Hty. by rewrite structs_Errors in Hty.
  - cbn [_expr_type]. destruct (_expr_type a e) as [[t|] a1]; [|done].
    intros Hty. by apply unary_rule_not_struct in Hty.
  - cbn [_expr_type]. destruct (_expr_type a e1) as [t1 a1].
    destruct (_expr_type a1 e2) as [t2 a2]. destruct t1, t2; try done.
    intros Hty. by apply binary_rule_not_struct in Hty.
  - rewrite _expr_type_invocation. case_match; [|done]. cbv zeta. cbn [fst].
    assert (Forall (λ e, ∀ a, ∃ t new, ∀ pre,
              _expr_type (Errors a pre) e = (t, Errors a (pre ++ new))) args) as Hall.
    { apply Forall_forall. intros e _. apply expr_reports_only. }
    match goal with |- context [check_arguments ?a0 args ?params] =>
      destruct (check_arguments_reports args Hall params a) as (new & Hn)
    end.
    case_bool_decide.
    + rewrite Error_Errors, Hn. intros Hty.
      apply Type_ret_struct_registered in Hty. by rewrite structs_Errors in Hty.
    + specialize (Hn []). rewrite Errors_nil in Hn. rewrite Hn. intros Hty.
      apply Type_ret_struct_registered in Hty. by rewrite structs_Errors in Hty.
  - cbn [_expr_type]. case_match eqn:E; [|done]. intros [= <-]. eauto.
Qed.

Lemma resolved_struct_is_registered_witness :
  is_Some (structs (register_struct init struct_B) !! "B").
Proof.
  apply (resolved_struct_is_registered (register_struct init struct_B)
           (NewExpression 1 "B") "B").
  reflexivity.
Defined.

(** *** Duplicate declarations *)

Lemma register_functions_first fs :
  ∀ a n,
    functions (fold_left register_function fs a) !! n =
    match functions a !! n with
    | Some f => Some f
    | None => first_function n fs
    end.
Proof.
  induction fs as [|f fs IH]; intros a n; cbn [fold_left first_function find].
  - by destruct (functions a !! n).
  - rewrite IH. unfold register_function.
    destruct (functions a !! func_name f) as [g|] eqn:E; cbn [functions Error set_functions].
    + destruct (functions a !! n) eqn:En; [done|].
      destruct (String.eqb_spec (func_name f) n) as [Heq|]; [congruence|done].
    + destruct (String.eqb_spec (func_name f) n) as [<-|Hne].
      * by rewrite lookup_insert_eq, E.
      * rewrite lookup_insert_ne by done. by destruct (functions a !! n).
Qed.

Lemma register_functions_reports fs :
  ∀ a, ∃ new,
    diagnostics (fold_left register_function fs a) = diagnostics a ++ new
    ∧ (length new + size (functions (fold_left register_function fs a))
       = size (functions a) + length fs)%nat
    ∧ Forall (λ d, ∃ f, f ∈ fs
                 ∧ d = ("Duplicate function '" +:+ func_name f +:+ "'", func_linenum f))
        new.
Proof.
  induction fs as [|f fs IH]; intros a; cbn [fold_left].
  - exists []. rewrite app_nil_r. split_and!; [done|cbn; lia|done].
  - destruct (IH (register_function a f)) as (new & D & N & F).
    assert (Forall (λ d, ∃ f0, f0 ∈ f :: fs
              ∧ d = ("Duplicate function '" +:+ func_name f0 +:+ "'", func_linenum f0))
              new) as F'.
    { eapply Forall_impl; [exact F|]. intros d (f0 & Hin & ->). exists f0.
      split; [by right|done]. }
    unfold register_function in *.
    destruct (functions a !! func_name f) as [g|] eqn:E.
    + eexists (_ :: new). rewrite D. cbn [diagnostics Error functions] in *.
      rewrite <- app_assoc. split_and!; [done|cbn [length]; lia|].
      apply Forall_cons. split; [|done]. exists f. split; [by left|done].
    + exists new. rewrite D. cbn [diagnostics set_functions functions] in *.
      rewrite map_size_insert_None in N by done.
      split_and!; [done|cbn [length]; lia|done].
Qed.

(** X4. Registering the functions of a program keeps, for each name,
    the first function declared with it; every later function of that
    name is reported once as a duplicate and is not registered.  So
    each function is either registered or reported. *)
Theorem first_function_wins (a : SemanticAnalyzer) (fs : list Function) :
  let a' := fold_left register_function fs a in
  (∀ n, functions a' !! n = match functions a !! n with
                            | Some f => Some f
                            | None => first_function n fs
                            end)
  ∧ (length (new_diagnostics a a') + size (functions a')
     = size (functions a) + length fs)%nat
  ∧ Forall (λ d, ∃ f, f ∈ fs
               ∧ d = ("Duplicate function '" +:+ func_name f +:+ "'", func_linenum f))
      (new_diagnostics a a').
Proof.
  cbv zeta. destruct (register_functions_reports fs a) as (new & D & N & F).
  rewrite (new_diagnostics_app _ _ _ D). split_and!; try done.
  apply register_functions_first.
Qed.

Lemma structs_visit_struct a t :
  structs (visit_struct a t) = structs (register_struct a t).
Proof.
  unfold visit_struct, visit_type_declaration. by rewrite structs_visit_fields.
Qed.

Lemma structs_visit_type a t : structs (visit_type a t) = structs a.
Proof. unfold visit_type. by repeat case_match. Qed.

Lemma globals_undefined_struct_check a node guard message l :
  globals (undefined_struct_check a node guard message l) = globals a.
Proof. unfold undefined_struct_check. by repeat case_match. Qed.

Lemma globals_visit_type a t : globals (visit_type a t) = globals a.
Proof. unfold visit_type. by repeat case_match. Qed.

Lemma visit_structs_first ts :
  ∀ a n, structs (fold_left visit_struct ts a) !! n =
         match structs a !! n with
         | Some t => Some t
         | None => first_struct n ts
         end.
Proof.
  induction ts as [|t ts IH]; intros a n; cbn [fold_left first_struct find].
  - by destruct (structs a !! n).
  - rewrite IH, structs_visit_struct. unfold register_struct.
    destruct (structs a !! tdecl_name t) as [g|] eqn:E; cbn [structs Error set_structs].
    + destruct (structs a !! n) eqn:En; [done|].
      destruct (String.eqb_spec (tdecl_name t) n) as [Heq|]; [congruence|done].
    + destruct (String.eqb_spec (tdecl_name t) n) as [<-|Hne].
      * by rewrite lookup_insert_eq, E.
      * rewrite lookup_insert_ne by done. by destruct (structs a !! n).
Qed.

Lemma visit_globals_first ds :
  ∀ a n, lookup_local (globals (fold_left visit_global ds a)) n =
         match lookup_local (globals a) n with
         | Some d => Some d
         | None => first_named n ds
         end.
Proof.
  induction ds as [|d ds IH]; intros a n; cbn [fold_left first_named find].
  - by destruct (lookup_local (globals a) n).
  - rewrite IH. unfold visit_global.
    rewrite globals_visit_type, globals_undefined_struct_check.
    unfold lookup_local, define.
    destruct (symbols (globals a) !! decl_name d) as [g|] eqn:E;
      cbn [globals Error set_globals symbols].
    + destruct (symbols (globals a) !! n) eqn:En; [done|].
      destruct (String.eqb_spec (decl_name d) n) as [Heq|]; [congruence|done].
    + destruct (String.eqb_spec (decl_name d) n) as [<-|Hne].
      * by rewrite lookup_insert_eq, E.
      * rewrite lookup_insert_ne by done. by destruct (symbols (globals a) !! n).
Qed.

(** X5. The struct registry and the global scope keep the first
    declaration of each name: a later struct or global with a name
    already taken never replaces it. *)
Theorem first_declaration_wins (a : SemanticAnalyzer) (ts : list TypeDeclaration)
    (ds : list Declaration) :
  (∀ n, structs (fold_left visit_struct ts a) !! n =
        match structs a !! n with
        | Some t => Some t
        | None => first_struct n ts
        end)
  ∧ (∀ n, lookup_local (globals (fold_left visit_global ds a)) n =
          match lookup_local (globals a) n with
          | Some d => Some d
          | None => first_named n ds
          end).
Proof.
  split; intros n; [apply visit_structs_first|apply visit_globals_first].
Qed.

(** *** The scope of a function body *)

Lemma first_named_app x ds1 ds2 :
  first_named x (ds1 ++ ds2) =
  match first_named x ds1 with
  | Some d => Some d
  | None => first_named x ds2
  end.
Proof.
  unfold first_named. induction ds1 as [|d ds1 IH]; cbn [app find]; [done|].
  destruct (String.eqb (decl_name d) x); [done|apply IH].
Qed.

Lemma lookupTable_unfold t x :
  lookupTable t x =
  match symbols t !! x with
  | Some d => Some d
  | None => match parent t with
            | Some q => lookupTable q x
            | None => None
            end
  end.
Proof. by destruct t. Qed.

(** What either declaration loop does to the scope under construction
    and to the registries. *)
Lemma declare_step_scope (step : SymbolTable * SemanticAnalyzer → Declaration
                                 → SymbolTable * SemanticAnalyzer) :
  (∀ scope a p,
     parent (step (scope, a) p).1 = parent scope
     ∧ (∀ x, symbols (step (scope, a) p).1 !! x =
             match symbols scope !! x with
             | Some d => Some d
             | None => first_named x [p]
             end)
     ∧ same_context a (step (scope, a) p).2) →
  ∀ ps scope a,
    parent (fold_left step ps (scope, a)).1 = parent scope
    ∧ (∀ x, symbols (fold_left step ps (scope, a)).1 !! x =
            match symbols scope !! x with
            | Some d => Some d
            | None => first_named x ps
            end)
    ∧ same_context a (fold_left step ps (scope, a)).2.
Proof.
  intros Hstep. induction ps as [|p ps IH]; intros scope a; cbn [fold_left].
  - cbn [fst snd]. split_and!; [done| |by repeat split].
    intros x. by destruct (symbols scope !! x).
  - destruct (Hstep scope a p) as (Hp & Hs & Hc).
    destruct (step (scope, a) p) as [scope1 a1]. cbn [fst snd] in *.
    destruct (IH scope1 a1) as (Hp' & Hs' & Hc').
    split_and!.
    + congruence.
    + intros x. rewrite Hs', Hs. change (p :: ps) with ([p] ++ ps).
      rewrite first_named_app. by repeat case_match.
    + destruct Hc as (? & ? & ? & ? & ? & ?), Hc' as (? & ? & ? & ? & ? & ?).
      repeat split; congruence.
Qed.

Lemma same_context_undefined_struct_check a node guard message l :
  same_context a (undefined_struct_check a node guard message l).
Proof. unfold undefined_struct_check. by repeat case_match. Qed.

Lemma declare_param_scope scope a p :
  parent (declare_param (scope, a) p).1 = parent scope
  ∧ (∀ x, symbols (declare_param (scope, a) p).1 !! x =
          match symbols scope !! x with
          | Some d => Some d
          | None => first_named x [p]
          end)
  ∧ same_context a (declare_param (scope, a) p).2.
Proof.
  unfold declare_param, lookup_local, define, first_named. cbn [find].
  destruct (symbols scope !! decl_name p) as [d0|] eqn:E; cbn [fst snd parent symbols].
  - split_and!; [done| |].
    + intros x. destruct (symbols scope !! x) eqn:Ex; [done|].
      destruct (String.eqb_spec (decl_name p) x) as [Heq|]; [congruence|done].
    + unfold undefined_struct_check. by repeat case_match.
  - split_and!; [by destruct scope| |apply same_context_undefined_struct_check].
    intros x. destruct (String.eqb_spec (decl_name p) x) as [<-|Hne].
    + by rewrite lookup_insert_eq, E.
    + rewrite lookup_insert_ne by done. by destruct (symbols scope !! x).
Qed.

Lemma declare_local_scope scope a p :
  parent (declare_local (scope, a) p).1 = parent scope
  ∧ (∀ x, symbols (declare_local (scope, a) p).1 !! x =
          match symbols scope !! x with
          | Some d => Some d
          | None => first_named x [p]
          end)
  ∧ same_context a (declare_local (scope, a) p).2.
Proof.
  unfold declare_local, lookup_local, define, first_named. cbn [find].
  destruct (symbols scope !! decl_name p) as [d0|] eqn:E; cbn [fst snd parent symbols].
  - split_and!; [done| |].
    + intros x. destruct (symbols scope !! x) eqn:Ex; [done|].
      destruct (String.eqb_spec (decl_name p) x) as [Heq|]; [congruence|done].
    + unfold undefined_struct_check. by repeat case_match.
  - split_and!; [by destruct scope| |apply same_context_undefined_struct_check].
    intros x. destruct (String.eqb_spec (decl_name p) x) as [<-|Hne].
    + by rewrite lookup_insert_eq, E.
    + rewrite lookup_insert_ne by done. by destruct (symbols scope !! x).
Qed.

(** The analyzer at the start of a body: the registries of [a], the
    function current, and a scope resolving a name to its first
    declaration among the parameters and locals, else as [a]'s global
    table does. *)
Lemma body_entry_spec a func :
  globals (body_entry a func) = globals a
  ∧ functions (body_entry a func) = functions a
  ∧ structs (body_entry a func) = structs a
  ∧ current_function (body_entry a func) = Some func
  ∧ ∀ x, lookup_current (body_entry a func) x =
         match first_named x (func_params func ++ func_locals func) with
         | Some d => Some d
         | None => lookupTable (globals a) x
         end.
Proof.
  unfold body_entry.
  set (scope0 := mkSymbolTable _ _ _). set (a1 := set_scope a _ _ _).
  destruct (declare_step_scope declare_param declare_param_scope
              (func_params func) scope0 a1) as (P1 & S1 & C1).
  destruct (fold_left declare_param _ _) as [scope1 a2]. cbn [fst snd] in *.
  destruct (declare_step_scope declare_local declare_local_scope
              (func_locals func) scope1 a2) as (P2 & S2 & C2).
  destruct (fold_left declare_local _ _) as [scope2 a3]. cbn [fst snd] in *.
  destruct C1 as (G1 & F1 & T1 & _), C2 as (G2 & F2 & T2 & _).
  cbn [globals functions structs current_function set_scope].
  split_and!; try (by etrans; [eassumption|]); [done|].
  intros x. unfold lookup_current. cbn [current_scope set_scope].
  rewrite lookupTable_unfold, S2, S1, P2, P1, first_named_app. cbn.
  rewrite lookup_empty. by repeat case_match.
Qed.

(** X6. Inside a function body a name resolves to the first parameter
    or local declared with it, and only when there is none to the
    global of that name: locals shadow globals.  The body's statements
    never change this resolution. *)
Theorem body_scope_shadows_globals (a : SemanticAnalyzer) (func : Function)
    (x : string) (stmts : list statement) :
  lookup_current (fold_left visit_statement stmts (body_entry a func)) x =
  match first_named x (func_params func ++ func_locals func) with
  | Some d => Some d
  | None => lookupTable (globals a) x
  end.
Proof.
  destruct (body_entry_spec a func) as (_ & _ & _ & _ & <-).
  destruct (statements_report_only stmts) with (a := body_entry a func) as (new & Hn).
  { apply Forall_forall. intros s _. apply statement_reports_only. }
  specialize (Hn []). rewrite Errors_nil in Hn. rewrite Hn.
  apply lookup_current_Errors.
Qed.

(** *** The entry point *)

Lemma functions_undefined_struct_check a node guard message l :
  functions (undefined_struct_check a node guard message l) = functions a.
Proof. unfold undefined_struct_check. by repeat case_match. Qed.

Lemma functions_visit_fields name fs :
  ∀ acc, functions (fold_left (visit_field name) fs acc).2 = functions acc.2.
Proof.
  induction fs as [|f fs IH]; intros [seen a]; cbn [fold_left]; [done|].
  rewrite IH. unfold visit_field.
  case_bool_decide; cbn [snd]; by rewrite functions_undefined_struct_check.
Qed.

Lemma functions_visit_struct a t : functions (visit_struct a t) = functions a.
Proof.
  unfold visit_struct, visit_type_declaration. rewrite functions_visit_fields.
  cbn [snd]. unfold register_struct. by case_match.
Qed.

Lemma functions_visit_global a d : functions (visit_global a d) = functions a.
Proof.
  unfold visit_global, visit_type, define, lookup_local.
  repeat case_match; simplify_eq; cbn [functions Error];
    by rewrite functions_undefined_struct_check; repeat case_match; simplify_eq.
Qed.

Lemma functions_return_check a func : functions (return_check a func) = functions a.
Proof.
  unfold return_check.
  destruct (last (func_body func)) as [[]|]; repeat case_match; try done.
  all: match goal with
       | E : _expr_type ?a0 ?e = (_, ?a') |- _ =>
           destruct (expr_reports_only_at a0 e) as (t' & new & E');
           rewrite E' in E; simplify_eq
       end; cbn [functions Error]; by rewrite functions_Errors.
Qed.

Lemma functions_visit_function a func : functions (visit_function a func) = functions a.
Proof.
  rewrite visit_function_stages. cbv zeta. cbn [functions set_scope].
  rewrite functions_return_check.
  destruct (statements_report_only (func_body func)) with (a := body_entry a func)
    as (new & Hn).
  { apply Forall_forall. intros s _. apply statement_reports_only. }
  specialize (Hn []). rewrite Errors_nil in Hn. rewrite Hn, functions_Errors.
  apply body_entry_spec.
Qed.

Lemma functions_fold {A} (step : SemanticAnalyzer → A → SemanticAnalyzer) xs :
  (∀ a x, functions (step a x) = functions a) →
  ∀ a, functions (fold_left step xs a) = functions a.
Proof.
  intros Hstep. induction xs as [|x xs IH]; intros a; cbn [fold_left]; [done|].
  by rewrite IH, Hstep.
Qed.

(** The registry [check_main] consults holds the first function of
    each name in the program. *)
Lemma functions_before_check_main program n :
  functions (fold_left visit_function (prog_functions program)
               (fold_left register_function (prog_functions program)
                  (fold_left visit_global (prog_declarations program)
                     (fold_left visit_struct (prog_types program) init)))) !! n
  = first_function n (prog_functions program).
Proof.
  rewrite (functions_fold visit_function) by apply functions_visit_function.
  rewrite register_functions_first.
  rewrite (functions_fold visit_global) by apply functions_visit_global.
  rewrite (functions_fold visit_struct) by apply functions_visit_struct.
  done.
Qed.

(** X7. A program none of whose functions is named [main] is rejected:
    the last diagnostic of the pass reports the missing entry point and
    the error count is positive. *)
Theorem missing_main_rejected (program : Program) :
  Forall (λ f, func_name f ≠ "main") (prog_functions program) →
  last (diagnostics (visit_program init program))
  = Some ("Main() function id missing", 0)
  ∧ 0 < analyze program.
Proof.
  intros Hno.
  assert (first_function "main" (prog_functions program) = None) as Hfirst.
  { unfold first_function. induction Hno as [|f fs Hf _ IH]; [done|].
    cbn [find]. by apply String.eqb_neq in Hf as ->. }
  assert (last (diagnostics (visit_program init program))
          = Some ("Main() function id missing", 0)) as Hlast.
  { unfold visit_program, check_main.
    rewrite functions_before_check_main, Hfirst. cbn [diagnostics Error].
    apply last_snoc. }
  split; [done|]. unfold analyze. rewrite (counted_visit_program program).
  destruct (diagnostics (visit_program init program)); [done|]. cbn [length]. lia.
Qed.

Lemma missing_main_rejected_witness :
  last (diagnostics (visit_program init (mkProgram [] [] [pick])))
  = Some ("Main() function id missing", 0)
  ∧ 0 < analyze (mkProgram [] [] [pick]).
Proof.
  apply (missing_main_rejected (mkProgram [] [] [pick])).
  apply Forall_cons. split; [discriminate|apply Forall_nil_2].
Defined.

(** *** The return check *)

(** X8. When the body of a function ends in [return e;], [e] is checked
    twice, by the statement visitor and again by the check on the last
    statement of the body, so every diagnostic of [e] is printed twice,
    whatever [e] is.  Each of the two checks then adds its own verdict
    on the return type: the statement visitor reports a value returned
    from a void function whether or not [e] has a type, the last check
    only when it has one; both report a type of [e] that does not match
    a non-void declared type. *)
Theorem trailing_return_checked_twice (a : SemanticAnalyzer) (func : Function)
    (l : Z) (e : expression) :
  current_function a = Some func →
  last (func_body func) = Some (ReturnStatement l e) →
  let declared := Type_ret a (func_ret_type func) in
  let t := (_expr_type a e).1 in
  let of_e := new_diagnostics a (_expr_type a e).2 in
  let by_statement :=
    if bool_decide (declared = Some VOID)
    then [(" a Void function cannot return value", l)]
    else match t with
         | Some _ =>
             if _types_match declared t then [] else [("Return type mismatch", l)]
         | None => []
         end in
  let by_last_check :=
    match t with
    | Some _ =>
        if bool_decide (declared = Some VOID)
        then [("Void function cannot return value", l)]
        else if _types_match declared t then [] else [("Return type mismatch", l)]
    | None => []
    end in
  new_diagnostics a (return_check (visit_statement a (ReturnStatement l e)) func)
  = of_e ++ by_statement ++ of_e ++ by_last_check.
Proof.
  intros Hcur Hlast.
  destruct (expr_reports_only e a) as (t & new & He).
  pose proof (He []) as He0. rewrite Errors_nil in He0. cbn [app] in He0.
  cbv zeta. rewrite He0. cbn [fst snd].
  rewrite (new_diagnostics_app a (Errors a new) new) by apply diagnostics_Errors.
  apply new_diagnostics_app.
  cbn [visit_statement]. unfold declared_type. rewrite Hcur, He0.
  unfold return_check. rewrite Hlast.
  destruct (bool_decide (Type_ret a (func_ret_type func) = Some VOID)) eqn:Ev.
  - errs. rewrite (He (new ++ [(" a Void function cannot return value", l)])).
    destruct t as [t|]; rewrite ?Ev; errs; rewrite diagnostics_Errors;
      by rewrite <- ?app_assoc, ?app_nil_r.
  - destruct t as [t|].
    + destruct (_types_match (Type_ret a (func_ret_type func)) (Some t)) eqn:Em.
      * errs. rewrite (He new).
        rewrite Ev, Em. rewrite diagnostics_Errors. by rewrite app_nil_r.
      * errs. rewrite (He (new ++ [("Return type mismatch", l)])).
        rewrite Ev, Em. errs. rewrite diagnostics_Errors.
        by rewrite <- ?app_assoc.
    + rewrite (He new). rewrite diagnostics_Errors. by rewrite app_nil_r.
Qed.

(** [fun flag() int { return !1; }]: the operand of [!] is not boolean,
    and the result is boolean where an int is declared. *)
Lemma trailing_return_checked_twice_witness :
  let flag := mkFunction 1 "flag" [] (ReturnTypeReal IntType) []
                [ReturnStatement 2 (UnaryExpression 2 "!" (IntegerExpression 2 1))] in
  new_diagnostics (body_entry init flag)
    (return_check
       (visit_statement (body_entry init flag)
          (ReturnStatement 2 (UnaryExpression 2 "!" (IntegerExpression 2 1)))) flag)
  = [(" requires boolean", 2); ("Return type mismatch", 2);
     (" requires boolean", 2); ("Return type mismatch", 2)].
Proof.
  intros flag.
  apply (trailing_return_checked_twice (body_entry init flag) flag 2
           (UnaryExpression 2 "!" (IntegerExpression 2 1))); reflexivity.
Defined.

(** *** Operator rules *)

(** X9. The rule for a binary operator treats its two operand types
    alike: exchanging them gives the same result type and the same
    diagnostic.  In particular comparing with [null] is accepted or
    rejected the same way on either side. *)
Theorem binary_rule_symmetric (a : SemanticAnalyzer) (op : string) (t1 t2 : ty) (l : Z) :
  binary_rule a op t1 t2 l = binary_rule a op t2 t1 l.
Proof.
  unfold binary_rule.
  destruct (mem op ["*"; "/"; "+"; "-"]).
  { destruct t1, t2; reflexivity. }
  destruct (mem op ["<"; ">"; "<="; ">="]).
  { destruct t1, t2; reflexivity. }
  destruct (mem op ["=="; "!="]).
  { destruct t1, t2; try reflexivity. cbn.
    repeat case_bool_decide; congruence. }
  destruct (mem op ["&&"; "||"]); [|done].
  destruct t1, t2; reflexivity.
Qed.

(** *** Passes without a report *)

Lemma errors_Errors a ds : errors (Errors a ds) = errors a + Z.of_nat (length ds).
Proof. apply Errors_fields. Qed.

Lemma errors_undefined_struct_check a node guard message l :
  (errors a ≤ errors (undefined_struct_check a node guard message l))%Z.
Proof. unfold undefined_struct_check. repeat case_match; cbn; lia. Qed.

Lemma errors_visit_type a t : (errors a ≤ errors (visit_type a t))%Z.
Proof. unfold visit_type. repeat case_match; cbn; lia. Qed.

Lemma errors_visit_fields name fs :
  ∀ acc, (errors acc.2 ≤ errors (fold_left (visit_field name) fs acc).2)%Z.
Proof.
  induction fs as [|f fs IH]; intros [seen a]; cbn [fold_left]; [done|].
  etrans; [|apply IH]. unfold visit_field. cbn [snd].
  case_bool_decide; cbn [snd].
  - etrans; [|apply errors_undefined_struct_check]. cbn. lia.
  - apply errors_undefined_struct_check.
Qed.

Lemma errors_visit_struct a t :
  (errors a ≤ errors (visit_struct a t))%Z
  ∧ (is_Some (structs a !! tdecl_name t) → (errors a < errors (visit_struct a t))%Z).
Proof.
  unfold visit_struct, visit_type_declaration.
  pose proof (errors_visit_fields (tdecl_name t) (tdecl_fields t)
                (∅, register_struct a t)) as H.
  cbn [snd] in H. unfold register_struct in *.
  destruct (structs a !! tdecl_name t) eqn:E; cbn [errors Error set_structs] in H.
  - split; [lia|]. intros _. lia.
  - split; [done|]. by intros [? ?].
Qed.

Lemma errors_visit_global a d :
  (errors a ≤ errors (visit_global a d))%Z
  ∧ (is_Some (lookup_local (globals a) (decl_name d)) →
     (errors a < errors (visit_global a d))%Z).
Proof.
  unfold visit_global, define, lookup_local.
  destruct (symbols (globals a) !! decl_name d) eqn:E.
  - match goal with |- context [visit_type ?x _] =>
      pose proof (errors_visit_type x (decl_type d)) as H1 end.
    match type of H1 with context [undefined_struct_check ?x ?n ?gd ?m ?l] =>
      pose proof (errors_undefined_struct_check x n gd m l) as H2 end.
    cbn [errors Error] in H2. split; [lia|]. intros _. lia.
  - match goal with |- context [visit_type ?x _] =>
      pose proof (errors_visit_type x (decl_type d)) as H1 end.
    match type of H1 with context [undefined_struct_check ?x ?n ?gd ?m ?l] =>
      pose proof (errors_undefined_struct_check x n gd m l) as H2 end.
    cbn [errors set_globals] in H2. split; [lia|]. by intros [? ?].
Qed.

Lemma errors_register_function a f : (errors a ≤ errors (register_function a f))%Z.
Proof. unfold register_function. case_match; cbn; lia. Qed.

Lemma errors_declare_param scope a p :
  (errors a ≤ errors (declare_param (scope, a) p).2)%Z
  ∧ (is_Some (symbols scope !! decl_name p) →
     (errors a < errors (declare_param (scope, a) p).2)%Z).
Proof.
  unfold declare_param, define, lookup_local.
  destruct (symbols scope !! decl_name p) eqn:E; cbn [snd].
  - match goal with |- context [undefined_struct_check ?x ?n ?gd ?m ?l] =>
      pose proof (errors_undefined_struct_check x n gd m l) as H end.
    cbn [errors Error] in H. split; [lia|]. intros _. lia.
  - split; [apply errors_undefined_struct_check|]. by intros [? ?].
Qed.

Lemma errors_declare_local scope a p :
  (errors a ≤ errors (declare_local (scope, a) p).2)%Z
  ∧ (is_Some (symbols scope !! decl_name p) →
     (errors a < errors (declare_local (scope, a) p).2)%Z).
Proof.
  unfold declare_local, define, lookup_local.
  destruct (symbols scope !! decl_name p) eqn:E; cbn [snd].
  - match goal with |- context [undefined_struct_check ?x ?n ?gd ?m ?l] =>
      pose proof (errors_undefined_struct_check x n gd m l) as H end.
    cbn [errors Error] in H. split; [lia|]. intros _. lia.
  - split; [apply errors_undefined_struct_check|]. by intros [? ?].
Qed.

Lemma errors_fold {A} (step : SemanticAnalyzer → A → SemanticAnalyzer) xs :
  (∀ a x, (errors a ≤ errors (step a x))%Z) →
  ∀ a, (errors a ≤ errors (fold_left step xs a))%Z.
Proof.
  intros Hstep. induction xs as [|x xs IH]; intros a; cbn [fold_left]; [done|].
  etrans; [apply (Hstep a x)|apply IH].
Qed.

Lemma errors_declare (step : SymbolTable * SemanticAnalyzer → Declaration
                            → SymbolTable * SemanticAnalyzer) ps :
  (∀ scope a p, (errors a ≤ errors (step (scope, a) p).2)%Z) →
  ∀ scope a, (errors a ≤ errors (fold_left step ps (scope, a)).2)%Z.
Proof.
  intros Hstep. induction ps as [|p ps IH]; intros scope a; cbn [fold_left]; [done|].
  pose proof (Hstep scope a p) as H1.
  destruct (step (scope, a) p) as [scope1 a1]. cbn [snd] in H1.
  etrans; [exact H1|apply IH].
Qed.

Lemma errors_check_main a : (errors a ≤ errors (check_main a))%Z.
Proof. unfold check_main. repeat case_match; cbn; lia. Qed.

Lemma return_check_reports a func : ∃ new, return_check a func = Errors a new.
Proof.
  unfold return_check.
  destruct (last (func_body func)) as [[]|].
  all: try (case_bool_decide; [rewrite Error_Errors; eexists; reflexivity|by exists []]).
  match goal with |- context [_expr_type a ?e] =>
    destruct (expr_reports_only_at a e) as (t & n1 & ->) end.
  destruct t as [t|]; [|by exists n1].
  repeat case_match; rewrite ?Error_Errors, <- ?Errors_app; eexists; reflexivity.
Qed.

(** [visit_function] once more: the body and the return check only
    report, and the scope is put back. *)
Lemma visit_function_reports a func :
  ∃ nb nr,
    fold_left visit_statement (func_body func) (body_entry a func)
    = Errors (body_entry a func) nb
    ∧ visit_function a func
      = set_scope (Errors (body_entry a func) (nb ++ nr))
          (function_scopes (body_entry a func)) (current_scope a) (current_function a).
Proof.
  destruct (statements_report_only (func_body func)
              (proj2 (Forall_forall _ _) (λ s _, statement_reports_only s))
              (body_entry a func)) as (nb & Hb).
  specialize (Hb []). change (Errors (body_entry a func) []) with (body_entry a func) in Hb.
  destruct (return_check_reports (Errors (body_entry a func) ([] ++ nb)) func)
    as (nr & Hr).
  exists nb, nr. split; [exact Hb|].
  rewrite visit_function_stages. cbv zeta. rewrite Hb, Hr, <- Errors_app.
  destruct (Errors_fields (body_entry a func) (([] ++ nb) ++ nr))
    as (_ & _ & _ & -> & _). done.
Qed.

Lemma errors_body_entry a func : (errors a ≤ errors (body_entry a func))%Z.
Proof.
  unfold body_entry.
  set (scope0 := mkSymbolTable _ _ _). set (a1 := set_scope a _ _ _).
  pose proof (errors_declare declare_param (func_params func)
                (λ scope a p, proj1 (errors_declare_param scope a p)) scope0 a1) as H1.
  destruct (fold_left declare_param _ _) as [s1 a2]. cbn [snd] in H1.
  pose proof (errors_declare declare_local (func_locals func)
                (λ scope a p, proj1 (errors_declare_local scope a p)) s1 a2) as H2.
  destruct (fold_left declare_local _ _) as [s2 a3]. cbn [snd] in H2.
  cbn [errors set_scope]. etrans; [exact H1|exact H2].
Qed.

Lemma errors_visit_function a func : (errors a ≤ errors (visit_function a func))%Z.
Proof.
  destruct (visit_function_reports a func) as (nb & nr & _ & ->).
  cbn [errors set_scope]. rewrite errors_Errors.
  pose proof (errors_body_entry a func). lia.
Qed.

(** The registries [visit_function] leaves as they were. *)
Lemma visit_function_registries a func :
  globals (visit_function a func) = globals a
  ∧ structs (visit_function a func) = structs a
  ∧ functions (visit_function a func) = functions a.
Proof.
  destruct (visit_function_reports a func) as (nb & nr & _ & ->).
  cbn [globals structs functions set_scope].
  rewrite globals_Errors, structs_Errors, functions_Errors.
  destruct (body_entry_spec a func) as (-> & -> & -> & _). done.
Qed.

(** A function visited without a report: its parameters and locals were
    declared without one and every statement of its body is checked
    without one, the analyzer staying as it was on entry to the body. *)
Lemma visit_function_quiet a func :
  errors (visit_function a func) = errors a →
  errors (body_entry a func) = errors a
  ∧ fold_left visit_statement (func_body func) (body_entry a func) = body_entry a func.
Proof.
  intros H. destruct (visit_function_reports a func) as (nb & nr & Hb & Hv).
  rewrite Hv in H. cbn [errors set_scope] in H. rewrite errors_Errors in H.
  pose proof (errors_body_entry a func). rewrite length_app in H.
  assert (nb = []) as -> by (destruct nb; [done|cbn in H; lia]).
  split; [lia|exact Hb].
Qed.

(** Declarations made without a report have names of their own. *)
Lemma structs_quiet ts :
  ∀ a, errors (fold_left visit_struct ts a) = errors a →
       NoDup (map tdecl_name ts)
       ∧ Forall (λ t, structs a !! tdecl_name t = None) ts.
Proof.
  induction ts as [|t ts IH]; intros a H; cbn [fold_left map] in *.
  - split; [apply NoDup_nil_2|done].
  - destruct (errors_visit_struct a t) as [H1 H2].
    pose proof (errors_fold visit_struct ts (λ a t, proj1 (errors_visit_struct a t))
                  (visit_struct a t)) as H3.
    destruct (structs a !! tdecl_name t) as [t0|] eqn:E; [specialize (H2 (mk_is_Some _ _ eq_refl)); lia|].
    destruct (IH (visit_struct a t)) as [Hnd Hall]; [lia|].
    assert (structs (visit_struct a t) = <[tdecl_name t := t]> (structs a)) as Hs.
    { rewrite structs_visit_struct. unfold register_struct. by rewrite E. }
    rewrite Hs in Hall.
    assert (Forall (λ t', tdecl_name t' ≠ tdecl_name t
                          ∧ structs a !! tdecl_name t' = None) ts) as Hall'.
    { eapply Forall_impl; [exact Hall|]. intros t' Ht'.
      apply lookup_insert_None in Ht' as [? ?]. done. }
    split.
    + apply NoDup_cons. split; [|done].
      intros [t' [Heq Hin]]%list_elem_of_fmap.
      by destruct (proj1 (Forall_forall _ _) Hall' t' Hin).
    + apply Forall_cons; split; [done|].
      eapply Forall_impl; [exact Hall'|]. by intros t' [_ ?].
Qed.

Lemma symbols_visit_global a d :
  symbols (globals a) !! decl_name d = None →
  symbols (globals (visit_global a d)) = <[decl_name d := d]> (symbols (globals a))
  ∧ parent (globals (visit_global a d)) = parent (globals a).
Proof.
  intros E. unfold visit_global.
  rewrite globals_visit_type, globals_undefined_struct_check.
  unfold lookup_local, define. by rewrite E.
Qed.

Lemma globals_quiet ds :
  ∀ a, errors (fold_left visit_global ds a) = errors a →
       NoDup (map decl_name ds)
       ∧ Forall (λ d, symbols (globals a) !! decl_name d = None) ds.
Proof.
  induction ds as [|d ds IH]; intros a H; cbn [fold_left map] in *.
  - split; [apply NoDup_nil_2|done].
  - destruct (errors_visit_global a d) as [H1 H2]. unfold lookup_local in H2.
    pose proof (errors_fold visit_global ds (λ a d, proj1 (errors_visit_global a d))
                  (visit_global a d)) as H3.
    destruct (symbols (globals a) !! decl_name d) as [d0|] eqn:E;
      [specialize (H2 (mk_is_Some _ _ eq_refl)); lia|].
    destruct (IH (visit_global a d)) as [Hnd Hall]; [lia|].
    destruct (symbols_visit_global a d E) as [Hs _]. rewrite Hs in Hall.
    assert (Forall (λ d', decl_name d' ≠ decl_name d
                          ∧ symbols (globals a) !! decl_name d' = None) ds) as Hall'.
    { eapply Forall_impl; [exact Hall|]. intros d' Hd'.
      apply lookup_insert_None in Hd' as [? ?]. done. }
    split.
    + apply NoDup_cons. split; [|done].
      intros [d' [Heq Hin]]%list_elem_of_fmap.
      by destruct (proj1 (Forall_forall _ _) Hall' d' Hin).
    + apply Forall_cons; split; [done|].
      eapply Forall_impl; [exact Hall'|]. by intros d' [_ ?].
Qed.

Lemma declare_quiet (step : SymbolTable * SemanticAnalyzer → Declaration
                            → SymbolTable * SemanticAnalyzer) :
  (∀ scope a p,
     parent (step (scope, a) p).1 = parent scope
     ∧ (∀ x, symbols (step (scope, a) p).1 !! x =
             match symbols scope !! x with
             | Some d => Some d
             | None => first_named x [p]
             end)
     ∧ same_context a (step (scope, a) p).2) →
  (∀ scope a p,
     (errors a ≤ errors (step (scope, a) p).2)%Z
     ∧ (is_Some (symbols scope !! decl_name p) →
        (errors a < errors (step (scope, a) p).2)%Z)) →
  ∀ ps scope a,
    errors (fold_left step ps (scope, a)).2 = errors a →
    NoDup (map decl_name ps)
    ∧ Forall (λ p, symbols scope !! decl_name p = None) ps.
Proof.
  intros Hscope Herr.
  induction ps as [|p ps IH]; intros scope a H; cbn [fold_left map] in *.
  - split; [apply NoDup_nil_2|done].
  - destruct (Herr scope a p) as [H1 H2].
    destruct (Hscope scope a p) as (_ & Hs & _).
    pose proof (errors_declare step ps (λ scope a p, proj1 (Herr scope a p))) as H3.
    destruct (step (scope, a) p) as [scope1 a1]. cbn [fst snd] in *.
    specialize (H3 scope1 a1).
    destruct (symbols scope !! decl_name p) as [d0|] eqn:E;
      [specialize (H2 (mk_is_Some _ _ eq_refl)); lia|].
    destruct (IH scope1 a1) as [Hnd Hall]; [lia|].
    assert (Forall (λ p', decl_name p' ≠ decl_name p
                          ∧ symbols scope !! decl_name p' = None) ps) as Hall'.
    { eapply Forall_impl; [exact Hall|]. intros p' Hp'. cbn beta in Hp'. rewrite Hs in Hp'.
      destruct (symbols scope !! decl_name p'); [done|].
      unfold first_named in Hp'. cbn [find] in Hp'.
      destruct (String.eqb_spec (decl_name p) (decl_name p')); [done|].
      split; [congruence|done]. }
    split.
    + apply NoDup_cons. split; [|done].
      intros [p' [Heq Hin]]%list_elem_of_fmap.
      by destruct (proj1 (Forall_forall _ _) Hall' p' Hin).
    + apply Forall_cons; split; [done|].
      eapply Forall_impl; [exact Hall'|]. by intros p' [_ ?].
Qed.

Lemma first_named_None x ds : first_named x ds = None ↔ x ∉ map decl_name ds.
Proof.
  unfold first_named. induction ds as [|d ds IH]; cbn [find map]; [set_solver|].
  rewrite not_elem_of_cons, <- IH.
  destruct (String.eqb_spec (decl_name d) x); naive_solver.
Qed.

Lemma first_named_Some x ds d :
  first_named x ds = Some d → d ∈ ds ∧ decl_name d = x.
Proof.
  unfold first_named. intros H. apply find_some in H as [Hin Heq].
  split; [by apply list_elem_of_In|by apply String.eqb_eq].
Qed.

Lemma body_entry_quiet a func :
  errors (body_entry a func) = errors a →
  NoDup (map decl_name (func_params func ++ func_locals func)).
Proof.
  unfold body_entry.
  set (scope0 := mkSymbolTable _ _ _). set (a1 := set_scope a _ _ _).
  pose proof (errors_declare declare_param (func_params func)
                (λ scope a p, proj1 (errors_declare_param scope a p)) scope0 a1) as M1.
  pose proof (declare_quiet declare_param declare_param_scope errors_declare_param
                (func_params func) scope0 a1) as Q1.
  destruct (declare_step_scope declare_param declare_param_scope
              (func_params func) scope0 a1) as (_ & S1 & _).
  destruct (fold_left declare_param _ _) as [s1 a2]. cbn [fst snd] in *.
  pose proof (errors_declare declare_local (func_locals func)
                (λ scope a p, proj1 (errors_declare_local scope a p)) s1 a2) as M2.
  pose proof (declare_quiet declare_local declare_local_scope errors_declare_local
                (func_locals func) s1 a2) as Q2.
  destruct (fold_left declare_local _ _) as [s2 a3]. cbn [fst snd] in *.
  cbn [errors set_scope]. intros H.
  change (errors a1) with (errors a) in *.
  destruct Q1 as [N1 _]; [lia|]. destruct Q2 as [N2 D2]; [lia|].
  rewrite map_app. apply NoDup_app. split_and!; [done| |done].
  intros x Hx [p [-> Hp]]%list_elem_of_fmap.
  pose proof (proj1 (Forall_forall _ _) D2 p Hp) as Hn. cbn beta in Hn.
  rewrite S1 in Hn. cbn [symbols scope0] in Hn. rewrite lookup_empty in Hn.
  by apply first_named_None in Hn.
Qed.

End AnalyzerFrame.

(** ** Code generator: frames, labels and tables *)

Module GeneratorFrame.
Import CodeGen CodeGenFacts LayoutFacts.

Lemma with_output_self g : with_output g (output g) (label_counter g) = g.
Proof. by destruct g. Qed.

Lemma emits_with_output g out c l :
  emits (with_output g out c) l = with_output g (out ++ l) c.
Proof.
  revert out. induction l as [|x l IH]; intros out.
  - by rewrite app_nil_r.
  - change (emits (with_output g out c) (x :: l))
      with (emits (with_output g (out ++ [x]) c) l).
    rewrite IH. by rewrite <- app_assoc.
Qed.

Lemma emit_with_output g out c x :
  emit (with_output g out c) x = with_output g (out ++ [x]) c.
Proof. reflexivity. Qed.

Lemma visit_arguments_with_output args :
  Forall (λ e, ∀ g, ∃ l, ∀ out c,
            visit_expression (with_output g out c) e = with_output g (out ++ l) c) args →
  ∀ g i, ∃ l, ∀ out c,
    visit_arguments (with_output g out c) i args = with_output g (out ++ l) c.
Proof.
  induction 1 as [|e args He _ IH]; intros g i.
  - exists []. intros out c. cbn. by rewrite app_nil_r.
  - destruct (He g) as [l1 H1]. destruct (IH g (i + 1)) as [l2 H2].
    exists (l1 ++ ["    sw t0, " +:+ str (i * 4) +:+ "(sp)"] ++ l2). intros out c.
    cbn [visit_arguments]. rewrite H1, emit_with_output, H2.
    by rewrite <- !app_assoc.
Qed.

(** An expression's visit appends its code and changes nothing else,
    and the code does not depend on the output or the label counter. *)
Lemma visit_expression_with_output e :
  ∀ g, ∃ l, ∀ out c,
    visit_expression (with_output g out c) e = with_output g (out ++ l) c.
Proof.
  induction e as [l v|l|l|l|l|l x|l e x IH|l op e IH|l op e1 e2 IH1 IH2|l f args IH|l x]
    using expression_nested_ind; intros g.
  1-5: eexists; intros out c; cbn [visit_expression];
    rewrite ?emit_with_output, ?emits_with_output; reflexivity.
  - destruct (locals g !! x) eqn:E1; [|destruct (globals g !! x) eqn:E2];
      eexists; intros out c; cbn [visit_expression with_output locals globals];
      rewrite E1, ?E2; fold (with_output g out c);
      rewrite ?emit_with_output, ?emits_with_output; reflexivity.
  - destruct (IH g) as [l1 H1].
    exists (l1 ++ ["    mv t2, t0  # Save struct pointer"]
            ++ dot_load g (_get_struct_type g e) x).
    intros out c. cbn [visit_expression]. rewrite H1, emit_with_output.
    replace (dot_load (with_output g _ c) (_get_struct_type (with_output g _ c) e) x)
      with (dot_load g (_get_struct_type g e) x) by (by destruct e).
    rewrite emits_with_output. by rewrite <- !app_assoc.
  - destruct (IH g) as [l1 H1]. exists (l1 ++ unary_op_code op). intros out c.
    cbn [visit_expression]. rewrite H1, emits_with_output. by rewrite <- app_assoc.
  - destruct (IH1 g) as [l1 H1]. destruct (IH2 g) as [l2 H2].
    exists (l1 ++ ["    addi sp, sp, -4"; "    sw t0, 0(sp)  # Push left"] ++ l2
            ++ ["    mv t1, t0"; "    lw t0, 0(sp)  # Pop left"; "    addi sp, sp, 4"]
            ++ binary_op_code op).
    intros out c. cbn [visit_expression].
    rewrite H1, emits_with_output, H2, !emits_with_output. by rewrite <- !app_assoc.
  - destruct (visit_arguments_with_output args IH g 0) as [l1 H1].
    set (t := Z.of_nat (length args) * 4).
    exists ((if (0 <? t)%Z then ["    addi sp, sp, -" +:+ str t] else []) ++ l1
            ++ arg_register_loads (length args)
            ++ (if (0 <? t)%Z then ["    addi sp, sp, " +:+ str t] else [])
            ++ ["    jal " +:+ f; "    mv t0, a0"]).
    intros out c. rewrite visit_invocation_unfold. cbv zeta. fold t.
    destruct (0 <? t)%Z;
      rewrite ?emit_with_output, H1, ?emits_with_output, ?emit_with_output,
        ?emits_with_output; by rewrite <- ?app_assoc, ?app_nil_r.
  - eexists. intros out c. cbn [visit_expression with_output structs].
    fold (with_output g out c). rewrite emits_with_output. reflexivity.
Qed.

Lemma expression_code_with_output g e out c :
  visit_expression (with_output g out c) e
  = with_output g (out ++ expression_code g e) c.
Proof.
  destruct (visit_expression_with_output e g) as [l H].
  assert (expression_code g e = l) as ->; [|apply H].
  unfold expression_code. rewrite <- (with_output_self g) at 2.
  rewrite H. cbn [output with_output]. apply drop_app_length.
Qed.

(** *** Label definitions *)

Lemma label_lines_app l1 l2 : label_lines (l1 ++ l2) = label_lines l1 ++ label_lines l2.
Proof. apply List.filter_app. Qed.

Lemma label_lines_quiet l : quiet l → label_lines l = [].
Proof.
  induction 1 as [|x l Hx _ IH]; [done|]. unfold label_lines in *. cbn.
  by rewrite Hx.
Qed.

Lemma append_colon_inj s1 s2 : s1 +:+ ":" = s2 +:+ ":" → s1 = s2.
Proof.
  revert s2. induction s1 as [|a s1 IH]; intros [|b s2] H.
  - done.
  - injection H as _ H. by destruct s2.
  - injection H as _ H. by destruct s1.
  - injection H as -> H. f_equal. by apply IH.
Qed.

Lemma str_inj n1 n2 : str n1 = str n2 → n1 = n2.
Proof.
  intros H. apply DecimalZ.to_int_inj.
  pose proof (str_parse n1) as H1. rewrite H, str_parse in H1. congruence.
Qed.

Lemma label_definition_inj lab1 lab2 :
  lab1.1 ∈ ["else"; "endif"; "while_start"; "while_end"] →
  lab2.1 ∈ ["else"; "endif"; "while_start"; "while_end"] →
  label_definition lab1 = label_definition lab2 → lab1.2 = lab2.2.
Proof.
  destruct lab1 as [p1 n1], lab2 as [p2 n2]. unfold label_definition. cbn [fst snd].
  rewrite !elem_of_cons, !elem_of_nil.
  intros [->|[->|[->|[->|[]]]]] [->|[->|[->|[->|[]]]]] H;
    try discriminate H.
  all: apply String.app_inj in H; by apply str_inj, append_colon_inj.
Qed.

Lemma labels_in_quiet (lo hi : Z) l : quiet l → labels_in lo hi l.
Proof.
  intros H. exists []. rewrite (label_lines_quiet l H).
  split_and!; [done|done|apply NoDup_nil_2].
Qed.

Lemma labels_in_weaken (lo hi lo' hi' : Z) l :
  labels_in lo hi l → (lo' ≤ lo)%Z → (hi ≤ hi')%Z → labels_in lo' hi' l.
Proof.
  intros (labs & P & F & N) ??. exists labs. split_and!; [done| |done].
  eapply Forall_impl; [exact F|]. intros lab [? ?]. split; [done|lia].
Qed.

(** Code drawing its labels from [a, b) followed by code drawing them
    from [b, c). *)
Lemma labels_in_seq (a b c : Z) l1 l2 :
  (a ≤ b)%Z → (b ≤ c)%Z →
  labels_in a b l1 → labels_in b c l2 → labels_in a c (l1 ++ l2).
Proof.
  intros Hab Hbc (labs1 & P1 & F1 & N1) (labs2 & P2 & F2 & N2).
  exists (labs1 ++ labs2). rewrite label_lines_app, !map_app, P1, P2.
  split_and!; [done| |].
  - apply Forall_app. split; (eapply Forall_impl; [eassumption|]);
      intros lab [? ?]; (split; [done|lia]).
  - apply NoDup_app. split_and!; [done| |done].
    intros n [lab1 [-> Hin1]]%list_elem_of_fmap [lab2 [Heq Hin2]]%list_elem_of_fmap.
    apply (proj1 (Forall_forall _ _) F1) in Hin1 as [_ ?].
    apply (proj1 (Forall_forall _ _) F2) in Hin2 as [_ ?]. lia.
Qed.

(** Code drawing its labels from [c + 2, hi), with the definitions of
    two more labels, for the counter values [c] and [c + 1]. *)
Lemma labels_in_pair (c hi : Z) (p1 p2 : string) l l' :
  p1 ∈ ["else"; "endif"; "while_start"; "while_end"] →
  p2 ∈ ["else"; "endif"; "while_start"; "while_end"] →
  (c + 2 ≤ hi)%Z →
  labels_in (c + 2) hi l →
  label_lines l' ≡ₚ (p1 +:+ str c +:+ ":") :: (p2 +:+ str (c + 1) +:+ ":")
                     :: label_lines l →
  labels_in c hi l'.
Proof.
  intros Hp1 Hp2 Hhi (labs & P & F & N) P'.
  exists ((p1, c) :: (p2, c + 1) :: labs). split_and!.
  - rewrite P'. cbn [map]. unfold label_definition at 1 2. cbn [fst snd].
    by rewrite P.
  - repeat (apply Forall_cons; split); [cbn [fst snd]; split; [done|lia]..|].
    eapply Forall_impl; [exact F|]. intros lab [? ?]. split; [done|lia].
  - cbn [map snd]. apply NoDup_cons. split.
    + rewrite elem_of_cons. intros [?|[lab [Heq Hin]]%list_elem_of_fmap]; [lia|].
      apply (proj1 (Forall_forall _ _) F) in Hin as [_ ?]. lia.
    + apply NoDup_cons. split; [|done].
      intros [lab [Heq Hin]]%list_elem_of_fmap.
      apply (proj1 (Forall_forall _ _) F) in Hin as [_ ?]. lia.
Qed.

Ltac quiet_lines :=
  unfold quiet; repeat case_match;
  repeat (apply Forall_cons; split; [reflexivity|]); apply Forall_nil_2.

Lemma quiet_app l1 l2 : quiet l1 → quiet l2 → quiet (l1 ++ l2).
Proof. intros. by apply Forall_app. Qed.

Lemma quiet_expression g e : quiet (expression_code g e).
Proof.
  unfold quiet.
  induction e as [l v|l|l|l|l|l x|l e x IH|l op e IH|l op e1 e2 IH1 IH2|l f args IH|l x]
    using expression_nested_ind.
  1-5, 11: unfold expression_code; cbn [visit_expression];
    rewrite ?emit_emits, output_emits, drop_app_length;
    repeat case_match; repeat (apply Forall_cons; split; [reflexivity|]);
    apply Forall_nil_2.
  - unfold expression_code. cbn [visit_expression].
    repeat case_match; rewrite ?emit_emits, output_emits, drop_app_length;
      repeat (apply Forall_cons; split; [reflexivity|]); apply Forall_nil_2.
  - rewrite code_dot. repeat (apply Forall_app; split); [done| |].
    + by apply Forall_singleton.
    + unfold dot_load. repeat case_match;
        repeat (apply Forall_cons; split; [reflexivity|]); apply Forall_nil_2.
  - rewrite code_unary. apply Forall_app; split; [done|]. unfold unary_op_code.
    repeat case_match; repeat (apply Forall_cons; split; [reflexivity|]);
      apply Forall_nil_2.
  - rewrite code_binary. repeat (apply Forall_app; split); try done.
    1-2: repeat (apply Forall_cons; split; [reflexivity|]); apply Forall_nil_2.
    unfold binary_op_code.
    repeat case_match; repeat (apply Forall_cons; split; [reflexivity|]);
      apply Forall_nil_2.
  - rewrite code_invocation. repeat (apply Forall_app; split).
    + case_match; repeat (apply Forall_cons; split; [reflexivity|]); apply Forall_nil_2.
    + apply Forall_concat. clear -IH.
      assert (∀ h : nat → Z,
                Forall (Forall (λ x, is_label_line x = false))
                  (imap (λ (i : nat) arg, expression_code g arg
                           ++ ["    sw t0, " +:+ str (h i * 4) +:+ "(sp)"]) args)) as Hh.
      { induction IH as [|e args He _ IHa]; intros h; [done|].
        rewrite imap_cons. apply Forall_cons; split.
        - apply Forall_app; split; [done|]. by apply Forall_singleton.
        - apply (IHa (h ∘ S)). }
      apply (Hh (λ i, Z.of_nat i)).
    + apply Forall_map, Forall_forall. by intros i _.
    + case_match; repeat (apply Forall_cons; split; [reflexivity|]); apply Forall_nil_2.
    + repeat (apply Forall_cons; split; [reflexivity|]); apply Forall_nil_2.
Qed.

Ltac slot_lines :=
  intros; unfold slot_free; repeat case_match;
  repeat (apply Forall_cons; split; [let H := fresh in intros [H|H]; discriminate H|]);
  apply Forall_nil_2.

Lemma slot_free_app l1 l2 : slot_free l1 → slot_free l2 → slot_free (l1 ++ l2).
Proof. intros. by apply Forall_app. Qed.

(** The code of an expression in which the scan for read expressions
    finds none does not refer to the input slot. *)
Lemma slot_free_expression g e :
  labelled_globals g → check_expr e = false → slot_free (expression_code g e).
Proof.
  intros LG. unfold slot_free.
  induction e as [l v|l|l|l|l|l x|l e x IH|l op e IH|l op e1 e2 IH1 IH2|l f args IH|l x]
    using expression_nested_ind; intros Hc.
  1-4, 11: unfold expression_code; cbn [visit_expression];
    rewrite ?emit_emits, output_emits, drop_app_length; slot_lines.
  - discriminate Hc.
  - unfold expression_code. cbn [visit_expression].
    destruct (locals g !! x) eqn:E1; [|destruct (globals g !! x) as [label|] eqn:E2];
      rewrite ?emit_emits, output_emits, drop_app_length; [slot_lines| |slot_lines].
    rewrite (LG _ _ E2). slot_lines.
  - rewrite code_dot. repeat (apply Forall_app; split); [by apply IH|slot_lines|].
    unfold dot_load. slot_lines.
  - rewrite code_unary. apply Forall_app; split; [by apply IH|].
    unfold unary_op_code. slot_lines.
  - cbn [check_expr] in Hc. apply orb_false_iff in Hc as [Hc1 Hc2].
    rewrite code_binary. repeat (apply Forall_app; split); [by apply IH1|slot_lines
      |by apply IH2|slot_lines|].
    unfold binary_op_code. slot_lines.
  - cbn [check_expr] in Hc.
    rewrite code_invocation. repeat (apply Forall_app; split).
    + slot_lines.
    + apply Forall_concat.
      assert (Forall (λ a, Forall (λ x, ¬ uses_input_slot x) (expression_code g a)) args)
        as IH'.
      { clear -IH Hc. induction IH as [|a args Ha _ IHa]; [done|].
        cbn [existsb] in Hc. apply orb_false_iff in Hc as [Hc1 Hc2].
        apply Forall_cons; split; [by apply Ha|by apply IHa]. }
      clear -IH'.
      assert (∀ h : nat → Z,
                Forall (Forall (λ x, ¬ uses_input_slot x))
                  (imap (λ (i : nat) arg, expression_code g arg
                           ++ ["    sw t0, " +:+ str (h i * 4) +:+ "(sp)"]) args)) as Hh.
      { induction IH' as [|e args He _ IHa]; intros h; [done|].
        rewrite imap_cons. apply Forall_cons; split.
        - apply Forall_app; split; [done|]. slot_lines.
        - apply (IHa (h ∘ S)). }
      apply (Hh (λ i, Z.of_nat i)).
    + apply Forall_map, Forall_forall. intros i _ [H|H]; discriminate H.
    + slot_lines.
    + slot_lines.
Qed.

Ltac error_lines :=
  intros; unfold error_free; repeat case_match;
  repeat (apply Forall_cons; split; [reflexivity|]); apply Forall_nil_2.

Lemma error_free_app l1 l2 : error_free l1 → error_free l2 → error_free (l1 ++ l2).
Proof. intros. by apply Forall_app. Qed.

Lemma known_arguments g args :
  (fix all (args : list expression) : Prop :=
     match args with
     | [] => True
     | arg :: rest => known_expr g arg ∧ all rest
     end) args ↔ Forall (known_expr g) args.
Proof.
  induction args as [|e args IH]; [by split|]. rewrite Forall_cons, <- IH. done.
Qed.

Lemma known_statements g ss :
  (fix all (ss : list statement) : Prop :=
     match ss with
     | [] => True
     | s :: rest => known_stmt g s ∧ all rest
     end) ss ↔ Forall (known_stmt g) ss.
Proof.
  induction ss as [|s ss IH]; [by split|]. rewrite Forall_cons, <- IH. done.
Qed.

(** The code of an expression whose variables and fields the generator
    finds holds none of its error comments. *)
Lemma error_free_expression g e : known_expr g e → error_free (expression_code g e).
Proof.
  unfold error_free.
  induction e as [l v|l|l|l|l|l x|l e x IH|l op e IH|l op e1 e2 IH1 IH2|l f args IH|l x]
    using expression_nested_ind; intros Hk.
  1-5, 11: unfold expression_code; cbn [visit_expression];
    rewrite ?emit_emits, output_emits, drop_app_length; error_lines.
  - unfold expression_code. cbn [visit_expression]. cbn [known_expr] in Hk.
    destruct (locals g !! x) eqn:E1; [|destruct (globals g !! x) as [label|] eqn:E2];
      rewrite ?emit_emits, output_emits, drop_app_length; [error_lines|error_lines|].
    destruct Hk as [[? Hk]|[? Hk]]; discriminate Hk.
  - cbn [known_expr] in Hk. destruct Hk as [Hk1 Hk2].
    rewrite code_dot. repeat (apply Forall_app; split); [by apply IH|error_lines|done].
  - rewrite code_unary. apply Forall_app; split; [by apply IH|].
    unfold unary_op_code. error_lines.
  - cbn [known_expr] in Hk. destruct Hk as [Hk1 Hk2].
    rewrite code_binary. repeat (apply Forall_app; split); [by apply IH1|error_lines
      |by apply IH2|error_lines|].
    unfold binary_op_code. error_lines.
  - cbn [known_expr] in Hk. apply known_arguments in Hk.
    rewrite code_invocation. repeat (apply Forall_app; split).
    + error_lines.
    + apply Forall_concat.
      assert (Forall (λ a, Forall (λ x, is_error_line x = false) (expression_code g a)) args)
        as IH'.
      { clear -IH Hk. induction IH as [|a args Ha _ IHa]; [done|].
        apply Forall_cons in Hk as [Hk1 Hk2].
        apply Forall_cons; split; [by apply Ha|by apply IHa]. }
      clear -IH'.
      assert (∀ h : nat → Z,
                Forall (Forall (λ x, is_error_line x = false))
                  (imap (λ (i : nat) arg, expression_code g arg
                           ++ ["    sw t0, " +:+ str (h i * 4) +:+ "(sp)"]) args)) as Hh.
      { induction IH' as [|e args He _ IHa]; intros h; [done|].
        rewrite imap_cons. apply Forall_cons; split.
        - apply Forall_app; split; [done|]. error_lines.
        - apply (IHa (h ∘ S)). }
      apply (Hh (λ i, Z.of_nat i)).
    + apply Forall_map, Forall_forall. by intros i _.
    + error_lines.
    + error_lines.
Qed.

(** The address of an l-value: code that defines no label and does not
    refer to the input slot, appended to the output with nothing else
    changed. *)
Lemma lvalue_with_output lv :
  ∀ g, ∃ l, quiet l ∧ (labelled_globals g → slot_free l) ∧ error_free l ∧ ∀ out c,
    _generate_lvalue_address (with_output g out c) lv = with_output g (out ++ l) c.
Proof.
  induction lv as [ln x|ln lv IH x]; intros g.
  - destruct (locals g !! x) as [off|] eqn:E1;
      [|destruct (globals g !! x) as [label|] eqn:E2].
    { exists ["    addi t0, fp, " +:+ str off]. split_and!; [quiet_lines|slot_lines|error_lines|].
      intros out c. cbn [_generate_lvalue_address with_output locals]. by rewrite E1. }
    { exists ["    la t0, " +:+ label]. split_and!; [quiet_lines| |error_lines|].
      - intros LG. rewrite (LG _ _ E2). slot_lines.
      - intros out c. cbn [_generate_lvalue_address with_output locals globals].
        by rewrite E1, E2. }
    exists []. split_and!; [quiet_lines|slot_lines|error_lines|]. intros out c.
    cbn [_generate_lvalue_address with_output locals globals].
    rewrite E1, E2. fold (with_output g out c). by rewrite app_nil_r.
  - assert (∃ l1, quiet l1 ∧ (labelled_globals g → slot_free l1) ∧ error_free l1
                  ∧ ∀ out c,
              match lv with
              | LValueID _ name => load_struct_pointer (with_output g out c) name
              | LValueDot _ _ _ => _generate_lvalue_address (with_output g out c) lv
              end = with_output g (out ++ l1) c) as (l1 & Q1 & S1 & E1' & H1).
    { destruct lv as [ln' y|ln' lv' y]; [|apply IH]. unfold load_struct_pointer.
      destruct (locals g !! y) as [off|] eqn:E1;
        [|destruct (globals g !! y) as [label|] eqn:E2].
      - exists ["    lw t0, " +:+ str off +:+ "(fp)  # Load struct pointer"].
        split_and!; [quiet_lines|slot_lines|error_lines|]. intros out c.
        cbn [with_output locals]. by rewrite E1.
      - exists ["    la t1, " +:+ label; "    lw t0, 0(t1)  # Load struct pointer"].
        split_and!; [quiet_lines| |error_lines|].
        + intros LG. rewrite (LG _ _ E2). slot_lines.
        + intros out c.
          cbn [with_output locals globals]. rewrite E1, E2.
          fold (with_output g out c). by rewrite emits_with_output.
      - exists []. split_and!; [quiet_lines|slot_lines|error_lines|]. intros out c.
        cbn [with_output locals globals]. rewrite E1, E2.
        fold (with_output g out c). by rewrite app_nil_r. }
    assert (∃ x2, is_label_line x2 = false ∧ ¬ uses_input_slot x2
                  ∧ is_error_line x2 = false ∧ ∀ out c,
              field_address (with_output g out c) lv x = with_output g (out ++ [x2]) c)
      as (x2 & Q2 & S2 & E2' & H2).
    { unfold field_address. destruct lv as [ln' y|ln' lv' y].
      - destruct (type_environment g !! y) as [[| |ln2 sname]|] eqn:Et.
        3: destruct (structs g !! sname) as [lay|] eqn:Es;
             [destruct (fields lay !! x) eqn:Ef|].
        all: eexists; split_and!; [| | |intros out c;
          cbn [with_output type_environment structs];
          rewrite Et, ?Es, ?Ef; reflexivity];
          [reflexivity|let H := fresh in intros [H|H]; discriminate H|reflexivity].
      - eexists. split_and!; [| | |intros out c; reflexivity];
          [reflexivity|let H := fresh in intros [H|H]; discriminate H|reflexivity]. }
    exists (l1 ++ [x2]). split_and!.
    + apply quiet_app; [done|]. unfold quiet. by apply Forall_singleton.
    + intros LG. apply slot_free_app; [by apply S1|]. by apply Forall_singleton.
    + apply error_free_app; [done|]. by apply Forall_singleton.
    + intros out c. cbn [_generate_lvalue_address]. rewrite H1, H2.
      by rewrite <- app_assoc.
Qed.

Lemma Label_with_output g out c p :
  Label (with_output g out c) p = (p +:+ str c, with_output g out (c + 1)).
Proof. reflexivity. Qed.

Lemma with_output_counter g out (c c' : Z) :
  c = c' → with_output g out c = with_output g out c'.
Proof. by intros ->. Qed.

Lemma statements_with_output ss :
  Forall (λ s, ∀ g c, ∃ l,
            labels_in c (c + 2 * Z.of_nat (label_sites s)) l
            ∧ (labelled_globals g → check_stmt s = false → slot_free l)
            ∧ (known_stmt g s → error_free l)
            ∧ ∀ out, visit_statement (with_output g out c) s
                     = with_output g (out ++ l) (c + 2 * Z.of_nat (label_sites s))) ss →
  ∀ g c, ∃ l,
    labels_in c (c + 2 * Z.of_nat (foldr (λ s n, label_sites s + n)%nat 0%nat ss)) l
    ∧ (labelled_globals g → existsb check_stmt ss = false → slot_free l)
    ∧ (Forall (known_stmt g) ss → error_free l)
    ∧ ∀ out, fold_left visit_statement ss (with_output g out c)
             = with_output g (out ++ l)
                 (c + 2 * Z.of_nat (foldr (λ s n, label_sites s + n)%nat 0%nat ss)).
Proof.
  induction 1 as [|s ss Hs _ IH]; intros g c.
  - exists []. split_and!; [apply labels_in_quiet; quiet_lines|slot_lines|error_lines|].
    intros out. cbn. rewrite app_nil_r. apply with_output_counter. lia.
  - destruct (Hs g c) as (l1 & L1 & S1 & E1 & H1).
    destruct (IH g (c + 2 * Z.of_nat (label_sites s))) as (l2 & L2 & S2 & E2 & H2).
    exists (l1 ++ l2). cbn [foldr]. split_and!.
    + eapply labels_in_seq; [| |exact L1|]; [lia|lia|].
      eapply labels_in_weaken; [exact L2|lia|lia].
    + intros LG Hc. cbn [existsb] in Hc. apply orb_false_iff in Hc as [Hc1 Hc2].
      apply slot_free_app; [by apply S1|by apply S2].
    + intros [Hk1 Hk2]%Forall_cons.
      apply error_free_app; [by apply E1|by apply E2].
    + intros out. cbn [fold_left]. rewrite H1, H2, <- app_assoc.
      apply with_output_counter. lia.
Qed.

(** A statement's visit appends its code and advances the label
    counter by two for each conditional and loop it visits; the labels
    the code defines come from the counter values in between, each
    used once; the code does not refer to the input slot when the scan
    for read expressions finds none in the statement; nothing else
    changes. *)
Lemma statement_with_output s :
  ∀ g c, ∃ l,
    labels_in c (c + 2 * Z.of_nat (label_sites s)) l
    ∧ (labelled_globals g → check_stmt s = false → slot_free l)
    ∧ (known_stmt g s → error_free l)
    ∧ ∀ out, visit_statement (with_output g out c) s
             = with_output g (out ++ l) (c + 2 * Z.of_nat (label_sites s)).
Proof.
  induction s as [ln ss IH|ln t e|ln e s1 s2 IH1 IH2|ln e s IH|ln e|ln e|ln e|ln e|ln e|ln]
    using statement_nested_ind; intros g c.
  - destruct (statements_with_output ss IH g c) as (l & L & S & E & H). exists l.
    split_and!; [exact L|exact S| |].
    + intros Hk. cbn [known_stmt] in Hk. apply known_statements in Hk. by apply E.
    + intros out. apply H.
  - destruct (lvalue_with_output t g) as (l2 & Q2 & S2 & E2 & H2).
    exists (expression_code g e ++ ["    mv t1, t0  # Save result"] ++ l2
            ++ ["    sw t1, 0(t0)"]).
    split_and!.
    + apply labels_in_quiet. repeat apply quiet_app; try done;
        [apply quiet_expression|quiet_lines|quiet_lines].
    + intros LG Hc. cbn [check_stmt] in Hc.
      apply slot_free_app; [by apply slot_free_expression|].
      apply slot_free_app; [slot_lines|].
      apply slot_free_app; [by apply S2|slot_lines].
    + intros Hk. cbn [known_stmt] in Hk.
      apply error_free_app; [by apply error_free_expression|].
      apply error_free_app; [error_lines|].
      apply error_free_app; [done|error_lines].
    + intros out. cbn [visit_statement label_sites].
      rewrite expression_code_with_output, emit_with_output, H2, emit_with_output.
      rewrite <- !app_assoc. apply with_output_counter. lia.
  - set (n1 := label_sites s1).
    set (n2 := match s2 with
               | Some eb => match statements_of eb with
                            | [] => 0%nat
                            | _ :: _ => label_sites eb
                            end
               | None => 0%nat
               end).
    destruct (IH1 g (c + 1 + 1)) as (l1 & L1 & S1 & E1 & H1). fold n1 in L1, H1.
    assert (∃ l2, labels_in (c + 1 + 1 + 2 * Z.of_nat n1)
                    (c + 1 + 1 + 2 * Z.of_nat n1 + 2 * Z.of_nat n2) l2
                  ∧ (labelled_globals g →
                     match s2 with Some eb => check_stmt eb | None => false end = false →
                     slot_free l2)
                  ∧ (match s2 with
                     | Some eb => match statements_of eb with
                                  | [] => True
                                  | _ :: _ => known_stmt g eb
                                  end
                     | None => True
                     end → error_free l2)
                  ∧ ∀ out c',
                      c' = c + 1 + 1 + 2 * Z.of_nat n1 →
                      match s2 with
                      | Some eb => match statements_of eb with
                                   | [] => with_output g out c'
                                   | _ :: _ => visit_statement (with_output g out c') eb
                                   end
                      | None => with_output g out c'
                      end = with_output g (out ++ l2)
                              (c + 1 + 1 + 2 * Z.of_nat n1 + 2 * Z.of_nat n2))
      as (l2 & L2 & S2 & E2 & H2).
    { unfold n2. destruct s2 as [eb|].
      - cbn in IH2. destruct (statements_of eb).
        + exists []. split_and!; [apply labels_in_quiet; quiet_lines|slot_lines
                                 |error_lines|].
          intros out c' ->.
          rewrite app_nil_r. apply with_output_counter. lia.
        + destruct (IH2 g (c + 1 + 1 + 2 * Z.of_nat n1)) as (l2 & L2 & S2 & E2 & H2).
          exists l2. split_and!; [done|done|done|]. intros out c' ->. apply H2.
      - exists []. split_and!; [apply labels_in_quiet; quiet_lines|slot_lines
                               |error_lines|].
        intros out c' ->.
        rewrite app_nil_r. apply with_output_counter. lia. }
    exists (expression_code g e ++ ["    beq t0, zero, " +:+ ("else" +:+ str c)]
            ++ l1 ++ ["    j " +:+ ("endif" +:+ str (c + 1))]
            ++ [("else" +:+ str c) +:+ ":"] ++ l2
            ++ [("endif" +:+ str (c + 1)) +:+ ":"]).
    split_and!.
    + apply (labels_in_pair c _ "else" "endif" (l1 ++ l2)).
      * set_solver.
      * set_solver.
      * cbn [label_sites]. fold n1 n2. lia.
      * cbn [label_sites]. fold n1 n2.
        apply (labels_in_seq (c + 2) (c + 1 + 1 + 2 * Z.of_nat n1) _); [lia|lia| |].
        -- eapply labels_in_weaken; [exact L1|lia|lia].
        -- eapply labels_in_weaken; [exact L2|lia|lia].
      * rewrite !label_lines_app.
        rewrite (label_lines_quiet (expression_code g e)) by apply quiet_expression.
        change (label_lines ["    beq t0, zero, " +:+ ("else" +:+ str c)]) with (@nil string).
        change (label_lines ["    j " +:+ ("endif" +:+ str (c + 1))]) with (@nil string).
        change (label_lines [("else" +:+ str c) +:+ ":"])
          with [("else" +:+ str c) +:+ ":"].
        change (label_lines [("endif" +:+ str (c + 1)) +:+ ":"])
          with [("endif" +:+ str (c + 1)) +:+ ":"].
        cbn [app].
        replace (("else" +:+ str c) +:+ ":") with ("else" +:+ str c +:+ ":")
          by reflexivity.
        replace (("endif" +:+ str (c + 1)) +:+ ":") with ("endif" +:+ str (c + 1) +:+ ":")
          by reflexivity.
        rewrite <- Permutation_middle. apply perm_skip.
        rewrite <- Permutation_cons_append.
        rewrite <- Permutation_middle. done.
    + intros LG Hc. cbn [check_stmt] in Hc.
      apply orb_false_iff in Hc as [Hc Hc3]. apply orb_false_iff in Hc as [Hc1 Hc2].
      apply slot_free_app; [by apply slot_free_expression|].
      apply slot_free_app; [slot_lines|].
      apply slot_free_app; [by apply S1|].
      apply slot_free_app; [slot_lines|].
      apply slot_free_app; [slot_lines|].
      apply slot_free_app; [by apply S2|slot_lines].
    + intros Hk. cbn [known_stmt] in Hk. destruct Hk as (Hk1 & Hk2 & Hk3).
      apply error_free_app; [by apply error_free_expression|].
      apply error_free_app; [error_lines|].
      apply error_free_app; [by apply E1|].
      apply error_free_app; [error_lines|].
      apply error_free_app; [error_lines|].
      apply error_free_app; [by apply E2|error_lines].
    + intros out. cbn [visit_statement]. rewrite Label_with_output. cbv beta iota.
      rewrite Label_with_output. cbv beta iota.
      rewrite expression_code_with_output, emit_with_output, H1, !emit_with_output.
      rewrite (H2 _ _ eq_refl), emit_with_output.
      rewrite <- !app_assoc. apply with_output_counter.
      cbn [label_sites]. fold n1 n2. lia.
  - set (n1 := label_sites s).
    destruct (IH g (c + 1 + 1)) as (l1 & L1 & S1 & E1 & H1). fold n1 in L1, H1.
    exists ([("while_start" +:+ str c) +:+ ":"] ++ expression_code g e
            ++ ["    beq t0, zero, " +:+ ("while_end" +:+ str (c + 1))] ++ l1
            ++ ["    j " +:+ ("while_start" +:+ str c)]
            ++ [("while_end" +:+ str (c + 1)) +:+ ":"]).
    split_and!.
    + apply (labels_in_pair c _ "while_start" "while_end" l1).
      * set_solver.
      * set_solver.
      * cbn [label_sites]. fold n1. lia.
      * cbn [label_sites]. fold n1. eapply labels_in_weaken; [exact L1|lia|lia].
      * rewrite !label_lines_app.
        rewrite (label_lines_quiet (expression_code g e)) by apply quiet_expression.
        change (label_lines ["    beq t0, zero, " +:+ ("while_end" +:+ str (c + 1))])
          with (@nil string).
        change (label_lines ["    j " +:+ ("while_start" +:+ str c)]) with (@nil string).
        change (label_lines [("while_start" +:+ str c) +:+ ":"])
          with [("while_start" +:+ str c) +:+ ":"].
        change (label_lines [("while_end" +:+ str (c + 1)) +:+ ":"])
          with [("while_end" +:+ str (c + 1)) +:+ ":"].
        cbn [app].
        replace (("while_start" +:+ str c) +:+ ":")
          with ("while_start" +:+ str c +:+ ":") by reflexivity.
        replace (("while_end" +:+ str (c + 1)) +:+ ":")
          with ("while_end" +:+ str (c + 1) +:+ ":") by reflexivity.
        apply perm_skip. by rewrite <- Permutation_cons_append.
    + intros LG Hc. cbn [check_stmt] in Hc. apply orb_false_iff in Hc as [Hc1 Hc2].
      apply slot_free_app; [slot_lines|].
      apply slot_free_app; [by apply slot_free_expression|].
      apply slot_free_app; [slot_lines|].
      apply slot_free_app; [by apply S1|].
      apply slot_free_app; slot_lines.
    + intros Hk. cbn [known_stmt] in Hk. destruct Hk as (Hk1 & Hk2).
      apply error_free_app; [error_lines|].
      apply error_free_app; [by apply error_free_expression|].
      apply error_free_app; [error_lines|].
      apply error_free_app; [by apply E1|].
      apply error_free_app; error_lines.
    + intros out. cbn [visit_statement]. rewrite Label_with_output. cbv beta iota.
      rewrite Label_with_output. cbv beta iota.
      rewrite emit_with_output, expression_code_with_output, emit_with_output, H1,
        !emit_with_output.
      rewrite <- !app_assoc. apply with_output_counter.
      cbn [label_sites]. fold n1. lia.
  - exists (expression_code g e).
    split_and!; [apply labels_in_quiet, quiet_expression
                |intros LG Hc; by apply slot_free_expression
                |intros Hk; by apply error_free_expression|].
    intros out. cbn [visit_statement label_sites].
    rewrite expression_code_with_output. apply with_output_counter. lia.
  - exists (expression_code g e).
    split_and!; [apply labels_in_quiet, quiet_expression
                |intros LG Hc; by apply slot_free_expression
                |intros Hk; by apply error_free_expression|].
    intros out. cbn [visit_statement label_sites].
    rewrite expression_code_with_output. apply with_output_counter. lia.
  - exists (expression_code g e ++ ["    mv a0, t0"; "    jal print_int"]).
    split_and!; [apply labels_in_quiet, quiet_app; [apply quiet_expression|quiet_lines]
                |intros LG Hc; apply slot_free_app;
                   [by apply slot_free_expression|slot_lines]
                |intros Hk; apply error_free_app;
                   [by apply error_free_expression|error_lines]|].
    intros out. cbn [visit_statement label_sites].
    rewrite expression_code_with_output, emits_with_output, <- app_assoc.
    apply with_output_counter. lia.
  - exists (expression_code g e ++ ["    mv a0, t0"; "    jal print_int";
                                    "    li a0, '\n'"; "    jal print_char"]).
    split_and!; [apply labels_in_quiet, quiet_app; [apply quiet_expression|quiet_lines]
                |intros LG Hc; apply slot_free_app;
                   [by apply slot_free_expression|slot_lines]
                |intros Hk; apply error_free_app;
                   [by apply error_free_expression|error_lines]|].
    intros out. cbn [visit_statement label_sites].
    rewrite expression_code_with_output, emits_with_output, <- app_assoc.
    apply with_output_counter. lia.
  - exists (expression_code g e ++ ["    mv a0, t0"] ++ epilogue g
            ++ [if in_main g then "    jal exit" else "    jr ra"]).
    split_and!.
    + apply labels_in_quiet.
      apply quiet_app; [apply quiet_expression|].
      apply quiet_app; [quiet_lines|].
      apply quiet_app; [unfold epilogue; quiet_lines|quiet_lines].
    + intros LG Hc. cbn [check_stmt] in Hc.
      apply slot_free_app; [by apply slot_free_expression|].
      apply slot_free_app; [slot_lines|].
      apply slot_free_app; [unfold epilogue; apply slot_free_app; slot_lines|slot_lines].
    + intros Hk. cbn [known_stmt] in Hk.
      apply error_free_app; [by apply error_free_expression|].
      apply error_free_app; [error_lines|].
      apply error_free_app; [unfold epilogue; apply error_free_app; error_lines|error_lines].
    + intros out. cbn [visit_statement label_sites].
      rewrite expression_code_with_output, emit_with_output.
      change (epilogue (with_output g _ c)) with (epilogue g).
      rewrite emits_with_output.
      change (in_main (with_output g _ c)) with (in_main g).
      destruct (in_main g); rewrite emit_with_output, <- !app_assoc;
        apply with_output_counter; lia.
  - exists (epilogue g ++ if in_main g then ["    li a0, 0"; "    jal exit"]
                          else ["    jr ra"]).
    split_and!.
    + apply labels_in_quiet, quiet_app; [unfold epilogue; quiet_lines|quiet_lines].
    + intros LG Hc.
      apply slot_free_app; [unfold epilogue; apply slot_free_app; slot_lines|slot_lines].
    + intros Hk.
      apply error_free_app; [unfold epilogue; apply error_free_app; error_lines|error_lines].
    + intros out. cbn [visit_statement label_sites].
      change (epilogue (with_output g out c)) with (epilogue g).
      rewrite emits_with_output.
      change (in_main (with_output g _ c)) with (in_main g).
      destruct (in_main g); rewrite ?emit_with_output, ?emits_with_output, <- ?app_assoc;
        apply with_output_counter; lia.
Qed.

Lemma statement_code_spec g s :
  labels_in (label_counter g) (label_counter g + 2 * Z.of_nat (label_sites s))
    (statement_code g s)
  ∧ ∀ out, visit_statement (with_output g out (label_counter g)) s
           = with_output g (out ++ statement_code g s)
               (label_counter g + 2 * Z.of_nat (label_sites s)).
Proof.
  destruct (statement_with_output s g (label_counter g)) as (l & L & _ & _ & H).
  assert (statement_code g s = l) as ->; [|done].
  unfold statement_code. rewrite <- (with_output_self g) at 2.
  rewrite H. cbn [output with_output]. apply drop_app_length.
Qed.

(** X10. Generating an expression or a statement only appends lines to
    the output and, for a statement, advances the label counter by two
    for each conditional and loop visited: the layout table, the global
    and local maps, the type environment, the current function and its
    frame size stay as they are.  The lines do not depend on what was
    emitted before. *)
Theorem visits_only_append (g : CodeGenVisitor) :
  (∀ e out c,
     visit_expression (with_output g out c) e
     = with_output g (out ++ expression_code g e) c)
  ∧ (∀ s out,
       visit_statement (with_output g out (label_counter g)) s
       = with_output g (out ++ statement_code g s)
           (label_counter g + 2 * Z.of_nat (label_sites s)))
  ∧ (∀ s, visit_statement g s
          = with_output g (output g ++ statement_code g s)
              (label_counter g + 2 * Z.of_nat (label_sites s))).
Proof.
  split_and!.
  - intros e out c. apply expression_code_with_output.
  - intros s out. apply statement_code_spec.
  - intros s. rewrite <- (with_output_self g) at 1. apply statement_code_spec.
Qed.

Lemma NoDup_label_definitions labs :
  Forall (λ lab, lab.1 ∈ ["else"; "endif"; "while_start"; "while_end"]) labs →
  NoDup (map snd labs) → NoDup (map label_definition labs).
Proof.
  induction labs as [|lab labs IH]; intros F N; cbn [map]; [apply NoDup_nil_2|].
  apply Forall_cons in F as [Hp F]. cbn [map] in N. apply NoDup_cons in N as [Hn N].
  apply NoDup_cons. split; [|by apply IH].
  intros [lab' [Heq Hin]]%list_elem_of_fmap. apply Hn.
  apply list_elem_of_fmap. exists lab'. split; [|done].
  apply label_definition_inj; [done| |done].
  by apply (proj1 (Forall_forall _ _) F).
Qed.

(** X11. No two label definitions in the code of a statement are the
    same text: each conditional and loop gets labels of its own, built
    from counter values no other label of the statement uses. *)
Theorem statement_labels_distinct (g : CodeGenVisitor) (s : statement) :
  NoDup (label_lines (statement_code g s)).
Proof.
  destruct (statement_code_spec g s) as [(labs & P & F & N) _].
  rewrite P. apply NoDup_label_definitions; [|done].
  eapply Forall_impl; [exact F|]. by intros lab [? _].
Qed.

(** *** Stack frames *)

Lemma alloc_slots_total ds :
  ∀ ls co total, ∃ ls',
    fold_left alloc_slot ds (ls, co, total)
    = (ls', co + 4 * Z.of_nat (length ds), total + 4 * Z.of_nat (length ds)).
Proof.
  induction ds as [|d ds IH]; intros ls co total; cbn [fold_left alloc_slot].
  - exists ls. cbn [length Z.of_nat]. by rewrite Z.mul_0_r, !Z.add_0_r.
  - rewrite _type_size_word.
    destruct (IH (<[decl_name d := - (co + 4)]> ls) (co + 4) (total + 4)) as [ls' ->].
    exists ls'.
    replace (co + 4 + 4 * Z.of_nat (length ds))
      with (co + 4 * Z.of_nat (length (d :: ds))) by (cbn [length]; lia).
    by replace (total + 4 + 4 * Z.of_nat (length ds))
      with (total + 4 * Z.of_nat (length (d :: ds))) by (cbn [length]; lia).
Qed.

(** The slot loop started from any dictionary and offset, on
    declarations with distinct names: the i-th gets the next word below
    the ones already given out. *)
Lemma alloc_slots_offsets ds :
  ∀ ls co total,
    NoDup (map decl_name ds) →
    ∀ (i : nat) d, ds !! i = Some d →
      (fold_left alloc_slot ds (ls, co, total)).1.1 !! decl_name d
      = Some (- (co + 4 * (Z.of_nat i + 1))).
Proof.
  induction ds as [|d0 ds IH]; intros ls co total Hnd i d Hi; [done|].
  cbn [map] in Hnd. apply NoDup_cons in Hnd as [Hd0 Hnd].
  cbn [fold_left alloc_slot]. rewrite _type_size_word.
  destruct i as [|i]; cbn in Hi.
  - injection Hi as <-.
    assert (∀ ds' ls' co' total',
              decl_name d0 ∉ map decl_name ds' →
              (fold_left alloc_slot ds' (ls', co', total')).1.1 !! decl_name d0
              = ls' !! decl_name d0) as Hkeep.
    { induction ds' as [|d' ds' IH']; intros ls' co' total' Hnot; [done|].
      cbn [map] in Hnot. apply not_elem_of_cons in Hnot as [Hne Hnot].
      cbn [fold_left alloc_slot]. rewrite IH'; [by rewrite lookup_insert_ne|done]. }
    rewrite Hkeep by done. rewrite lookup_insert_eq. f_equal; lia.
  - rewrite (IH _ _ _ Hnd i d Hi). f_equal; lia.
Qed.

(** X12. In the frame of a function whose parameters and locals have
    distinct names, the i-th of them (parameters first, counted from 0)
    has the slot at offset -4(i+1) from the frame pointer, and the
    frame size recorded for the return paths is 4 bytes per parameter
    and local. *)
Theorem frame_slots (func : Function) :
  NoDup (map decl_name (func_params func ++ func_locals func)) →
  total_locals_size func
  = 4 * Z.of_nat (length (func_params func ++ func_locals func))
  ∧ ∀ (i : nat) d, (func_params func ++ func_locals func) !! i = Some d →
      (frame_layout func).1.1 !! decl_name d = Some (- (4 * (Z.of_nat i + 1))).
Proof.
  intros Hnd. unfold total_locals_size, frame_layout. rewrite <- !fold_left_app.
  split.
  - destruct (alloc_slots_total (func_params func ++ func_locals func) ∅ 0 0)
      as [ls' ->]. cbn [snd]. lia.
  - intros i d Hi. by rewrite (alloc_slots_offsets _ ∅ 0 0 Hnd i d Hi).
Qed.

Lemma frame_slots_witness :
  total_locals_size pick = 8
  ∧ ∀ (i : nat) d, (func_params pick ++ func_locals pick) !! i = Some d →
      (frame_layout pick).1.1 !! decl_name d = Some (- (4 * (Z.of_nat i + 1))).
Proof.
  apply (frame_slots pick). apply (bool_decide_unpack _). reflexivity.
Defined.

(** *** Function entry *)

Lemma plain_spill i off :
  plain_line ("    sw a" +:+ str (Z.of_nat i) +:+ ", " +:+ str off +:+ "(fp)").
Proof.
  split_and!; [reflexivity|reflexivity| |reflexivity]. intros [H|H]; discriminate H.
Qed.

Lemma save_params_form ps :
  ∀ g, ∃ l, Forall plain_line l
    ∧ ∀ out c, fold_left save_param ps (with_output g out c) = with_output g (out ++ l) c.
Proof.
  induction ps as [|[i p] ps IH]; intros g.
  - exists []. split; [done|]. intros out c. cbn. by rewrite app_nil_r.
  - destruct (IH g) as (l & F & H). unfold save_param at 1.
    destruct (Z.of_nat i <? 8)%Z eqn:Ei; [destruct (locals g !! decl_name p) as [off|] eqn:El|].
    + eexists (_ :: l). split; [apply Forall_cons; split; [apply (plain_spill i off)|done]|].
      intros out c. cbn [fold_left save_param with_output locals]. rewrite Ei, El.
      fold (with_output g out c). rewrite emit_with_output, H.
      by rewrite <- app_assoc.
    + exists l. split; [done|]. intros out c.
      cbn [fold_left save_param with_output locals]. rewrite Ei, El.
      fold (with_output g out c). apply H.
    + exists l. split; [done|]. intros out c.
      cbn [fold_left save_param]. rewrite Ei. apply H.
Qed.

(** The spill loop when the first parameters have the slots the frame
    layout gives them: one store for each of the first eight. *)
Lemma save_params_code ps :
  ∀ (k : nat) g,
    (∀ (j : nat) d, ps !! j = Some d →
       locals g !! decl_name d = Some (- (4 * (Z.of_nat (k + j) + 1)))) →
    ∀ out c,
      fold_left save_param (combine (seq k (length ps)) ps) (with_output g out c)
      = with_output g (out ++ imap (λ (j : nat) _, spill_line (k + j)) (take (8 - k) ps)) c.
Proof.
  induction ps as [|p ps IH]; intros k g Hslots out c.
  - cbn. by rewrite take_nil, app_nil_r.
  - cbn [length seq combine fold_left]. unfold save_param at 2.
    destruct (Z.of_nat k <? 8)%Z eqn:Ek.
    + apply Z.ltb_lt in Ek.
      cbn [with_output locals]. rewrite (Hslots 0%nat p eq_refl).
      fold (with_output g out c). rewrite emit_with_output.
      rewrite (IH (S k) g).
      2: { intros j d Hj. rewrite (Hslots (S j) d Hj). do 3 f_equal. lia. }
      replace (8 - k)%nat with (S (8 - S k)) by lia.
      cbn [take imap]. rewrite <- app_assoc. cbn [app].
      unfold spill_line at 2. rewrite Nat.add_0_r. do 3 f_equal.
      apply imap_ext. intros j d _. cbn. f_equal. lia.
    + apply Z.ltb_ge in Ek. rewrite (IH (S k) g).
      2: { intros j d Hj. rewrite (Hslots (S j) d Hj). do 3 f_equal. lia. }
      replace (8 - k)%nat with 0%nat by lia. replace (8 - S k)%nat with 0%nat by lia.
      done.
Qed.

(** The lines of a prologue before the spills. *)
Lemma function_entry_form g func :
  let head :=
    [func_name func +:+ ":"; "    addi sp, sp, -8"; "    sw ra, 4(sp)";
     "    sw fp, 0(sp)"; "    addi fp, sp, 0"]
    ++ (if String.eqb (func_name func) "main" && read g
        then ["    # Save input filename"; "    lw t0, 4(a1)";
              "    la t1, input_file_ptr"; "    sw t0, 0(t1)"]
        else [])
    ++ (if (0 <? total_locals_size func)%Z
        then ["    addi sp, sp, -" +:+ str (total_locals_size func)] else []) in
  ∃ spill,
    Forall plain_line spill
    ∧ (NoDup (map decl_name (func_params func ++ func_locals func)) →
       spill = imap (λ (i : nat) _, spill_line i) (take 8 (func_params func)))
    ∧ function_entry g func
      = with_output (body_tables g func) (output g ++ head ++ spill) (label_counter g).
Proof.
  cbv zeta.
  destruct (save_params_form (enumerate (func_params func)) (body_tables g func))
    as (spill & F & H).
  exists spill. split_and!; [done| |].
  - intros Hnd.
    pose proof (H [] 0) as H0.
    unfold enumerate in H0.
    rewrite (save_params_code (func_params func) 0 (body_tables g func)) in H0.
    + injection H0 as H0. rewrite H0. done.
    + intros j d Hj. unfold body_tables. cbn [locals set_frame].
      unfold frame_layout. rewrite <- fold_left_app.
      rewrite (alloc_slots_offsets _ ∅ 0 0 Hnd j d).
      * f_equal; lia.
      * by apply lookup_app_l_Some.
  - assert (∀ out c,
              function_entry (with_output g out c) func
              = with_output (body_tables g func)
                  (out ++ ([func_name func +:+ ":"; "    addi sp, sp, -8";
                            "    sw ra, 4(sp)"; "    sw fp, 0(sp)"; "    addi fp, sp, 0"]
                           ++ (if String.eqb (func_name func) "main" && read g
                               then ["    # Save input filename"; "    lw t0, 4(a1)";
                                     "    la t1, input_file_ptr"; "    sw t0, 0(t1)"]
                               else [])
                           ++ (if (0 <? total_locals_size func)%Z
                               then ["    addi sp, sp, -" +:+ str (total_locals_size func)]
                               else [])) ++ spill) c) as Haux.
    { intros out c. unfold function_entry, enumerate in *.
      unfold body_tables, total_locals_size in *.
      destruct (frame_layout func) as [[ls co] total]. cbn [fst snd] in *.
      cbn [with_output set_frame set_type_environment emit emits fold_left output
           label_counter structs globals locals current_function stack_offset read
           type_environment current_locals_size].
      destruct (String.eqb (func_name func) "main" && read g), (0 <? total)%Z.
      all:
        match goal with
        | |- fold_left save_param ?ps ?G = _ =>
            set (G0 := G);
            assert (G0 = with_output
                           (set_frame (set_type_environment g
                                         (local_type_env func ∪ type_environment g))
                              (Some (func_name func)) ls total) (output G0) c)
              as -> by reflexivity
        end;
        rewrite H; f_equal; unfold G0;
        cbn [output emit set_frame set_type_environment with_output];
        by rewrite <- ?app_assoc. }
    rewrite <- (Haux (output g) (label_counter g)). by rewrite with_output_self.
Qed.


Lemma total_locals_size_length func :
  total_locals_size func = 4 * Z.of_nat (length (func_params func ++ func_locals func)).
Proof.
  unfold total_locals_size, frame_layout. rewrite <- fold_left_app.
  destruct (alloc_slots_total (func_params func ++ func_locals func) ∅ 0 0) as [ls' ->].
  cbn [snd]. lia.
Qed.

Lemma entry_code_form g func l :
  function_entry g func
  = with_output (body_tables g func) (output g ++ l) (label_counter g) →
  entry_code g func = l.
Proof.
  intros H. unfold entry_code. rewrite H. cbn [output with_output].
  apply drop_app_length.
Qed.

(** X13. The prologue of a function whose parameters and locals have
    distinct names: the label, the saves of [ra] and [fp] in a two-word
    frame header, in [main] of a program that reads input the store of
    the input file's name, the allocation of one word per parameter and
    local when there is any, and a store of each of the first eight
    argument registers into the slot of its parameter. *)
Theorem function_prologue (g : CodeGenVisitor) (func : Function) :
  NoDup (map decl_name (func_params func ++ func_locals func)) →
  entry_code g func =
  [func_name func +:+ ":"; "    addi sp, sp, -8"; "    sw ra, 4(sp)";
   "    sw fp, 0(sp)"; "    addi fp, sp, 0"]
  ++ (if String.eqb (func_name func) "main" && read g
      then ["    # Save input filename"; "    lw t0, 4(a1)";
            "    la t1, input_file_ptr"; "    sw t0, 0(t1)"]
      else [])
  ++ match func_params func ++ func_locals func with
     | [] => []
     | ds => ["    addi sp, sp, -" +:+ str (4 * Z.of_nat (length ds))]
     end
  ++ imap (λ (i : nat) _,
             "    sw a" +:+ str (Z.of_nat i) +:+ ", "
             +:+ str (- (4 * (Z.of_nat i + 1))) +:+ "(fp)")
       (take 8 (func_params func)).
Proof.
  intros Hnd. destruct (function_entry_form g func) as (spill & _ & Hs & H).
  apply entry_code_form in H. rewrite H, (Hs Hnd), <- !app_assoc.
  do 2 f_equal. rewrite total_locals_size_length.
  by destruct (func_params func ++ func_locals func).
Qed.

Lemma function_prologue_witness :
  entry_code init pick =
  ["pick:"; "    addi sp, sp, -8"; "    sw ra, 4(sp)"; "    sw fp, 0(sp)";
   "    addi fp, sp, 0"; "    addi sp, sp, -8"; "    sw a0, -4(fp)";
   "    sw a1, -8(fp)"].
Proof. apply (function_prologue init pick). apply (bool_decide_unpack _). reflexivity. Defined.

(** *** Stack balance of a function *)

Lemma parse_colon s : NilZero.int_of_string (s +:+ ":") = None.
Proof.
  assert (∀ s, NilEmpty.uint_of_string (s +:+ ":") = None) as Hu.
  { induction s0 as [|a s0 IH]; [done|].
    change (String a s0 +:+ ":") with (String a (s0 +:+ ":")).
    cbn [NilEmpty.uint_of_string]. by rewrite IH. }
  assert (∀ s, NilZero.uint_of_string (s +:+ ":") = None) as Hz.
  { intros [|a s0]; [done|].
    change (String a s0 +:+ ":") with (String a (s0 +:+ ":")).
    unfold NilZero.uint_of_string.
    change (String a (s0 +:+ ":")) with (String a s0 +:+ ":"). apply Hu. }
  destruct s as [|a s]; [done|].
  change (String a s +:+ ":") with (String a (s +:+ ":")).
  unfold NilZero.int_of_string. destruct (Ascii.eqb a _).
  - by rewrite Hz.
  - change (String a (s +:+ ":")) with (String a s +:+ ":"). by rewrite Hz.
Qed.

Lemma strip_prefix_colon p :
  ∀ s imm, strip_prefix p (s +:+ ":") = Some imm → NilZero.int_of_string imm = None.
Proof.
  induction p as [|a p IH]; intros s imm H.
  - cbn in H. injection H as <-. apply parse_colon.
  - destruct s as [|b s].
    + change ("" +:+ ":") with ":" in H. cbn [strip_prefix] in H.
      destruct (Ascii.eqb a _); [|done].
      destruct p; [|done]. cbn in H. by injection H as <-.
    + change (String b s +:+ ":") with (String b (s +:+ ":")) in H.
      cbn [strip_prefix] in H. destruct (Ascii.eqb a b); [|done]. by apply (IH s).
Qed.

Lemma sp_delta_label s : sp_delta (s +:+ ":") = 0.
Proof.
  unfold sp_delta. destruct (strip_prefix _ (s +:+ ":")) as [imm|] eqn:E; [|done].
  by rewrite (strip_prefix_colon _ _ _ E).
Qed.

Lemma expression_code_sp g e : sp_effect (expression_code g e) = 0.
Proof.
  induction e as [l v|l|l|l|l|l x|l e x IH|l op e IH|l op e1 e2 IH1 IH2|l f args IH|l x]
    using expression_nested_ind.
  1-5, 11: leaf_code.
  - unfold expression_code. cbn [visit_expression].
    repeat case_match; rewrite ?emit_emits, output_emits, drop_app_length; reflexivity.
  - rewrite code_dot, !sp_effect_app, IH, sp_effect_dot_load. reflexivity.
  - rewrite code_unary, !sp_effect_app, IH, sp_effect_unary_op. reflexivity.
  - rewrite code_binary, !sp_effect_app, IH1, IH2, sp_effect_binary_op. reflexivity.
  - rewrite code_invocation, !sp_effect_app.
    rewrite (sp_effect_arguments g args IH (λ i, Z.of_nat i)).
    fold (arg_register_loads (length args)). rewrite sp_effect_register_loads.
    destruct args as [|a args']; [reflexivity|].
    set (t := Z.of_nat (length (a :: args')) * 4).
    assert (0 < t) by (unfold t; cbn [length]; lia).
    unfold sp_effect at 1 2. cbn [foldr].
    rewrite sp_delta_addi, sp_delta_addi_neg by done.
    change (sp_effect _) with 0. lia.
Qed.

Lemma sp_effect_restore (total : Z) : (0 ≤ total)%Z → sp_effect (restore_frame total) = 8 + total.
Proof.
  intros H. unfold restore_frame. rewrite sp_effect_app.
  change (sp_effect ["    lw fp, 0(sp)"; "    lw ra, 4(sp)"; "    addi sp, sp, 8"]) with 8.
  destruct (0 <? total)%Z eqn:E.
  - unfold sp_effect. cbn [foldr]. rewrite sp_delta_addi. lia.
  - apply Z.ltb_ge in E. cbn. lia.
Qed.

Lemma sp_effect_epilogue G :
  (0 ≤ current_locals_size G)%Z → sp_effect (epilogue G) = 8 + current_locals_size G.
Proof. apply sp_effect_restore. Qed.

Lemma return_code_sp G out c ln e :
  (0 ≤ current_locals_size G)%Z →
  sp_effect (statement_code (with_output G out c) (ReturnStatement ln e))
  = 8 + current_locals_size G.
Proof.
  intros HG. unfold statement_code. cbn [visit_statement].
  rewrite expression_code_with_output, emit_with_output.
  change (epilogue (with_output G _ c)) with (epilogue G).
  rewrite emits_with_output.
  change (in_main (with_output G _ c)) with (in_main G).
  destruct (in_main G); rewrite emit_with_output; cbn [output with_output];
    rewrite <- !app_assoc, drop_app_length, !sp_effect_app, expression_code_sp,
      (sp_effect_epilogue G HG);
    [change (sp_effect ["    jal exit"]) with 0|change (sp_effect ["    jr ra"]) with 0];
    change (sp_effect ["    mv a0, t0"]) with 0; lia.
Qed.

Lemma return_empty_code_sp G out c ln :
  (0 ≤ current_locals_size G)%Z →
  sp_effect (statement_code (with_output G out c) (ReturnEmptyStatement ln))
  = 8 + current_locals_size G.
Proof.
  intros HG. unfold statement_code. cbn [visit_statement].
  change (epilogue (with_output G _ c)) with (epilogue G).
  rewrite emits_with_output.
  change (in_main (with_output G _ c)) with (in_main G).
  destruct (in_main G); rewrite ?emit_with_output, ?emits_with_output;
    cbn [output with_output];
    rewrite <- ?app_assoc, drop_app_length, !sp_effect_app,
      (sp_effect_epilogue G HG);
    [change (sp_effect ["    li a0, 0"; "    jal exit"]) with 0
    |change (sp_effect ["    jr ra"]) with 0]; lia.
Qed.

(** X14. The stack pointer across a function: the prologue lowers it by
    the two-word frame header and the frame, and the code of every
    return statement generated in the body, with or without a value,
    raises it by as much before it leaves, as does the return appended
    to a body that does not end in one. *)
Theorem return_paths_restore_frame (g : CodeGenVisitor) (func : Function) :
  let total := total_locals_size func in
  sp_effect (entry_code g func) = - (8 + total)
  ∧ (∀ out c ln e,
       sp_effect (statement_code (with_output (function_entry g func) out c)
                    (ReturnStatement ln e)) = 8 + total)
  ∧ (∀ out c ln,
       sp_effect (statement_code (with_output (function_entry g func) out c)
                    (ReturnEmptyStatement ln)) = 8 + total)
  ∧ sp_effect (implicit_return (func_name func) total) = 8 + total.
Proof.
  cbv zeta.
  assert (0 ≤ total_locals_size func)%Z as Hpos by (rewrite total_locals_size_length; lia).
  destruct (function_entry_form g func) as (spill & F & _ & H).
  split_and!.
  - rewrite (entry_code_form _ _ _ H), !sp_effect_app.
    rewrite (sp_effect_neutral_lines spill).
    2: { eapply Forall_impl; [exact F|]. by intros x [? _]. }
    unfold sp_effect at 1. cbn [foldr]. rewrite sp_delta_label.
    change (sp_delta "    addi sp, sp, -8") with (-8).
    change (sp_delta "    sw ra, 4(sp)") with 0.
    change (sp_delta "    sw fp, 0(sp)") with 0.
    change (sp_delta "    addi fp, sp, 0") with 0.
    replace (sp_effect (if String.eqb (func_name func) "main" && read g
                        then _ else _)) with 0 by (by case_match).
    destruct (0 <? total_locals_size func)%Z eqn:E.
    + apply Z.ltb_lt in E. unfold sp_effect. cbn [foldr].
      rewrite sp_delta_addi_neg by done. lia.
    + apply Z.ltb_ge in E. cbn. lia.
  - intros out c ln e. rewrite H.
    apply (return_code_sp (body_tables g func) out c ln e Hpos).
  - intros out c ln. rewrite H.
    apply (return_empty_code_sp (body_tables g func) out c ln Hpos).
  - unfold implicit_return. destruct (String.eqb (func_name func) "main").
    + rewrite !sp_effect_app, (sp_effect_restore _ Hpos).
      change (sp_effect ["    # Implicit return from main"]) with 0.
      change (sp_effect ["    li a0, 0"; "    jal exit"]) with 0. lia.
    + rewrite !sp_effect_app, (sp_effect_restore _ Hpos).
      change (sp_effect ["    # Implicit return"]) with 0.
      change (sp_effect ["    jr ra"]) with 0. lia.
Qed.

(** *** The return appended to a body *)

Lemma entry_code_head g func :
  take 5 (entry_code g func)
  = [func_name func +:+ ":"; "    addi sp, sp, -8"; "    sw ra, 4(sp)";
     "    sw fp, 0(sp)"; "    addi fp, sp, 0"].
Proof.
  destruct (function_entry_form g func) as (spill & _ & _ & H).
  by rewrite (entry_code_form _ _ _ H).
Qed.

Lemma entry_code_sp g func :
  sp_effect (entry_code g func) = - (8 + total_locals_size func).
Proof.
  assert (0 ≤ total_locals_size func)%Z as Hpos by (rewrite total_locals_size_length; lia).
  destruct (function_entry_form g func) as (spill & F & _ & H).
  rewrite (entry_code_form _ _ _ H), !sp_effect_app.
  rewrite (sp_effect_neutral_lines spill).
  2: { eapply Forall_impl; [exact F|]. by intros x [? _]. }
  unfold sp_effect at 1. cbn [foldr]. rewrite sp_delta_label.
  change (sp_delta "    addi sp, sp, -8") with (-8).
  change (sp_delta "    sw ra, 4(sp)") with 0.
  change (sp_delta "    sw fp, 0(sp)") with 0.
  change (sp_delta "    addi fp, sp, 0") with 0.
  replace (sp_effect (if String.eqb (func_name func) "main" && read g
                      then _ else _)) with 0 by (by case_match).
  destruct (0 <? total_locals_size func)%Z eqn:E.
  - apply Z.ltb_lt in E. unfold sp_effect. cbn [foldr].
    rewrite sp_delta_addi_neg by done. lia.
  - apply Z.ltb_ge in E. cbn. lia.
Qed.

Lemma restore_frame_length func :
  restore_frame (total_locals_size func)
  = match func_params func ++ func_locals func with
    | [] => []
    | _ :: _ =>
        ["    addi sp, sp, "
         +:+ str (4 * Z.of_nat (length (func_params func ++ func_locals func)))]
    end
    ++ ["    lw fp, 0(sp)"; "    lw ra, 4(sp)"; "    addi sp, sp, 8"].
Proof.
  unfold restore_frame. rewrite total_locals_size_length.
  destruct (func_params func ++ func_locals func) as [|d ds]; [done|].
  replace (0 <? 4 * Z.of_nat (length (d :: ds)))%Z with true; [done|].
  symmetry. apply Z.ltb_lt. cbn [length]. lia.
Qed.

(** C8. After a body that is empty or does not end in a return
    statement, with or without a value, the generator appends a return
    of its own: a comment, the lines that restore the frame, and then
    in [main] the load of exit status 0 into [a0] and the call of
    [exit], in every other function the jump to [ra]; after a body that
    ends in a return statement it appends nothing but the blank line
    that closes every function.  The lines that restore the frame
    release one word for each parameter and local of the function when
    it has any, reload [fp] and [ra] from the two words in which the
    prologue saved them, and release those two words: they raise the
    stack pointer by what the prologue lowered it. *)
Theorem implicit_epilogue (g : CodeGenVisitor) (func : Function) :
  let after_body := fold_left visit_statement (func_body func) (function_entry g func) in
  let frame := 4 * Z.of_nat (length (func_params func ++ func_locals func)) in
  let restore :=
    match func_params func ++ func_locals func with
    | [] => []
    | _ :: _ => ["    addi sp, sp, " +:+ str frame]
    end
    ++ ["    lw fp, 0(sp)"; "    lw ra, 4(sp)"; "    addi sp, sp, 8"] in
  output (visit_function g func)
  = output after_body
    ++ match last (func_body func) with
       | Some (ReturnStatement _ _) | Some (ReturnEmptyStatement _) => []
       | _ =>
           if String.eqb (func_name func) "main"
           then ["    # Implicit return from main"] ++ restore
                ++ ["    li a0, 0"; "    jal exit"]
           else ["    # Implicit return"] ++ restore ++ ["    jr ra"]
       end
    ++ [""]
  ∧ take 5 (entry_code g func)
    = [func_name func +:+ ":"; "    addi sp, sp, -8"; "    sw ra, 4(sp)";
       "    sw fp, 0(sp)"; "    addi fp, sp, 0"]
  ∧ sp_effect (entry_code g func) = - (8 + frame)
  ∧ sp_effect restore = 8 + frame.
Proof.
  cbv zeta. rewrite <- restore_frame_length, <- total_locals_size_length.
  split_and!.
  - apply implicit_return_lines.
  - apply entry_code_head.
  - apply entry_code_sp.
  - apply sp_effect_restore. rewrite total_locals_size_length. lia.
Qed.

(** *** The input slot *)

Lemma label_not_slot s : ¬ uses_input_slot (s +:+ ":").
Proof.
  intros [H|H]; apply (f_equal last_ascii) in H; rewrite last_ascii_colon in H;
    discriminate H.
Qed.

Lemma labelled_globals_with_output g out c :
  labelled_globals g → labelled_globals (with_output g out c).
Proof. done. Qed.

(** A function's visit appends its label and its code and leaves the
    layouts, the global labels and the input flag as they are.  The code
    does not refer to the input slot when the flag is off and the scan
    finds no read expression in the body, and holds no error comment
    when the generator finds the variables and fields of the body. *)
Lemma visit_function_form func g :
  ∃ l, output (visit_function g func) = output g ++ (func_name func +:+ ":") :: l
     ∧ (labelled_globals g → read g = false →
        existsb check_stmt (func_body func) = false → slot_free l)
     ∧ (Forall (known_stmt (body_tables g func)) (func_body func) → error_free l)
     ∧ globals (visit_function g func) = globals g
     ∧ read (visit_function g func) = read g
     ∧ structs (visit_function g func) = structs g.
Proof.
  destruct (function_entry_form g func) as (spill & F & _ & H).
  assert (Forall (λ s, ∀ g c, ∃ l,
            labels_in c (c + 2 * Z.of_nat (label_sites s)) l
            ∧ (labelled_globals g → check_stmt s = false → slot_free l)
            ∧ (known_stmt g s → error_free l)
            ∧ ∀ out, visit_statement (with_output g out c) s
                     = with_output g (out ++ l) (c + 2 * Z.of_nat (label_sites s)))
            (func_body func)) as Hall.
  { apply Forall_forall. intros s _. apply statement_with_output. }
  destruct (statements_with_output (func_body func) Hall (body_tables g func)
              (label_counter g)) as (lb & _ & Sb & Eb & Hb).
  set (tail := if needs_implicit_return (func_body func)
               then implicit_return (func_name func) (total_locals_size func) else []).
  set (pre := ["    addi sp, sp, -8"; "    sw ra, 4(sp)"; "    sw fp, 0(sp)";
               "    addi fp, sp, 0"]
    ++ (if String.eqb (func_name func) "main" && read g
        then ["    # Save input filename"; "    lw t0, 4(a1)";
              "    la t1, input_file_ptr"; "    sw t0, 0(t1)"]
        else [])
    ++ (if (0 <? total_locals_size func)%Z
        then ["    addi sp, sp, -" +:+ str (total_locals_size func)] else [])).
  exists (pre ++ spill ++ lb ++ tail ++ [""]).
  assert (∀ G out c (b : bool) l,
            (if b then emits (with_output G out c) l else with_output G out c)
            = with_output G (out ++ if b then l else []) c) as Hif.
  { intros G out c [] l; [apply emits_with_output|by rewrite app_nil_r]. }
  split_and!.
  - unfold visit_function. rewrite H, Hb. fold tail.
    rewrite Hif, emit_with_output.
    cbn [output set_type_environment set_current_function with_output].
    unfold tail, pre. by rewrite <- !app_assoc.
  - intros LG Hr Hc. unfold pre. rewrite Hr, andb_false_r.
    repeat apply slot_free_app.
    + slot_lines.
    + slot_lines.
    + slot_lines.
    + eapply Forall_impl; [exact F|]. by intros x (_ & _ & ? & _).
    + by apply Sb.
    + unfold tail, implicit_return, restore_frame.
      destruct (needs_implicit_return _); [|slot_lines].
      destruct (String.eqb _ _); repeat apply slot_free_app; slot_lines.
    + slot_lines.
  - intros Hk. unfold pre. repeat apply error_free_app.
    + error_lines.
    + error_lines.
    + error_lines.
    + eapply Forall_impl; [exact F|]. by intros x (_ & _ & _ & ?).
    + by apply Eb.
    + unfold tail, implicit_return, restore_frame.
      destruct (needs_implicit_return _); [|error_lines].
      destruct (String.eqb _ _); repeat apply error_free_app; error_lines.
    + error_lines.
  - unfold visit_function. by rewrite H, Hb, Hif, emit_with_output.
  - unfold visit_function. by rewrite H, Hb, Hif, emit_with_output.
  - unfold visit_function. by rewrite H, Hb, Hif, emit_with_output.
Qed.

Lemma visit_functions_slot fs :
  ∀ g, ∃ l,
    output (fold_left visit_function fs g) = output g ++ l
    ∧ (labelled_globals g → read g = false →
       existsb (λ func, existsb check_stmt (func_body func)) fs = false → slot_free l).
Proof.
  induction fs as [|f fs IH]; intros g; cbn [fold_left].
  - exists []. split; [by rewrite app_nil_r|slot_lines].
  - destruct (visit_function_form f g) as (l1 & O1 & S1 & _ & G1 & R1 & _).
    destruct (IH (visit_function g f)) as (l2 & O2 & S2).
    exists (((func_name f +:+ ":") :: l1) ++ l2).
    split; [by rewrite O2, O1, <- app_assoc|].
    intros LG Hr Hc. cbn [existsb] in Hc. apply orb_false_iff in Hc as [Hc1 Hc2].
    apply slot_free_app.
    + apply Forall_cons; split; [apply label_not_slot|by apply S1].
    + apply S2; [|congruence|done]. unfold labelled_globals. by rewrite G1.
Qed.

(** The functions of a program, each with the variables and fields of
    its body found in the tables in force when it is reached: no line
    of their code is an error comment, unless it is the label of a
    function so named. *)
Lemma visit_functions_errors fs :
  ∀ g,
    (∀ fs1 f fs2, fs = fs1 ++ f :: fs2 →
       Forall (known_stmt (body_tables (fold_left visit_function fs1 g) f))
         (func_body f)) →
    ∃ l, output (fold_left visit_function fs g) = output g ++ l
         ∧ ∀ line, line ∈ l → is_error_line line = true →
             ∃ f, f ∈ fs ∧ line = func_name f +:+ ":".
Proof.
  induction fs as [|f fs IH]; intros g Hk; cbn [fold_left].
  - exists []. split; [by rewrite app_nil_r|]. by intros line Hin%elem_of_nil.
  - destruct (visit_function_form f g) as (l1 & O1 & _ & E1 & _).
    destruct (IH (visit_function g f)) as (l2 & O2 & E2).
    { intros fs1 f' fs2 ->. apply (Hk (f :: fs1) f' fs2 eq_refl). }
    exists (((func_name f +:+ ":") :: l1) ++ l2).
    split; [by rewrite O2, O1, <- app_assoc|].
    intros line Hin He. apply elem_of_app in Hin as [Hin|Hin].
    + apply elem_of_cons in Hin as [->|Hin].
      * exists f. split; [apply elem_of_cons; by left|done].
      * specialize (E1 (Hk [] f fs eq_refl)).
        pose proof (proj1 (Forall_forall _ _) E1 line Hin) as Hf. cbn beta in Hf.
        congruence.
    + destruct (E2 line Hin He) as (f' & Hf' & ->).
      exists f'. split; [apply elem_of_cons; by right|done].
Qed.

Lemma emit_globals_slot ds :
  ∀ g, labelled_globals g →
    ∃ l, slot_free l
         ∧ output (fold_left emit_global ds g) = output g ++ l
         ∧ labelled_globals (fold_left emit_global ds g)
         ∧ read (fold_left emit_global ds g) = read g
         ∧ error_free l.
Proof.
  induction ds as [|d ds IH]; intros g LG; cbn [fold_left].
  - exists []. split_and!; [slot_lines|by rewrite app_nil_r|done|done|error_lines].
  - destruct (IH (emit_global g d)) as (l & S & O & LG' & R & E).
    + intros n lab. unfold emit_global. cbn [globals emit set_globals].
      destruct (decide (decl_name d = n)) as [<-|Hne].
      * rewrite lookup_insert_eq. by intros [= <-].
      * rewrite lookup_insert_ne by done. apply LG.
    + exists ((("global_" +:+ decl_name d) +:+ ": .space "
                +:+ str (_type_size (decl_type d))) :: l).
      split_and!; [|rewrite O|done|by rewrite R|].
      * apply Forall_cons; split; [|done].
        let H := fresh in intros [H|H]; discriminate H.
      * cbn [emit_global output emit set_globals]. by rewrite <- app_assoc.
      * apply Forall_cons; split; [reflexivity|done].
Qed.

(** The tables a fold of [emit_global] leaves or fills. *)
Lemma emit_globals_tables ds :
  ∀ g, structs (fold_left emit_global ds g) = structs g
       ∧ type_environment (fold_left emit_global ds g) = type_environment g
       ∧ ∀ x, x ∈ map decl_name ds ∨ is_Some (globals g !! x) →
              is_Some (globals (fold_left emit_global ds g) !! x).
Proof.
  induction ds as [|d ds IH]; intros g; cbn [fold_left map].
  - split_and!; [done|done|]. intros x [Hx|Hx]; [by apply elem_of_nil in Hx|done].
  - destruct (IH (emit_global g d)) as (-> & -> & Hdom).
    split_and!; [done|done|]. intros x Hx. apply Hdom.
    unfold emit_global. cbn [globals emit set_globals].
    destruct (decide (decl_name d = x)) as [<-|Hne].
    + right. rewrite lookup_insert_eq. by eexists.
    + rewrite lookup_insert_ne by done.
      destruct Hx as [Hx|Hx]; [|by right]. left.
      apply elem_of_cons in Hx as [Hx|Hx]; [congruence|done].
Qed.

Lemma globals_layouts ts :
  ∀ g, globals (fold_left _calculate_struct_layout ts g) = globals g.
Proof. induction ts as [|t ts IH]; intros g; cbn [fold_left]; [done|]. by rewrite IH. Qed.

Lemma globals_global_types ds :
  ∀ g, globals (fold_left declare_global_type ds g) = globals g.
Proof. induction ds as [|d ds IH]; intros g; cbn [fold_left]; [done|]. by rewrite IH. Qed.

(** The header of a program: the global labels are the ones
    [visit_program] builds, the input flag is the result of the scan,
    and the input slot is declared when the flag is on and not
    mentioned when it is off. *)
Lemma program_header_slot program :
  labelled_globals (program_header init program)
  ∧ read (program_header init program) = _check_for_read program
  ∧ if _check_for_read program
    then In "input_file_ptr: .space 4" (output (program_header init program))
    else slot_free (output (program_header init program)).
Proof.
  unfold program_header.
  set (ga := fold_left declare_global_type (prog_declarations program)
               (fold_left _calculate_struct_layout (prog_types program) init)).
  assert (output ga = []) as Oa.
  { unfold ga. by rewrite output_global_types, output_layouts. }
  assert (globals ga = ∅) as Ga.
  { unfold ga. by rewrite globals_global_types, globals_layouts. }
  assert (∀ g l, read (emits g l) = read g) as read_emits
    by (intros; apply emits_tables).
  destruct (_check_for_read program); cbn [read set_read emit].
  - match goal with |- context [fold_left emit_global ?ds ?gx] =>
      destruct (emit_globals_slot ds gx) as (l & S & O & LG & R & _) end.
    { intros n lab. change (globals _) with (globals ga). rewrite Ga.
      by rewrite lookup_empty. }
    split_and!.
    + unfold labelled_globals. by rewrite globals_emits.
    + by rewrite read_emits, R.
    + rewrite output_emits, O. cbn [output emit set_read]. rewrite Oa. cbn [app].
      rewrite <- list_elem_of_In, !elem_of_cons. do 5 right. by left.
  - match goal with |- context [fold_left emit_global ?ds ?gx] =>
      destruct (emit_globals_slot ds gx) as (l & S & O & LG & R & _) end.
    { intros n lab. change (globals _) with (globals ga). rewrite Ga.
      by rewrite lookup_empty. }
    split_and!.
    + unfold labelled_globals. by rewrite globals_emits.
    + by rewrite read_emits, R.
    + rewrite output_emits, O. cbn [output emit set_read]. rewrite Oa.
      repeat apply slot_free_app; try done; slot_lines.
Qed.

(** X15. The generated program and its input slot: when the scan of the
    function bodies finds a read expression the data section declares
    [input_file_ptr]; when it finds none, no line of the program loads
    that address, neither for a read nor in the prologue of [main]. *)
Theorem input_slot_declared (program : Program) :
  if _check_for_read program
  then In "input_file_ptr: .space 4" (generate program)
  else ∀ line, In line (generate program) →
         line ≠ "    la t0, input_file_ptr" ∧ line ≠ "    la t1, input_file_ptr".
Proof.
  unfold generate, visit_program.
  destruct (program_header_slot program) as (LG & R & H).
  destruct (visit_functions_slot (prog_functions program) (program_header init program))
    as (l & -> & S).
  fold (_check_for_read program) in S.
  destruct (_check_for_read program) eqn:E.
  - apply in_or_app. by left.
  - intros line Hin. apply in_app_or in Hin.
    assert (¬ uses_input_slot line) as Hn.
    { destruct Hin as [Hin|Hin]; apply list_elem_of_In in Hin.
      - by apply (proj1 (Forall_forall _ _) H).
      - by apply (proj1 (Forall_forall _ _) (S LG R eq_refl)). }
    unfold uses_input_slot in Hn. tauto.
Qed.

(** *** Struct fields *)





(** *** Tables of the generator *)

(** A dictionary filled in list order from entries with distinct keys
    holds, for each key, the entry of that key. *)
Lemma fold_insert_first {A V} (key : A → string) (val : A → V) (l : list A) :
  NoDup (map key l) →
  ∀ (m : gmap string V) k,
    fold_left (λ m d, <[key d := val d]> m) l m !! k
    = match find (λ d, String.eqb (key d) k) l with
      | Some d => Some (val d)
      | None => m !! k
      end.
Proof.
  induction l as [|a l IH]; intros Hnd m k; cbn [fold_left find map] in *; [done|].
  apply NoDup_cons in Hnd as [Ha Hnd]. rewrite (IH Hnd).
  destruct (String.eqb_spec (key a) k) as [<-|Hne].
  - destruct (find _ l) as [d|] eqn:E; [|by rewrite lookup_insert_eq].
    apply find_some in E as [Hin Heq]. apply String.eqb_eq in Heq.
    exfalso. apply Ha. rewrite <- Heq. apply list_elem_of_fmap.
    exists d. split; [done|by apply list_elem_of_In].
  - destruct (find _ l); [done|]. by rewrite lookup_insert_ne.
Qed.

Lemma layouts_tables ts :
  ∀ g, structs (fold_left _calculate_struct_layout ts g)
       = fold_left (λ m t, <[tdecl_name t := struct_layout (tdecl_fields t)]> m) ts
           (structs g)
       ∧ type_environment (fold_left _calculate_struct_layout ts g) = type_environment g.
Proof.
  induction ts as [|t ts IH]; intros g; cbn [fold_left]; [done|].
  destruct (IH (_calculate_struct_layout g t)) as [-> ->]. done.
Qed.

Lemma global_types_tables ds :
  ∀ g, structs (fold_left declare_global_type ds g) = structs g
       ∧ type_environment (fold_left declare_global_type ds g)
         = fold_left bind_type ds (type_environment g).
Proof.
  induction ds as [|d ds IH]; intros g; cbn [fold_left]; [done|].
  destruct (IH (declare_global_type g d)) as [-> ->]. done.
Qed.

(** The tables the header leaves for the functions. *)
Lemma program_header_tables program :
  structs (program_header init program)
  = fold_left (λ m t, <[tdecl_name t := struct_layout (tdecl_fields t)]> m)
      (prog_types program) ∅
  ∧ type_environment (program_header init program)
    = fold_left bind_type (prog_declarations program) ∅
  ∧ ∀ x, x ∈ map decl_name (prog_declarations program) →
         is_Some (globals (program_header init program) !! x).
Proof.
  unfold program_header.
  set (g1 := fold_left _calculate_struct_layout (prog_types program) init).
  set (g2 := fold_left declare_global_type (prog_declarations program) g1).
  assert (structs g2 = fold_left (λ m t, <[tdecl_name t := struct_layout (tdecl_fields t)]> m)
                         (prog_types program) ∅) as Hs.
  { unfold g2. destruct (global_types_tables (prog_declarations program) g1) as [-> _].
    unfold g1. by destruct (layouts_tables (prog_types program) init) as [-> _]. }
  assert (type_environment g2 = fold_left bind_type (prog_declarations program) ∅) as Ht.
  { unfold g2. destruct (global_types_tables (prog_declarations program) g1) as [_ ->].
    unfold g1. by destruct (layouts_tables (prog_types program) init) as [_ ->]. }
  rewrite structs_emits, type_environment_emits, globals_emits.
  match goal with |- context [fold_left emit_global ?ds ?gx] =>
    destruct (emit_globals_tables ds gx) as (-> & -> & Hdom) end.
  split_and!.
  - rewrite <- Hs. by destruct (_check_for_read program).
  - rewrite <- Ht. by destruct (_check_for_read program).
  - intros x Hx. apply Hdom. by left.
Qed.

Lemma program_header_errors program :
  error_free (output (program_header init program)).
Proof.
  unfold program_header.
  set (ga := fold_left declare_global_type (prog_declarations program)
               (fold_left _calculate_struct_layout (prog_types program) init)).
  assert (output ga = []) as Oa.
  { unfold ga. by rewrite output_global_types, output_layouts. }
  assert (labelled_globals ga) as LGa.
  { intros n lab. unfold ga. rewrite globals_global_types, globals_layouts.
    cbn [globals init]. by rewrite lookup_empty. }
  destruct (_check_for_read program); cbn [read set_read emit].
  all: match goal with |- context [fold_left emit_global ?ds ?gx] =>
         destruct (emit_globals_slot ds gx) as (l & _ & O & _ & _ & E);
           [exact LGa|] end.
  all: rewrite output_emits, O; cbn [output emit set_read]; rewrite Oa;
    repeat apply error_free_app; try done; error_lines.
Qed.

(** Across the functions of a program the layouts and the global
    labels stay as the header left them, and the type environment only
    loses entries. *)
Lemma visit_functions_tables fs :
  ∀ g, structs (fold_left visit_function fs g) = structs g
       ∧ globals (fold_left visit_function fs g) = globals g
       ∧ ∀ x T, type_environment (fold_left visit_function fs g) !! x = Some T →
                type_environment g !! x = Some T.
Proof.
  induction fs as [|f fs IH]; intros g; cbn [fold_left]; [done|].
  destruct (IH (visit_function g f)) as (-> & -> & Henv).
  destruct (visit_function_form f g) as (l & _ & _ & _ & -> & _ & ->).
  split_and!; [done|done|]. intros x T Hx. apply Henv in Hx.
  destruct (visit_function_spec g f) as [Ht _]. rewrite Ht in Hx.
  apply lookup_difference_Some in Hx as [Hx Hn].
  apply lookup_union_Some_raw in Hx as [Hx|[_ Hx]]; [congruence|done].
Qed.

Lemma alloc_slots_dom ds :
  ∀ acc x, x ∈ map decl_name ds ∨ is_Some (acc.1.1 !! x) →
           is_Some ((fold_left alloc_slot ds acc).1.1 !! x).
Proof.
  induction ds as [|d ds IH]; intros [[ls co] total] x Hx; cbn [fold_left map] in *.
  - destruct Hx as [Hx|Hx]; [by apply elem_of_nil in Hx|done].
  - apply IH. cbn [alloc_slot fst].
    destruct (decide (decl_name d = x)) as [<-|Hne].
    + right. rewrite lookup_insert_eq. by eexists.
    + rewrite lookup_insert_ne by done. destruct Hx as [Hx|Hx]; [|by right].
      left. apply elem_of_cons in Hx as [Hx|Hx]; [congruence|done].
Qed.

Lemma frame_layout_dom func x :
  x ∈ map decl_name (func_params func ++ func_locals func) →
  is_Some ((frame_layout func).1.1 !! x).
Proof.
  intros Hx. unfold frame_layout. rewrite <- fold_left_app.
  apply alloc_slots_dom. by left.
Qed.

Lemma layout_steps_dom fs :
  ∀ acc f, f ∈ map decl_name fs ∨ is_Some (acc.1 !! f) →
           is_Some ((fold_left layout_step fs acc).1 !! f).
Proof.
  induction fs as [|d fs IH]; intros [m o] f Hf; cbn [fold_left map] in *.
  - destruct Hf as [Hf|Hf]; [by apply elem_of_nil in Hf|done].
  - apply IH. cbn [layout_step fst].
    destruct (decide (decl_name d = f)) as [<-|Hne].
    + right. rewrite lookup_insert_eq. by eexists.
    + rewrite lookup_insert_ne by done. destruct Hf as [Hf|Hf]; [|by right].
      left. apply elem_of_cons in Hf as [Hf|Hf]; [congruence|done].
Qed.

Lemma struct_layout_dom fs f :
  f ∈ map decl_name fs → is_Some (fields (struct_layout fs) !! f).
Proof.
  intros Hf. unfold struct_layout.
  pose proof (layout_steps_dom fs (∅, 0) f (or_introl Hf)) as H.
  by destruct (fold_left layout_step fs (∅, 0)).
Qed.

Lemma local_type_env_first func x :
  NoDup (map decl_name (func_params func ++ func_locals func)) →
  local_type_env func !! x
  = match first_named x (func_params func ++ func_locals func) with
    | Some d => Some (decl_type d)
    | None => None
    end.
Proof.
  intros Hnd. unfold local_type_env. rewrite <- fold_left_app.
  change (fold_left bind_type ?l0 ?m0)
    with (fold_left (λ env d, <[decl_name d := decl_type d]> env) l0 m0).
  rewrite (fold_insert_first decl_name decl_type _ Hnd). unfold first_named.
  destruct (find _ _); [done|apply lookup_empty].
Qed.

End GeneratorFrame.

(** ** From the analyzer to the generator *)

Module Pipeline.
Import Semantic SemanticFacts AnalyzerFrame.
Import LayoutFacts CodeGenFacts GeneratorFrame.

Lemma Errors_self a ds : Errors a ds = a → ds = [].
Proof.
  intros H. apply (f_equal diagnostics) in H. rewrite diagnostics_Errors in H.
  rewrite <- (app_nil_r (diagnostics a)) in H at 2. by apply app_inv_head in H.
Qed.

(** From [H : Errors a l = a], with [l] built by appending: every part
    of [l] is empty. *)
Ltac quiet_inv H :=
  rewrite ?Error_Errors, <- ?Errors_app in H;
  apply Errors_self in H; rewrite <- ?app_assoc in H;
  repeat (let H' := fresh in apply app_eq_nil in H as [H' H]; try discriminate H');
  try discriminate H; subst.

Lemma check_arguments_accepted args :
  ∀ ps a, (length args ≤ length ps)%nat → check_arguments a args ps = a →
          Forall (λ e, (_expr_type a e).2 = a) args.
Proof.
  induction args as [|e args IH]; intros ps a Hlen H; [done|].
  destruct ps as [|p ps]; [cbn in Hlen; lia|]. cbn [check_arguments] in H.
  destruct (expr_reports_only_at a e) as (t & n1 & H1). rewrite H1 in H.
  cbv beta iota in H. rewrite Type__Errors in H.
  destruct (check_argument_reports t (Type_ a (decl_type p)) (expr_linenum e))
    as (n2 & H2).
  rewrite (H2 a n1) in H.
  destruct (check_arguments_reports args
              (proj2 (Forall_forall _ _) (λ e _, expr_reports_only e)) ps a) as (n3 & H3).
  rewrite H3 in H. pose proof (H3 []) as H3'. quiet_inv H.
  apply Forall_cons; split; [by rewrite H1|].
  apply (IH ps); [cbn in Hlen; lia|]. apply H3'.
Qed.

(** An expression the analyzer checks without a report, with tables the
    generator's cover: the generator finds its variables and fields. *)
Lemma accepted_expr_known a g e :
  agree a g → (_expr_type a e).2 = a → known_expr g e.
Proof.
  intros [Hvar Hfld].
  induction e as [l v|l|l|l|l|l x|l e x IH|l op e IH|l op e1 e2 IH1 IH2|l f args IH|l x]
    using expression_nested_ind; intros Hq; try exact I.
  - cbn [_expr_type] in Hq. cbn [known_expr].
    destruct (lookup_current a x) as [d|] eqn:E; [by apply (Hvar x d)|].
    cbn [snd] in Hq. quiet_inv Hq.
  - cbn [_expr_type] in Hq.
    destruct (expr_reports_only_at a e) as (t & n1 & H1). rewrite H1 in Hq.
    cbv beta iota in Hq. rewrite ?structs_Errors, ?Type__Errors in Hq.
    assert (n1 = [] ∧ ∀ sname td, t = Some (STRUCT sname) →
              structs a !! sname = Some td → is_Some (find_field td x)) as [-> Hfield].
    { destruct t as [[| | | |sname]|]; cbn [snd] in Hq; rewrite ?structs_Errors in Hq.
      5: destruct (structs a !! sname) as [td|] eqn:Es;
           [destruct (find_field td x) eqn:Ef|]; cbn [snd] in Hq.
      all: quiet_inv Hq; (split; [done|]);
        intros sname' td' Heq Hs; try discriminate Heq.
      - injection Heq as <-. rewrite Es in Hs. injection Hs as <-. by rewrite Ef.
      - injection Heq as <-. by rewrite Es in Hs. }
    change (Errors a []) with a in H1.
    assert (known_expr g e) as Hk by (apply IH; by rewrite H1).
    cbn [known_expr]. split; [done|].
    destruct e as [| | | | |ly y| | | | |]; try (cbn; error_lines).
    unfold CodeGen._get_struct_type, CodeGen.dot_load.
    destruct (CodeGen.type_environment g !! y) as [[| |l2 sname]|] eqn:Et;
      try error_lines.
    destruct (String.eqb sname ""); [error_lines|].
    destruct (CodeGen.structs g !! sname) as [lay|] eqn:Es; [|error_lines].
    destruct (CodeGen.fields lay !! x) as [off|] eqn:Ef; [error_lines|].
    exfalso. cbn [_expr_type] in H1.
    destruct (lookup_current a y) as [d|] eqn:Ey; [|injection H1 as _ H1; quiet_inv H1].
    destruct (Hfld y l2 sname lay d Et Es Ey) as (l' & td & Hd & Hs & Hall).
    injection H1 as H1. rewrite Hd in H1. cbn [Type_] in H1. rewrite Hs in H1.
    destruct (Hfield sname td (eq_sym H1) Hs) as [fld Hfd].
    destruct (Hall x fld Hfd) as [off Hoff]. by rewrite Ef in Hoff.
  - cbn [_expr_type] in Hq. cbn [known_expr].
    destruct (expr_reports_only_at a e) as (t & n1 & H1). rewrite H1 in Hq.
    cbv beta iota in Hq. apply IH. rewrite H1. cbn [snd].
    destruct t as [t|]; cbn [snd] in Hq.
    + destruct (unary_rule_reports op t l) as (r & n2 & H2). rewrite (H2 a n1) in Hq.
      cbn [snd] in Hq. by quiet_inv Hq.
    + by quiet_inv Hq.
  - cbn [_expr_type] in Hq. cbn [known_expr].
    destruct (expr_reports_only_at a e1) as (t1 & n1 & H1). rewrite H1 in Hq.
    cbv beta iota in Hq.
    destruct (expr_reports_only e2 a) as (t2 & n2 & H2). rewrite (H2 n1) in Hq.
    cbv beta iota in Hq. pose proof (H2 []) as H2'.
    assert (n1 = [] ∧ n2 = []) as [-> ->].
    { destruct t1 as [t1|], t2 as [t2|]; cbn [snd] in Hq.
      1: destruct (binary_rule_reports op t1 t2 l) as (r & n3 & H3);
         rewrite (H3 a (n1 ++ n2)) in Hq; cbn [snd] in Hq.
      all: by quiet_inv Hq. }
    split; [apply IH1; by rewrite H1|apply IH2; exact (f_equal snd H2')].
  - rewrite _expr_type_invocation in Hq. cbn [known_expr]. apply known_arguments.
    destruct (functions a !! f) as [fn|] eqn:Ef; [|cbn [snd] in Hq; quiet_inv Hq].
    cbv zeta in Hq. cbn [snd] in Hq.
    destruct (check_arguments_reports args
                (proj2 (Forall_forall _ _) (λ e _, expr_reports_only e))
                (func_params fn) a) as (n3 & H3).
    case_bool_decide as Hlen.
    { rewrite Error_Errors, H3 in Hq. quiet_inv Hq. }
    assert (Forall (λ e, (_expr_type a e).2 = a) args) as Hargs.
    { apply (check_arguments_accepted args (func_params fn)); [|done].
      lia. }
    clear -IH Hargs. induction IH as [|e args He _ IHa]; [done|].
    apply Forall_cons in Hargs as [H1 H2].
    apply Forall_cons; split; [by apply He|by apply IHa].
Qed.

Lemma lvalue_reports lv a :
  ∃ t new, ∀ pre, _lvalue_type (Errors a pre) lv = (t, Errors a (pre ++ new)).
Proof.
  destruct lv as [l x|l lv x]; cbn [_lvalue_type].
  - destruct (lookup_current a x) as [d|] eqn:E; eexists _, _; intros pre;
      rewrite lookup_current_Errors, E; close_report.
  - eexists _, []. intros pre. apply report_nil_r.
Qed.

Lemma statements_accepted ss :
  ∀ a, fold_left visit_statement ss a = a → Forall (λ s, visit_statement a s = a) ss.
Proof.
  induction ss as [|s ss IH]; intros a H; [done|]. cbn [fold_left] in H.
  destruct (statement_reports_only s a) as (n1 & H1). pose proof (H1 []) as H1'.
  change (Errors a []) with a in H1'. rewrite H1' in H.
  destruct (statements_report_only ss
              (proj2 (Forall_forall _ _) (λ s _, statement_reports_only s)) a)
    as (n2 & H2).
  rewrite H2 in H. pose proof (H2 []) as H2'. quiet_inv H.
  apply Forall_cons; split; [exact H1'|]. apply IH. exact H2'.
Qed.

(** A statement the analyzer checks without a report inside a function,
    with tables the generator's cover: the generator finds the
    variables and fields of every expression it visits in it. *)
Lemma accepted_stmt_known a g s :
  agree a g → is_Some (current_function a) →
  visit_statement a s = a → known_stmt g s.
Proof.
  intros Hag [fn Hfn].
  induction s as [l ss IH|l t e|l e s1 s2 IH1 IH2|l e s IH|l e|l e|l e|l e|l e|l]
    using statement_nested_ind; intros Hq; cbn [visit_statement] in Hq;
    cbn [known_stmt].
  - apply known_statements. apply statements_accepted in Hq.
    clear -IH Hq. induction IH as [|s ss Hs _ IHs]; [done|].
    apply Forall_cons in Hq as [H1 H2].
    apply Forall_cons; split; [by apply Hs|by apply IHs].
  - destruct (lvalue_reports t a) as (lt & n0 & H0). pose proof (H0 []) as H0'.
    change (Errors a []) with a in H0'. rewrite H0' in Hq. cbv beta iota in Hq.
    destruct (expr_reports_only e a) as (rt & n1 & H1). rewrite (H1 ([] ++ n0)) in Hq.
    cbv beta iota in Hq. pose proof (H1 []) as H1'.
    apply (accepted_expr_known a g e Hag).
    assert (n0 = [] ∧ n1 = []) as [-> ->];
      [|exact (f_equal snd H1')].
    destruct lt as [lt|], rt as [rt|]; try (by quiet_inv Hq).
    destruct (_types_match (Some lt) (Some rt)); by quiet_inv Hq.
  - destruct (expr_reports_only e a) as (ct & n1 & H1). pose proof (H1 []) as H1'.
    change (Errors a []) with a in H1'. rewrite H1' in Hq. cbv beta iota in Hq.
    destruct (require_reports ct (λ t, bool_decide (t = BOOL))
                "Condition must be a boolean" l) as (n2 & H2).
    rewrite (H2 a ([] ++ n1)) in Hq.
    destruct (statement_reports_only s1 a) as (n3 & H3). rewrite H3 in Hq.
    pose proof (H3 []) as H3'.
    assert (∃ n4, (∀ pre,
              match s2 with
              | Some eb => match statements_of eb with
                           | [] => Errors a pre
                           | _ :: _ => visit_statement (Errors a pre) eb
                           end
              | None => Errors a pre
              end = Errors a (pre ++ n4))
              ∧ (n4 = [] → match s2 with
                           | Some eb => match statements_of eb with
                                        | [] => True
                                        | _ :: _ => known_stmt g eb
                                        end
                           | None => True
                           end)) as (n4 & H4 & K4).
    { destruct s2 as [eb|]; [|exists []; split; [intros; apply Errors_nil_r|done]].
      cbn in IH2. destruct (statements_of eb);
        [exists []; split; [intros; apply Errors_nil_r|done]|].
      destruct (statement_reports_only eb a) as (n4 & H4). exists n4. split; [done|].
      intros ->. apply IH2. apply (H4 []). }
    rewrite H4 in Hq. quiet_inv Hq.
    split_and!; [apply (accepted_expr_known a g e Hag); by rewrite H1'
                |apply IH1; exact H3'|by apply K4].
  - destruct (expr_reports_only e a) as (ct & n1 & H1). pose proof (H1 []) as H1'.
    change (Errors a []) with a in H1'. rewrite H1' in Hq. cbv beta iota in Hq.
    destruct (require_reports ct (λ t, bool_decide (t = BOOL))
                "Condition must be boolean" l) as (n2 & H2).
    rewrite (H2 a ([] ++ n1)) in Hq.
    destruct (statement_reports_only s a) as (n3 & H3). rewrite H3 in Hq.
    pose proof (H3 []) as H3'. quiet_inv Hq.
    split; [apply (accepted_expr_known a g e Hag); by rewrite H1'|apply IH; exact H3'].
  - destruct (expr_reports_only e a) as (t & n1 & H1). pose proof (H1 []) as H1'.
    change (Errors a []) with a in H1'. rewrite H1' in Hq. cbv beta iota in Hq.
    destruct (require_reports t _is_struct "delete requires a struct" l) as (n2 & H2).
    rewrite (H2 a ([] ++ n1)) in Hq. quiet_inv Hq.
    apply (accepted_expr_known a g e Hag). by rewrite H1'.
  - by apply (accepted_expr_known a g e Hag).
  - destruct (expr_reports_only e a) as (t & n1 & H1). pose proof (H1 []) as H1'.
    change (Errors a []) with a in H1'. rewrite H1' in Hq. cbv beta iota in Hq.
    apply (accepted_expr_known a g e Hag). rewrite H1'. cbn [snd].
    case_bool_decide; by quiet_inv Hq.
  - destruct (expr_reports_only e a) as (t & n1 & H1). pose proof (H1 []) as H1'.
    change (Errors a []) with a in H1'. rewrite H1' in Hq. cbv beta iota in Hq.
    apply (accepted_expr_known a g e Hag). rewrite H1'. cbn [snd].
    case_bool_decide; by quiet_inv Hq.
  - unfold declared_type in Hq. rewrite Hfn in Hq.
    destruct (expr_reports_only e a) as (t & n1 & H1). pose proof (H1 []) as H1'.
    change (Errors a []) with a in H1'. rewrite H1' in Hq. cbv beta iota in Hq.
    apply (accepted_expr_known a g e Hag). rewrite H1'. cbn [snd].
    case_bool_decide; [by quiet_inv Hq|].
    destruct t as [t|]; [|by quiet_inv Hq].
    destruct (_types_match _ _); by quiet_inv Hq.
  - done.
Qed.

(** *** The registries after the declarations *)

Lemma fold_preserves {A B} (proj : SemanticAnalyzer → B)
    (step : SemanticAnalyzer → A → SemanticAnalyzer) xs :
  (∀ a x, proj (step a x) = proj a) → ∀ a, proj (fold_left step xs a) = proj a.
Proof.
  intros Hstep. induction xs as [|x xs IH]; intros a; cbn [fold_left]; [done|].
  by rewrite IH, Hstep.
Qed.

Lemma globals_visit_fields name fs :
  ∀ acc, globals (fold_left (visit_field name) fs acc).2 = globals acc.2.
Proof.
  induction fs as [|f fs IH]; intros [seen a]; cbn [fold_left]; [done|].
  rewrite IH. unfold visit_field.
  case_bool_decide; cbn [snd]; by rewrite globals_undefined_struct_check.
Qed.

Lemma globals_visit_struct a t : globals (visit_struct a t) = globals a.
Proof.
  unfold visit_struct, visit_type_declaration. rewrite globals_visit_fields.
  cbn [snd]. unfold register_struct. by case_match.
Qed.

Lemma structs_visit_global a d : structs (visit_global a d) = structs a.
Proof.
  unfold visit_global. rewrite structs_visit_type, structs_undefined_struct_check.
  unfold define, lookup_local. by repeat case_match.
Qed.

Lemma parent_visit_global a d :
  parent (globals (visit_global a d)) = parent (globals a).
Proof.
  unfold visit_global. rewrite globals_visit_type, globals_undefined_struct_check.
  unfold define, lookup_local. by repeat case_match.
Qed.

Lemma register_function_tables a f :
  structs (register_function a f) = structs a
  ∧ globals (register_function a f) = globals a.
Proof. unfold register_function. by case_match. Qed.

(** Once structs, globals and functions are registered: a struct name
    resolves to the first struct declared with it and a global name to
    the first global declared with it. *)
Lemma registration_tables program :
  let a3 := fold_left register_function (prog_functions program)
              (fold_left visit_global (prog_declarations program)
                 (fold_left visit_struct (prog_types program) init)) in
  (∀ n, structs a3 !! n = first_struct n (prog_types program))
  ∧ (∀ x, lookupTable (globals a3) x = first_named x (prog_declarations program)).
Proof.
  cbv zeta. split.
  - intros n.
    rewrite (fold_preserves structs register_function _
               (λ a f, proj1 (register_function_tables a f))).
    rewrite (fold_preserves structs visit_global _ structs_visit_global).
    by rewrite visit_structs_first.
  - intros x.
    rewrite (fold_preserves globals register_function _
               (λ a f, proj2 (register_function_tables a f))).
    rewrite lookupTable_unfold.
    rewrite (fold_preserves (λ a, parent (globals a)) visit_global _ parent_visit_global).
    rewrite (fold_preserves globals visit_struct _ globals_visit_struct).
    pose proof (visit_globals_first (prog_declarations program)
                  (fold_left visit_struct (prog_types program) init) x) as H.
    unfold lookup_local in H. rewrite H.
    rewrite (fold_preserves globals visit_struct _ globals_visit_struct).
    cbn [globals init symbols parent]. rewrite lookup_empty.
    by destruct (first_named x _).
Qed.

(** A fold over the functions that adds no report adds none at any
    function, and every function is reached with the registries the
    fold started from. *)
Lemma functions_quiet fs :
  ∀ a, errors (fold_left visit_function fs a) = errors a →
       ∀ fs1 f fs2, fs = fs1 ++ f :: fs2 →
         errors (visit_function (fold_left visit_function fs1 a) f)
         = errors (fold_left visit_function fs1 a)
         ∧ globals (fold_left visit_function fs1 a) = globals a
         ∧ structs (fold_left visit_function fs1 a) = structs a.
Proof.
  intros a H fs1 f fs2 ->. rewrite fold_left_app in H. cbn [fold_left] in H.
  pose proof (errors_fold visit_function fs1 errors_visit_function a) as M1.
  pose proof (errors_visit_function (fold_left visit_function fs1 a) f) as M2.
  pose proof (errors_fold visit_function fs2 errors_visit_function
                (visit_function (fold_left visit_function fs1 a) f)) as M3.
  split_and!; [lia| |].
  - apply (fold_preserves globals visit_function).
    intros a' f'. apply visit_function_registries.
  - apply (fold_preserves structs visit_function).
    intros a' f'. apply visit_function_registries.
Qed.

(** *** The analyzer's scope and the generator's tables in a body *)

Lemma agree_body program a g f :
  NoDup (map tdecl_name (prog_types program)) →
  NoDup (map decl_name (prog_declarations program)) →
  NoDup (map decl_name (func_params f ++ func_locals f)) →
  (∀ n, structs a !! n = first_struct n (prog_types program)) →
  (∀ x, lookupTable (globals a) x = first_named x (prog_declarations program)) →
  CodeGen.structs g
  = fold_left (λ m t, <[tdecl_name t := CodeGen.struct_layout (tdecl_fields t)]> m)
      (prog_types program) ∅ →
  (∀ x T, CodeGen.type_environment g !! x = Some T →
          fold_left CodeGen.bind_type (prog_declarations program) ∅ !! x = Some T) →
  (∀ x, x ∈ map decl_name (prog_declarations program) →
        is_Some (CodeGen.globals g !! x)) →
  agree (body_entry a f) (body_tables g f).
Proof.
  intros Nt Nd Nf Hs Hg Gs Ge Gg.
  destruct (body_entry_spec a f) as (_ & _ & Hst & _ & Hlook).
  split.
  - intros x d Hx. rewrite Hlook in Hx.
    destruct (first_named x (func_params f ++ func_locals f)) as [d0|] eqn:E.
    + left. unfold body_tables. cbn [CodeGen.locals CodeGen.set_frame].
      apply frame_layout_dom.
      destruct (first_named_Some _ _ _ E) as [Hin <-].
      apply list_elem_of_fmap. by exists d0.
    + right. unfold body_tables.
      cbn [CodeGen.globals CodeGen.set_frame CodeGen.set_type_environment].
      apply Gg. rewrite Hg in Hx.
      destruct (first_named_Some _ _ _ Hx) as [Hin <-].
      apply list_elem_of_fmap. by exists d.
  - intros x l sname lay d Ht Hl Hx.
    unfold body_tables in Ht, Hl.
    cbn [CodeGen.type_environment CodeGen.structs CodeGen.set_frame
         CodeGen.set_type_environment] in Ht, Hl.
    rewrite Hlook in Hx.
    assert (decl_type d = StructType l sname) as Hd.
    { apply lookup_union_Some_raw in Ht as [Ht|[Hn Ht]].
      - rewrite (local_type_env_first f x Nf) in Ht.
        destruct (first_named x (func_params f ++ func_locals f)); [|done].
        congruence.
      - rewrite (local_type_env_first f x Nf) in Hn.
        destruct (first_named x (func_params f ++ func_locals f)); [done|].
        rewrite Hg in Hx. apply Ge in Ht.
        change (fold_left CodeGen.bind_type ?l0 ?m0)
          with (fold_left (λ env d, <[decl_name d := decl_type d]> env) l0 m0) in Ht.
        rewrite (fold_insert_first decl_name decl_type _ Nd) in Ht.
        unfold first_named in Hx. rewrite Hx in Ht. congruence. }
    rewrite Gs, (fold_insert_first tdecl_name
                   (λ t, CodeGen.struct_layout (tdecl_fields t)) _ Nt) in Hl.
    destruct (find _ (prog_types program)) as [td|] eqn:Etd; [|by rewrite lookup_empty in Hl].
    injection Hl as <-.
    exists l, td. split_and!; [done| |].
    + rewrite Hst, Hs. exact Etd.
    + intros fname fld Hf. apply struct_layout_dom.
      unfold find_field in Hf. apply find_some in Hf as [Hin Heq].
      apply String.eqb_eq in Heq. subst fname.
      apply list_elem_of_fmap. exists fld. split; [done|by apply list_elem_of_In].
Qed.

(** X17. A program the analyzer accepts gets no error comment from the
    generator: in the output of a program for which [analyze] returns
    0, a line that starts with the generator's error marker can only
    be the label of a function whose name starts with it.  So the
    generator finds every variable it loads and every field it reads
    through a variable with a known layout. *)
Theorem accepted_program_has_no_error_comment (program : Program) :
  analyze program = 0 →
  ∀ line, In line (CodeGen.generate program) → is_error_line line = true →
    ∃ f, In f (prog_functions program) ∧ line = func_name f +:+ ":".
Proof.
  intros Hz. unfold analyze, visit_program in Hz.
  set (a1 := fold_left visit_struct (prog_types program) init) in *.
  set (a2 := fold_left visit_global (prog_declarations program) a1) in *.
  set (a3 := fold_left register_function (prog_functions program) a2) in *.
  set (a4 := fold_left visit_function (prog_functions program) a3) in *.
  pose proof (errors_fold visit_struct (prog_types program)
                (λ a t, proj1 (errors_visit_struct a t)) init) as M1.
  pose proof (errors_fold visit_global (prog_declarations program)
                (λ a d, proj1 (errors_visit_global a d)) a1) as M2.
  pose proof (errors_fold register_function (prog_functions program)
                errors_register_function a2) as M3.
  pose proof (errors_fold visit_function (prog_functions program)
                errors_visit_function a3) as M4.
  pose proof (errors_check_main a4) as M5.
  fold a1 in M1. fold a2 in M2. fold a3 in M3. fold a4 in M4.
  change (errors init) with 0 in M1.
  destruct (structs_quiet (prog_types program) init) as [Nt _].
  { fold a1. change (errors init) with 0. lia. }
  destruct (globals_quiet (prog_declarations program) a1) as [Nd _].
  { fold a2. lia. }
  destruct (registration_tables program) as [Hs Hg]. cbv zeta in Hs, Hg.
  fold a1 a2 a3 in Hs, Hg.
  pose proof (functions_quiet (prog_functions program) a3) as Hq.
  fold a4 in Hq. specialize (Hq ltac:(lia)).
  destruct (program_header_tables program) as (Gs & Ge & Gg).
  pose proof (program_header_errors program) as Eh.
  set (h := CodeGen.program_header CodeGen.init program) in *.
  destruct (visit_functions_errors (prog_functions program) h) as (l & O & El).
  { intros fs1 f fs2 Hsplit.
    destruct (Hq fs1 f fs2 Hsplit) as (Hf & Hgl & Hst).
    set (ak := fold_left visit_function fs1 a3) in *.
    set (gk := fold_left CodeGen.visit_function fs1 h).
    destruct (visit_function_quiet ak f Hf) as [He Hb].
    pose proof (body_entry_quiet ak f He) as Nf.
    destruct (visit_functions_tables fs1 h) as (Ks & Kg & Ke). fold gk in Ks, Kg, Ke.
    assert (agree (body_entry ak f) (body_tables gk f)) as Hag.
    { apply (agree_body program); try done.
      - intros n. by rewrite Hst.
      - intros x. by rewrite Hgl.
      - by rewrite Ks.
      - intros x T Hx. rewrite <- Ge. by apply Ke.
      - intros x Hx. rewrite Kg. by apply Gg. }
    apply statements_accepted in Hb.
    eapply Forall_impl; [exact Hb|]. intros s Hs'.
    apply (accepted_stmt_known (body_entry ak f)); [done| |done].
    destruct (body_entry_spec ak f) as (_ & _ & _ & -> & _). by eexists. }
  intros line Hin He. unfold CodeGen.generate, CodeGen.visit_program in Hin.
  fold h in Hin. rewrite O in Hin. apply in_app_or in Hin as [Hin|Hin].
  - apply list_elem_of_In in Hin.
    pose proof (proj1 (Forall_forall _ _) Eh line Hin) as Hf. cbn beta in Hf.
    congruence.
  - apply list_elem_of_In in Hin. destruct (El line Hin He) as (f & Hf & ->).
    exists f. split; [by apply list_elem_of_In|done].
Qed.

Lemma accepted_program_has_no_error_comment_witness :
  analyze shadowing_program = 0
  ∧ ∀ line, In line (CodeGen.generate shadowing_program) → is_error_line line = true →
      ∃ f, In f (prog_functions shadowing_program) ∧ line = func_name f +:+ ":".
Proof.
  split; [reflexivity|].
  apply (accepted_program_has_no_error_comment shadowing_program). reflexivity.
Defined.

End Pipeline.
